(** * kupferbootstrap: repository index client and package build planner

    A shallow embedding of [distro.py] and [packages/__init__.py]:
    Python strings are [string], sets are [gset], dictionaries whose
    iteration order is observed are insertion-ordered association lists,
    exceptions are the [Raise] case of [result], and the file system and
    the subprocesses the code starts are an explicit world that every
    effectful function threads. *)

From Stdlib Require Import ZArith Ascii String List Lia.
From stdpp Require Import base decidable option list gmap sets strings.

(** ** Python exceptions and results *)

Module Py.

Inductive exn :=
| KeyError (key : string)
| TypeError (msg : string)
| IndexError
| RecursionError
| AssertionError
| FileNotFoundError (path : string)
| SameFileError (path : string)
| Exception (msg : string).

(** What a call comes to: a value, an exception, or [OutOfFuel] when a
    [while] loop was still running after the number of passes the model
    was given. *)
Inductive result (A : Type) :=
| Ok (a : A)
| Raise (e : exn)
| OutOfFuel.
Arguments Ok {A} a.
Arguments Raise {A} e.
Arguments OutOfFuel {A}.

Definition bind {A B} (m : result A) (k : A -> result B) : result B :=
  match m with
  | Ok a => k a
  | Raise e => Raise e
  | OutOfFuel => OutOfFuel
  end.

End Py.
Import Py.

(** ** The string methods the code calls *)

Module PyStr.

(** [s.startswith(pre)] *)
Fixpoint startswith (s pre : string) : bool :=
  match pre with
  | EmptyString => true
  | String a pre' =>
      match s with
      | EmptyString => false
      | String b s' => Ascii.eqb a b && startswith s' pre'
      end
  end.

(** [s.endswith(suf)]: some tail of [s] is [suf]. *)
Fixpoint endswith (s suf : string) : bool :=
  String.eqb s suf ||
  match s with
  | EmptyString => false
  | String _ s' => endswith s' suf
  end.

(** [sub in s] for strings. *)
Fixpoint contains (s sub : string) : bool :=
  startswith s sub ||
  match s with
  | EmptyString => false
  | String _ s' => contains s' sub
  end.

(** [s.replace(old, new)] for a non-empty [old]: occurrences are found
    left to right and do not overlap; [skip] counts the characters of a
    match still to be dropped. *)
Fixpoint replace_go (old new : string) (skip : nat) (s : string) : string :=
  match s with
  | EmptyString => EmptyString
  | String c s' =>
      match skip with
      | S k => replace_go old new k s'
      | O =>
          if startswith s old
          then new +:+ replace_go old new (String.length old - 1) s'
          else String c (replace_go old new 0 s')
      end
  end.

(** With an empty [old], Python puts [new] before every character and at
    the end. *)
Fixpoint replace_empty (new s : string) : string :=
  match s with
  | EmptyString => new
  | String c s' => new +:+ String c (replace_empty new s')
  end.

Definition replace (old new s : string) : string :=
  match old with
  | EmptyString => replace_empty new s
  | _ => replace_go old new 0 s
  end.

(** [s.split(sep)] for a non-empty [sep]: every occurrence cuts, empty
    pieces are kept. *)
Fixpoint split_go (sep : string) (skip : nat) (s : string) : list string :=
  match s with
  | EmptyString => [EmptyString]
  | String c s' =>
      match skip with
      | S k => split_go sep k s'
      | O =>
          if startswith s sep
          then EmptyString :: split_go sep (String.length sep - 1) s'
          else match split_go sep 0 s' with
               | [] => [String c EmptyString]
               | piece :: rest => String c piece :: rest
               end
      end
  end.

Definition split (sep s : string) : list string := split_go sep 0 s.

(** The ASCII characters [str.isspace] accepts. *)
Definition isspace (c : ascii) : bool :=
  let n := nat_of_ascii c in
  ((9 <=? n) && (n <=? 13)) || ((28 <=? n) && (n <=? 32)).

Fixpoint lstrip (s : string) : string :=
  match s with
  | EmptyString => EmptyString
  | String c s' => if isspace c then lstrip s' else s
  end.

Fixpoint rstrip (s : string) : string :=
  match s with
  | EmptyString => EmptyString
  | String c s' =>
      match rstrip s' with
      | EmptyString => if isspace c then EmptyString else String c EmptyString
      | r => String c r
      end
  end.

(** [s.strip()] *)
Definition strip (s : string) : string := rstrip (lstrip s).

(** [os.path.basename(p)]: what follows the last slash. *)
Fixpoint basename (p : string) : string :=
  match p with
  | EmptyString => EmptyString
  | String c p' =>
      if Ascii.eqb c "/"%char then basename p'
      else if contains p' "/" then basename p' else p
  end.

(** One step of [os.path.join]: an absolute component restarts the path,
    a separator is added unless the path is empty or already ends in one. *)
Definition join2 (path b : string) : string :=
  if startswith b "/" then b
  else if String.eqb path "" || endswith path "/" then path +:+ b
  else path +:+ "/" +:+ b.

(** [os.path.join(a, *p)] *)
Definition join (a : string) (p : list string) : string := fold_left join2 p a.

(** [l[0::2]] and [l[1::2]] *)
Fixpoint evens {A} (l : list A) : list A :=
  match l with
  | [] => []
  | x :: l' => x :: match l' with [] => [] | _ :: l'' => evens l'' end
  end.

Definition odds {A} (l : list A) : list A :=
  match l with
  | [] => []
  | _ :: l' => evens l'
  end.

End PyStr.

(** ** Insertion-ordered dictionaries with string keys *)

Module Dict.

Definition dict (V : Type) := list (string * V).

(** [d.get(k)] *)
Fixpoint get {V} (d : dict V) (k : string) : option V :=
  match d with
  | [] => None
  | (k', v) :: d' => if String.eqb k k' then Some v else get d' k
  end.

(** [k in d] *)
Definition mem {V} (d : dict V) (k : string) : bool :=
  match get d k with
  | Some _ => true
  | None => false
  end.

(** [d[k] = v]: a key already there keeps its place, a new one goes last. *)
Fixpoint set {V} (d : dict V) (k : string) (v : V) : dict V :=
  match d with
  | [] => [(k, v)]
  | (k', v') :: d' =>
      if String.eqb k k' then (k, v) :: d' else (k', v') :: set d' k v
  end.

(** [d.keys()] and [d.values()], in insertion order. *)
Definition keys {V} (d : dict V) : list string := fst <$> d.
Definition values {V} (d : dict V) : list V := snd <$> d.

End Dict.

(** ** distro.py *)

Module Distro.
Import PyStr.

(** [resolve_url]: the two placeholders are replaced one after the other,
    in the order of the dict literal; the value for [$arch] is read from
    [config.runtime['arch']], which is the first argument here. *)
Definition resolve_url (config_runtime_arch : string)
    (url_template repo_name arch : string) : string :=
  fold_left (fun result '(template, replacement) => replace template replacement result)
    [("$repo", repo_name); ("$arch", config_runtime_arch)] url_template.

Record PackageInfo := {
  pi_name : string;
  pi_version : string;
  pi_filename : string;
  pi_resolved_url : option string;
}.

(** [desc[key]] *)
Definition getitem (desc : gmap string string) (key : string) : result string :=
  match desc !! key with
  | Some v => Ok v
  | None => Raise (KeyError key)
  end.

Definition pruned_lines (desc_str : string) : list string :=
  strip <$> filter (fun line => strip line ≠ "") (split "%" desc_str).

Definition desc_dict (lines : list string) : gmap string string :=
  fold_left (fun desc '(key, value) => <[strip key := strip value]> desc)
    (zip (evens lines) (odds lines)) ∅.

(** [PackageInfo.parse_desc] *)
Definition parse_desc (desc_str : string) (resolved_url : option string)
    : result PackageInfo :=
  let desc := desc_dict (pruned_lines desc_str) in
  bind (getitem desc "NAME") (fun name =>
  bind (getitem desc "VERSION") (fun version =>
  bind (getitem desc "FILENAME") (fun filename =>
  Ok {| pi_name := name; pi_version := version; pi_filename := filename;
        pi_resolved_url := resolved_url |}))).

(** The class attribute [RepoInfo.options]: one dict object, created when
    the class body runs, that every lookup of [self.options] on a plain
    [RepoInfo] instance reaches. *)
Record ClassStore := { RepoInfo_options : gmap string string }.

(** An instance holds [url_template]; [own_options] is the [options] entry
    of the instance's own attributes, absent unless something assigns
    [self.options]. *)
Record RepoInfo := {
  url_template : string;
  own_options : option (gmap string string);
}.

(** Attribute lookup [r.options]: the instance first, then the class. *)
Definition get_options (cls : ClassStore) (r : RepoInfo) : gmap string string :=
  match own_options r with
  | Some o => o
  | None => RepoInfo_options cls
  end.

(** [d.update(other)]: the entries of [other] win. *)
Definition dict_update (d other : gmap string string) : gmap string string :=
  other ∪ d.

(** [RepoInfo.__init__]: [self.options.update(options)] looks [options] up
    on the new instance, finds the class attribute, and changes that dict
    in place. *)
Definition RepoInfo_init (url : string) (options : gmap string string)
    (cls : ClassStore) : RepoInfo * ClassStore :=
  let self := {| url_template := url; own_options := None |} in
  (self, {| RepoInfo_options := dict_update (get_options cls self) options |}).

Record Repo := {
  name : string;
  repo_url_template : string;
  arch : string;
  options : gmap string string;
  packages : gmap string PackageInfo;
  resolved_url : option string;
  remote : option bool;
  scanned : bool;
}.

(** A member of the index archive: its name and the bytes
    [extractfile(node).read().decode()] gives. *)
Record TarMember := {
  member_name : string;
  member_data : string;
}.

(** The loop of [Repo.scan] over [index.getmembers()]. *)
Fixpoint scan_members (url : string) (members : list TarMember)
    (packages : gmap string PackageInfo) : result (gmap string PackageInfo) :=
  match members with
  | [] => Ok packages
  | node :: rest =>
      if String.eqb (basename (member_name node)) "desc"
      then bind (parse_desc (member_data node) (Some url)) (fun pkg =>
           scan_members url rest (<[pi_name pkg := pkg]> packages))
      else scan_members url rest packages
  end.

(** [Repo.scan]; downloading or opening the index file is outside the
    model, its members are the argument [index]. *)
Definition scan (config_runtime_arch : string) (index : list TarMember)
    (self : Repo) : result Repo :=
  let url := resolve_url config_runtime_arch (repo_url_template self) (name self) (arch self) in
  let is_remote := negb (startswith url "file://") in
  bind (scan_members url index (packages self)) (fun pkgs =>
  Ok {| name := name self; repo_url_template := repo_url_template self;
        arch := arch self; options := options self; packages := pkgs;
        resolved_url := Some url; remote := Some is_remote; scanned := true |}).

(** [Repo.__init__] without [scan]: [self.options = deepcopy(options)] gives
    the instance a dict of its own. *)
Definition Repo_init (name url_template arch : string)
    (options : gmap string string) : Repo :=
  {| name := name; repo_url_template := url_template; arch := arch;
     options := options; packages := ∅; resolved_url := None;
     remote := None; scanned := false |}.

Record Distro := {
  distro_arch : string;
  repos : Dict.dict Repo;
}.

(** [Distro.__init__] without [scan]; [arches] is [constants.ARCHES]. *)
Definition Distro_init (arches : list string) (arch : string)
    (repo_infos : Dict.dict RepoInfo) (cls : ClassStore) : result Distro :=
  if bool_decide (arch ∈ arches)
  then Ok {| distro_arch := arch;
             repos := fold_left
                        (fun repos '(repo_name, repo_info) =>
                           Dict.set repos repo_name
                             (Repo_init repo_name (url_template repo_info) arch
                                (get_options cls repo_info)))
                        repo_infos [] |}
  else Raise AssertionError.

(** A dict comprehension whose values are [RepoInfo(url_template=url,
    options=options)]: the constructor runs once per entry. *)
Definition repo_infos (entries : list (string * string))
    (options : gmap string string) (cls : ClassStore)
    : Dict.dict RepoInfo * ClassStore :=
  fold_left
    (fun '(infos, cls) '(repo_name, url) =>
       let '(info, cls') := RepoInfo_init url options cls in
       (Dict.set infos repo_name info, cls'))
    entries ([], cls).

(** [get_base_distro(arch)]; [base_repos] is
    [BASE_DISTROS[arch]['repos']]. *)
Definition get_base_distro (arches : list string) (base_repos : Dict.dict string)
    (arch : string) (cls : ClassStore) : result Distro * ClassStore :=
  let '(infos, cls') := repo_infos base_repos ∅ cls in
  (Distro_init arches arch infos cls', cls').

(** [get_kupfer(arch, url_template)]; [repositories] is
    [constants.REPOSITORIES]. *)
Definition get_kupfer (arches repositories : list string) (arch url : string)
    (cls : ClassStore) : result Distro * ClassStore :=
  let '(infos, cls') :=
    repo_infos ((fun repo_name => (repo_name, url)) <$> repositories)
               {["SigLevel" := "Never"]} cls in
  (Distro_init arches arch infos cls', cls').

End Distro.

(** ** packages/__init__.py: recipes, registry and build order *)

Module Packages.
Import PyStr.

Abbreviation Arch := string.

(** A [Pkgbuild] object is known by its place in the store of parsed
    recipes; two recipes with equal fields are still two objects. *)
Definition ref := nat.

Record Pkgbuild := {
  name : string;
  path : string;
  repo : string;
  version : string;
  depends : list string;
  provides : list string;
  replaces : list string;
  local_depends : list string;
  mode : string;
}.

#[global] Instance Pkgbuild_inhabited : Inhabited Pkgbuild :=
  populate {| name := ""; path := ""; repo := ""; version := "";
              depends := []; provides := []; replaces := [];
              local_depends := []; mode := "" |}.

Abbreviation Heap := (list Pkgbuild).

Definition deref (heap : Heap) (r : ref) : Pkgbuild := heap !!! r.

(** Modelled from the spec: [Pkgbuild.names()] is defined in [pkgbuild.py],
    which is not among the sources. The spec gives
    names(r) = {r.name} ∪ r.provides ∪ r.replaces. *)
Definition names (p : Pkgbuild) : list string :=
  name p :: provides p ++ replaces p.

(** *** discover_packages *)

(** The warning of the dictionary loop: the recipe found under
    [packages[package.name]] (not under the colliding key) and the recipe
    that takes the key. *)
Record Warning := {
  overridden : option ref;
  overriding : ref;
}.

(** The body of [for name in [package.name] + package.replaces]. *)
Definition register_name (package_name : string) (package : ref)
    (acc : Dict.dict ref * list Warning) (name : string)
    : Dict.dict ref * list Warning :=
  let '(packages, log) := acc in
  let log' :=
    if Dict.mem packages name
    then log ++ [{| overridden := Dict.get packages package_name;
                    overriding := package |}]
    else log in
  (Dict.set packages name package, log').

Definition register (acc : Dict.dict ref * list Warning)
    (entry : ref * Pkgbuild) : Dict.dict ref * list Warning :=
  let '(package, p) := entry in
  fold_left (register_name (name p) package) (name p :: replaces p) acc.

(** [for package in results: ...] over the parsed recipes, each with its
    place in the store. *)
Definition build_dictionary (results : list Pkgbuild)
    : Dict.dict ref * list Warning :=
  fold_left register (zip (seq 0 (length results)) results) ([], []).

(** [l.remove(x)]: the first occurrence goes. *)
Fixpoint list_remove (x : string) (l : list string) : list string :=
  match l with
  | [] => []
  | y :: l' => if String.eqb x y then l' else y :: list_remove x l'
  end.

(** The search that sets [found] for one dependency. *)
Definition found (heap : Heap) (packages : Dict.dict ref) (dep : string) : bool :=
  Dict.mem packages dep ||
  existsb (fun p => existsb (String.eqb dep) (names (deref heap p)))
          (Dict.values packages).

Definition set_local_depends (p : Pkgbuild) (l : list string) : Pkgbuild :=
  {| name := name p; path := path p; repo := repo p; version := version p;
     depends := depends p; provides := provides p; replaces := replaces p;
     local_depends := l; mode := mode p |}.

(** The body of [for package in packages.values()]: the object behind
    [package] gets its [local_depends]. *)
Definition filter_local_depends (packages : Dict.dict ref) (heap : Heap)
    (package : ref) : Heap :=
  let p := deref heap package in
  let kept :=
    fold_left (fun local dep =>
                 if found heap packages dep then local else list_remove dep local)
              (depends p) (depends p) in
  <[package := set_local_depends p kept]> heap.

(** [discover_packages]: the parsed recipes [results] come from the recipe
    parser; the result is the store of recipe objects, the registry and
    the warnings. *)
Definition discover_packages (results : list Pkgbuild)
    : Heap * Dict.dict ref * list Warning :=
  let '(packages, log) := build_dictionary results in
  let heap := fold_left (filter_local_depends packages) (Dict.values packages) results in
  (heap, packages, log).

(** *** filter_packages *)

Definition in_paths (paths : list string) (s : string) : bool :=
  existsb (String.eqb s) paths.

(** [comparison.intersection(paths)] is not empty. *)
Definition matches (use_paths use_names : bool) (paths : list string)
    (pkg : Pkgbuild) : bool :=
  (use_paths && in_paths paths (path pkg)) || (use_names && in_paths paths (name pkg)).

Definition filter_packages (heap : Heap) (repo : Dict.dict ref)
    (paths : list string) (allow_empty_results use_paths use_names : bool)
    : result (list ref) :=
  if in_paths paths "all" then Ok (Dict.values repo)
  else
    let result :=
      List.filter (fun pkg => matches use_paths use_names paths (deref heap pkg))
                  (Dict.values repo) in
    if negb allow_empty_results && bool_decide (result = [])
    then Raise (Exception "No packages matched by paths")
    else Ok result.

(** *** generate_dependency_chain *)

(** [visited] and [visited_names] *)
Record Visited := {
  visited : gset ref;
  visited_names : gset string;
}.

(** The dependency levels under construction. *)
Record Levels := {
  dep_levels : list (gset ref);
  seen : Visited;
  modified : bool;
}.

Section Chain.

(** The order in which a [for] loop runs through a set of recipe objects.
    Python leaves it open; what is proved below holds for every order. *)
Variable iter : gset ref -> list ref.
Variable heap : Heap.
Variable package_repo : Dict.dict ref.

Definition visit (package : ref) (v : Visited) : Visited :=
  {| visited := {[package]} ∪ visited v;
     visited_names := list_to_set (names (deref heap package)) ∪ visited_names v |}.

(** [dep_levels[i].add(pkg)] and [dep_levels[i].remove(pkg)] *)
Definition level_add (i : nat) (pkg : ref) (l : list (gset ref)) : list (gset ref) :=
  alter (fun s => {[pkg]} ∪ s) i l.
Definition level_remove (i : nat) (pkg : ref) (l : list (gset ref)) : list (gset ref) :=
  alter (fun s => s ∖ {[pkg]}) i l.

(** The body of [for dep_pkg in get_recursive_dependencies(package)] at
    level 0, run at every [yield]. *)
Definition consume (dep_pkg : ref) (st : Levels) : Levels :=
  {| dep_levels := level_add 0 dep_pkg (dep_levels st);
     seen := visit dep_pkg (seen st);
     modified := modified st |}.

(** [get_recursive_dependencies] over [get_dependencies]: a generator that
    visits a dependency, yields it, and then walks that dependency's own
    dependencies before going on. [limit] is the depth of calls Python
    allows. *)
Fixpoint get_recursive_dependencies (limit : nat) (package : ref) (st : Levels)
    : result Levels :=
  match limit with
  | O => Raise RecursionError
  | S limit' =>
      fold_left
        (fun acc dep_name =>
           bind acc (fun st =>
             if bool_decide (dep_name ∈ visited_names (seen st)) then Ok st
             else match Dict.get package_repo dep_name with
                  | None => Ok st
                  | Some dep_pkg =>
                      let st1 := {| dep_levels := dep_levels st;
                                    seen := visit dep_pkg (seen st);
                                    modified := modified st |} in
                      get_recursive_dependencies limit' dep_pkg (consume dep_pkg st1)
                  end))
        (depends (deref heap package)) (Ok st)
  end.

(** The body of [for package in to_build]. *)
Definition init_package (limit : nat) (acc : result Levels) (package : ref)
    : result Levels :=
  bind acc (fun st =>
    let st1 := {| dep_levels := level_add 0 package (dep_levels st);
                  seen := visit package (seen st);
                  modified := modified st |} in
    get_recursive_dependencies limit package st1).

Definition init_levels (limit : nat) (to_build : list ref) : result Levels :=
  fold_left (init_package limit) to_build
    (Ok {| dep_levels := [∅; ∅];
           seen := {| visited := ∅; visited_names := ∅ |};
           modified := false |}).

(** [other_pkg] has a dependency that is one of the names of [pkg]: the
    inner [for dep_name in other_pkg.depends] with its [break]. *)
Definition depends_on (other_pkg pkg : Pkgbuild) : bool :=
  existsb (fun dep_name => bool_decide (dep_name ∈ names pkg)) (depends other_pkg).

Definition move (level : nat) (pkg : ref) (st : Levels) : Levels :=
  {| dep_levels := level_add (S level) pkg (level_remove level pkg (dep_levels st));
     seen := seen st;
     modified := true |}.

(** [for other_pkg in level_copy] with the flag [pkg_done]. *)
Fixpoint others_loop (level : nat) (pkg : ref) (others : list ref)
    (pkg_done : bool) (st : Levels) : Levels :=
  match others with
  | [] => st
  | other_pkg :: rest =>
      if bool_decide (pkg = other_pkg) then others_loop level pkg rest pkg_done st
      else if pkg_done then st
      else if depends_on (deref heap other_pkg) (deref heap pkg)
           then others_loop level pkg rest true (move level pkg st)
           else others_loop level pkg rest false st
  end.

(** [for dep_name in pkg.depends] of the main loop. *)
Definition add_dependencies (level : nat) (pkg : ref) (st : Levels) : Levels :=
  fold_left
    (fun st dep_name =>
       if bool_decide (dep_name ∈ visited_names (seen st)) then st
       else match Dict.get package_repo dep_name with
            | None => st
            | Some dep_pkg =>
                {| dep_levels := level_add level dep_pkg (dep_levels st);
                   seen := visit dep_pkg (seen st);
                   modified := true |}
            end)
    (depends (deref heap pkg)) st.

(** [dep_levels[i]] where the index is known to be in range. *)
Definition level_at (i : nat) (l : list (gset ref)) : gset ref := default ∅ (l !! i).

(** The body of [for pkg in level_copy]. *)
Definition scan_pkg (level : nat) (level_copy : gset ref) (st : Levels) (pkg : ref)
    : Levels :=
  if bool_decide (pkg ∈ level_at level (dep_levels st))
  then add_dependencies level pkg (others_loop level pkg (iter level_copy) false st)
  else st.

(** One pass of the [while] body up to the cycle checks. *)
Definition scan_level (level : nat) (level_copy : gset ref) (st : Levels) : Levels :=
  fold_left (scan_pkg level level_copy) (iter level_copy)
    {| dep_levels := dep_levels st; seen := seen st; modified := false |}.

(** The [while dep_levels[level]] loop; [fuel] bounds the number of
    passes. The value is the list of levels when the loop ends. *)
Fixpoint while_loop (fuel : nat) (level repeat_count : nat)
    (_last_level : option (gset ref)) (st : Levels) : result (list (gset ref)) :=
  match dep_levels st !! level with
  | None => Raise IndexError
  | Some current =>
      if bool_decide (current = ∅) then Ok (dep_levels st)
      else match fuel with
      | O => OutOfFuel
      | S fuel' =>
          let level_copy := current in
          if 100 <? level
          then Raise (Exception "Dependency chain reached 100 levels depth, this is probably a bug. Aborting!")
          else
            let st' := scan_level level level_copy st in
            let repeat_count' :=
              if bool_decide (_last_level = Some (level_at level (dep_levels st')))
              then S repeat_count else 0 in
            if 10 <? repeat_count'
            then Raise (Exception "Probable dependency cycle detected: Level has been passed on unmodifed multiple times")
            else
              let _last_level' := Some (level_at level (dep_levels st')) in
              if modified st'
              then while_loop fuel' level repeat_count' _last_level' st'
              else while_loop fuel' (S level) repeat_count' _last_level'
                     {| dep_levels := dep_levels st' ++ [∅];
                        seen := seen st'; modified := modified st' |}
      end
  end.

(** [[lvl for lvl in dep_levels[::-1] if lvl]] *)
Definition build_order (levels : list (gset ref)) : list (gset ref) :=
  filter (fun lvl => lvl ≠ ∅) (reverse levels).

Definition generate_dependency_chain (limit fuel : nat) (to_build : list ref)
    : result (list (gset ref)) :=
  bind (init_levels limit to_build) (fun st =>
  bind (while_loop fuel 0 0 None st) (fun levels =>
  Ok (build_order levels))).

(** *** get_dependants *)

Definition pkg_names (packages : list ref) : gset string :=
  list_to_set ((fun pkg => name (deref heap pkg)) <$> packages).

(** [set.intersection(names, set(pkg.depends))] is not empty. *)
Definition depends_on_any (names : gset string) (pkg : Pkgbuild) : bool :=
  existsb (fun dep => bool_decide (dep ∈ names)) (depends pkg).

Definition direct_dependants (packages : list ref) : gset ref :=
  list_to_set
    (List.filter (fun pkg => depends_on_any (pkg_names packages) (deref heap pkg))
                 (Dict.values package_repo)).

(** [get_dependants(repo, packages, recursive)]; [limit] is the depth of
    calls Python allows. *)
Fixpoint get_dependants (limit : nat) (packages : list ref) (recursive : bool)
    : result (gset ref) :=
  match limit with
  | O => Raise RecursionError
  | S limit' =>
      let to_add := direct_dependants packages in
      if recursive && negb (bool_decide (to_add = ∅))
      then bind (get_dependants limit' (iter to_add) true) (fun more =>
           Ok (to_add ∪ more))
      else Ok to_add
  end.

End Chain.

(** *** The world outside: files and subprocesses *)

(** Files by path with their content, the commands handed to
    [subprocess.run] so far, and the recipes [build_package] was called
    on so far. Directories are not tracked: [os.makedirs] changes nothing
    here and a copy never fails for a missing directory. *)
Record World := {
  files : gmap string string;
  cmds : list (list string);
  builds : list ref;
}.

(** What the code reads from [constants] and [config], and the programs it
    starts. [subprocess_run cwd cmd] gives a command's return code and the
    files it leaves; [makepkg_packagelist] stands for [setup_build_chroot],
    [write_makepkg_conf] and [run_cmd] of the chroot subsystem, which
    yield the files they leave, the return code and the captured output
    of [makepkg --packagelist]; [makepkg_build] stands for the chroot steps of
    [build_package] and gives the files a successful build leaves;
    [listdir_order] is the order [os.listdir] happens to use. *)
Record Env := {
  ARCHES : list Arch;
  REPOSITORIES : list string;
  config_runtime_arch : Arch;
  config_get_path : string -> string;
  config_get_package_dir : Arch -> string;
  subprocess_run : option string -> list string -> gmap string string -> Z * gmap string string;
  makepkg_packagelist : Pkgbuild -> Arch -> gmap string string -> gmap string string * Z * string;
  makepkg_build : Pkgbuild -> Arch -> gmap string string -> option (gmap string string);
  listdir_order : list string -> list string;
}.

(** Effectful code: a function of the world that returns a value and the
    world after it, or raises. *)
Definition M (A : Type) : Type := World -> result (A * World).

#[global] Instance M_ret : MRet M := fun A a w => Ok (a, w).
#[global] Instance M_bind : MBind M := fun A B k m w =>
  match m w with
  | Ok (a, w') => k a w'
  | Raise e => Raise e
  | OutOfFuel => OutOfFuel
  end.

Definition raise {A} (e : exn) : M A := fun _ => Raise e.
Definition lift {A} (r : result A) : M A := fun w =>
  match r with
  | Ok a => Ok (a, w)
  | Raise e => Raise e
  | OutOfFuel => OutOfFuel
  end.

(** A [for] loop that carries the variables its body assigns. *)
Fixpoint for_each {A S} (l : list A) (body : S -> A -> M S) (s : S) : M S :=
  match l with
  | [] => mret s
  | x :: l' => s' ← body s x; for_each l' body s'
  end.

(** [os.path.exists] *)
Definition exists_ (path : string) : M bool :=
  fun w => Ok (bool_decide (is_Some (files w !! path)), w).

(** [os.unlink] *)
Definition unlink (path : string) : M unit := fun w =>
  match files w !! path with
  | None => Raise (FileNotFoundError path)
  | Some _ => Ok (tt, {| files := delete path (files w); cmds := cmds w;
                         builds := builds w |})
  end.

(** [shutil.copyfile(src, dst)], and [shutil.copy(src, dst)] when [dst]
    names a file. *)
Definition copyfile (src dst : string) : M unit := fun w =>
  match files w !! src with
  | None => Raise (FileNotFoundError src)
  | Some content =>
      if String.eqb src dst then Raise (SameFileError src)
      else Ok (tt, {| files := <[dst := content]> (files w); cmds := cmds w;
                         builds := builds w |})
  end.

(** [shutil.copy(src, dst)] when [dst] is a directory. *)
Definition copy_into (src dir : string) : M unit :=
  copyfile src (join dir [basename src]).

(** [subprocess.run(cmd, cwd=cwd).returncode] *)
Definition run (env : Env) (cwd : option string) (cmd : list string) : M Z := fun w =>
  let '(returncode, files') := subprocess_run env cwd cmd (files w) in
  Ok (returncode, {| files := files'; cmds := cmds w ++ [cmd]; builds := builds w |}).

(** The part of [s] after its first [n] characters. *)
Fixpoint string_drop (n : nat) (s : string) : string :=
  match n, s with
  | O, _ => s
  | S n', String _ s' => string_drop n' s'
  | S _, EmptyString => EmptyString
  end.

Fixpoint first_component (s : string) : string :=
  match s with
  | EmptyString => EmptyString
  | String c s' => if Ascii.eqb c "/"%char then EmptyString else String c (first_component s')
  end.

Definition dir_prefix (dir : string) : string :=
  if String.eqb dir "" || endswith dir "/" then dir else dir +:+ "/".

(** The entry of [dir] that [path] lies in or under, if any. *)
Definition child_of (dir path : string) : option string :=
  if startswith path (dir_prefix dir)
  then match first_component (string_drop (String.length (dir_prefix dir)) path) with
       | EmptyString => None
       | child => Some child
       end
  else None.

(** The entries of [dir], as the files of the world show them. *)
Definition dir_entries (env : Env) (dir : string) (w : World) : list string :=
  listdir_order env
    (remove_dups (omap (fun entry => child_of dir entry.1) (map_to_list (files w)))).

(** [os.listdir(dir)]. The world holds files only: a directory is there
    as soon as a file lies under it, and one without files is listed as
    empty. *)
Definition listdir (env : Env) (dir : string) : M (list string) := fun w =>
  Ok (dir_entries env dir w, w).

(** *** Publishing *)

Definition db_fixup (file : string) : M unit :=
  has_xz ← exists_ (file +:+ ".tar.xz");
  (if has_xz : bool
   then unlink file;; copyfile (file +:+ ".tar.xz") file
   else mret tt);;
  has_old ← exists_ (file +:+ ".tar.xz.old");
  if has_old : bool then unlink (file +:+ ".tar.xz.old") else mret tt.

Definition repo_add_cmd (repo_dir repo_name target_file : string) : list string :=
  ["repo-add"; "--remove"; join repo_dir [repo_name +:+ ".db.tar.xz"]; target_file].

(** [add_file_to_repo]; its [os.makedirs(repo_dir, exist_ok=True)] changes
    nothing in a world of files. *)
Definition add_file_to_repo (env : Env) (file_path repo_name : string) (arch : Arch)
    : M unit :=
  let repo_dir := join (config_get_package_dir env arch) [repo_name] in
  let pacman_cache_dir := join (config_get_path env "pacman") [arch] in
  let file_name := basename file_path in
  let target_file := join repo_dir [file_name] in
  (if String.eqb file_path target_file then mret tt
   else copy_into file_path repo_dir;; unlink file_path);;
  let cache_file := join pacman_cache_dir [file_name] in
  cached ← exists_ cache_file;
  (if cached : bool then unlink cache_file else mret tt);;
  returncode ← run env None (repo_add_cmd repo_dir repo_name target_file);
  if negb (returncode =? 0)%Z
  then raise (Exception ("Failed add package " +:+ target_file +:+ " to repo " +:+ repo_name))
  else
    for_each ["db"; "files"]
      (fun _ ext => db_fixup (join repo_dir [repo_name +:+ "." +:+ ext])) tt.

(** [filename[:-(len(ext) + 1)]] *)
Definition drop_last (n : nat) (s : string) : string :=
  String.substring 0 (String.length s - n) s.

Definition strip_compression_extension (filename : string) : string :=
  match List.find (fun ext => endswith filename (".pkg.tar." +:+ ext))
                  ["zst"; "xz"; "gz"; "bz2"] with
  | Some ext => drop_last (String.length ext + 1) filename
  | None => filename
  end.

(** The fan-out of an any-arch artifact in [add_package_to_repo]. *)
Definition copy_to_other_arches (env : Env) (repo_name : string) (arch : Arch)
    (repo_file file : string) : M unit :=
  for_each (ARCHES env)
    (fun _ repo_arch =>
       if String.eqb repo_arch arch then mret tt
       else
         let copy_target := join (config_get_package_dir env repo_arch) [repo_name; file] in
         copyfile repo_file copy_target;;
         add_file_to_repo env copy_target repo_name repo_arch)
    tt.

(** The body of [for file in os.listdir(pkgbuild_dir)]. *)
Definition publish_file (env : Env) (package : Pkgbuild) (arch : Arch)
    (pkgbuild_dir : string) (files : list string) (file : string) : M (list string) :=
  let stripped_name := strip_compression_extension file in
  if negb (endswith stripped_name ".pkg.tar") then mret files
  else
    let repo_file := join (config_get_package_dir env arch) [repo package; file] in
    add_file_to_repo env (join pkgbuild_dir [file]) (repo package) arch;;
    (if endswith stripped_name "any.pkg.tar"
     then copy_to_other_arches env (repo package) arch repo_file file
     else mret tt);;
    mret (files ++ [repo_file]).

Definition add_package_to_repo (env : Env) (package : Pkgbuild) (arch : Arch)
    : M (list string) :=
  let pkgbuild_dir := join (config_get_path env "pkgbuilds") [path package] in
  entries ← listdir env pkgbuild_dir;
  for_each entries (publish_file env package arch pkgbuild_dir) [].

(** *** Freshness *)

(** [try_download_package]: its first call is
    [get_kupfer_https(arch, scan=True)], and [get_kupfer_https] takes
    [arch] alone, so Python raises [TypeError] there and nothing after it
    runs. *)
Definition try_download_package (dest_file_path : string) (package : Pkgbuild)
    (arch : Arch) : M bool :=
  raise (TypeError "get_kupfer_https() got an unexpected keyword argument 'scan'").

(** The search through the other arches' repos, with its [break]; the
    value tells whether the artifact was found. *)
Fixpoint find_in_other_arches (env : Env) (repo_name : string) (arch : Arch)
    (basename target_repo_file : string) (arches : list Arch) : M bool :=
  match arches with
  | [] => mret false
  | repo_arch :: rest =>
      if String.eqb repo_arch arch
      then find_in_other_arches env repo_name arch basename target_repo_file rest
      else
        let other_repo_path := join (config_get_package_dir env repo_arch) [repo_name; basename] in
        there ← exists_ other_repo_path;
        if there : bool
        then copyfile other_repo_path target_repo_file;;
             add_file_to_repo env target_repo_file repo_name arch;;
             mret true
        else find_in_other_arches env repo_name arch basename target_repo_file rest
  end.

(** The copy of a present any-arch artifact to the arches that lack it. *)
Definition copy_to_arches_lacking (env : Env) (repo_name : string) (arch : Arch)
    (basename target_repo_file : string) : M unit :=
  for_each (ARCHES env)
    (fun _ repo_arch =>
       if String.eqb repo_arch arch then mret tt
       else
         let copy_target := join (config_get_package_dir env repo_arch) [repo_name; basename] in
         there ← exists_ copy_target;
         if there : bool then mret tt
         else copyfile target_repo_file copy_target;;
              add_file_to_repo env copy_target repo_name repo_arch)
    tt.

(** The body of [for line in result.stdout.decode('utf-8').split('\n')];
    the carried variable is [missing]. *)
Definition check_line (env : Env) (package : Pkgbuild) (arch : Arch)
    (try_download : bool) (missing : bool) (line : string) : M bool :=
  if String.eqb line "" then mret missing
  else
    let basename := basename line in
    let file := join (config_get_package_dir env arch) [repo package; basename] in
    let filename_stripped := strip_compression_extension file in
    if negb (endswith filename_stripped ".pkg.tar") then mret missing
    else
      there ← exists_ file;
      got ← (if there : bool then mret true
             else if try_download then try_download_package file package arch
             else mret false);
      missing ← (if got : bool
                 then add_file_to_repo env file (repo package) arch;; mret false
                 else mret missing);
      if endswith filename_stripped "any.pkg.tar"
      then
        let target_repo_file := join (config_get_package_dir env arch) [repo package; basename] in
        there ← exists_ target_repo_file;
        missing ← (if there : bool then mret false
                   else
                     found ← find_in_other_arches env (repo package) arch basename
                               target_repo_file (ARCHES env);
                     mret (if found : bool then false else missing));
        there ← exists_ target_repo_file;
        (if there : bool
         then copy_to_arches_lacking env (repo package) arch basename target_repo_file
         else mret tt);;
        mret missing
      else mret missing.

Definition check_package_version_built (env : Env) (package : Pkgbuild) (arch : Arch)
    (try_download : bool) : M bool :=
  fun w =>
    let '(files1, returncode, stdout) := makepkg_packagelist env package arch (files w) in
    if negb (returncode =? 0)%Z
    then Raise (Exception ("Failed to get package list for " +:+ path package))
    else
      (missing ← for_each (split "
" stdout) (check_line env package arch try_download) true;
       mret (negb missing))
        {| files := files1; cmds := cmds w; builds := builds w |}.

(** *** Planning and building *)

(** [init_prebuilts(arch)] with [dir] left at its default. *)
Definition init_prebuilts (env : Env) (arch : Arch) : M unit :=
  let prebuilts_dir := config_get_package_dir env arch in
  for_each (REPOSITORIES env)
    (fun _ repo =>
       for_each ["db"; "files"]
         (fun _ ext1 =>
            for_each [""; ".tar.xz"]
              (fun _ ext2 =>
                 let file := repo +:+ "." +:+ ext1 +:+ ext2 in
                 there ← exists_ (join prebuilts_dir [repo; file]);
                 if there : bool then mret tt
                 else
                   returncode ← run env (Some (join prebuilts_dir [repo]))
                                  ["tar"; "-czf"; file; "-T"; "/dev/null"];
                   if negb (returncode =? 0)%Z
                   then raise (Exception ("Failed to create local repo " +:+ repo))
                   else mret tt)
              tt)
         tt)
    tt.

Section Planning.

Variable env : Env.
Variable iter : gset ref -> list ref.
Variable heap : Heap.
Variable repo : Dict.dict ref.
(** The call depth Python allows and the passes the solver's loop is given. *)
Variable limit fuel : nat.

(** The body of [for package in level_packages]. *)
Definition check_level_package (packages : list ref) (dependants : gset ref)
    (arch : Arch) (force rebuild_dependants try_download : bool)
    (level : gset ref) (package : ref) : M (gset ref) :=
  if (force && bool_decide (package ∈ packages))
     || (rebuild_dependants && bool_decide (package ∈ dependants))
  then mret ({[package]} ∪ level)
  else
    built ← check_package_version_built env (deref heap package) arch try_download;
    mret (if built : bool then level else {[package]} ∪ level).

Definition get_unbuilt_package_levels (packages : list ref) (arch : Arch)
    (force rebuild_dependants try_download : bool) : M (list (gset ref)) :=
  dependants ← lift (if rebuild_dependants
                     then get_dependants iter heap repo limit packages true
                     else Ok ∅);
  package_levels ← lift (generate_dependency_chain iter heap repo limit fuel
                           (iter (list_to_set packages ∪ dependants)));
  for_each package_levels
    (fun build_levels level_packages =>
       level ← for_each (iter level_packages)
                 (check_level_package packages dependants arch force
                    rebuild_dependants try_download) ∅;
       mret (if bool_decide (level = ∅) then build_levels else build_levels ++ [level]))
    [].

(** [build_package]: every step runs in a chroot, outside the model; what
    is kept is that the call happened, whether it failed, and the files
    it left. *)
Definition build_package (package : ref) (arch : Arch) : M unit := fun w =>
  match makepkg_build env (deref heap package) arch (files w) with
  | None => Raise (Exception ("Failed to compile package " +:+ path (deref heap package)))
  | Some files' =>
      Ok (tt, {| files := files'; cmds := cmds w; builds := builds w ++ [package] |})
  end.

(** [build_packages]; the value is [None] where Python returns without a
    value ("Everything built already"). *)
Definition build_packages (packages : list ref) (arch : Arch)
    (force rebuild_dependants try_download : bool) : M (option (list string)) :=
  init_prebuilts env arch;;
  build_levels ← get_unbuilt_package_levels packages arch force rebuild_dependants
                   try_download;
  if bool_decide (build_levels = []) then mret None
  else
    files ← for_each build_levels
              (fun files need_build =>
                 for_each (iter need_build)
                   (fun files package =>
                      build_package package arch;;
                      new ← add_package_to_repo env (deref heap package) arch;
                      mret (files ++ new))
                   files)
              [];
    mret (Some files).

Definition build_packages_by_paths (paths : list string) (arch : Arch)
    (force rebuild_dependants try_download : bool) : M (option (list string)) :=
  for_each (remove_dups [arch; config_runtime_arch env])
    (fun _ _arch => init_prebuilts env _arch) tt;;
  packages ← lift (filter_packages heap repo paths false true true);
  build_packages packages arch force rebuild_dependants try_download.

End Planning.

End Packages.

(** * Concrete inputs used below *)

Module Examples.
Import PyStr Distro.

Definition desc_zlib : string :=
  "%FILENAME%
zlib-1.3-1-aarch64.pkg.tar.zst

%NAME%
zlib

%VERSION%
1.3-1
".

(** A desc block with no [%VERSION%] section. *)
Definition desc_broken : string :=
  "%FILENAME%
broken-1-1-aarch64.pkg.tar.zst

%NAME%
broken
".

Definition desc_bash : string :=
  "%FILENAME%
bash-5.2-1-aarch64.pkg.tar.zst

%NAME%
bash

%VERSION%
5.2-1
".

Definition index_with_broken_entry : list TarMember :=
  [ {| member_name := "zlib-1.3-1"; member_data := "" |};
    {| member_name := "zlib-1.3-1/desc"; member_data := desc_zlib |};
    {| member_name := "broken-1-1/desc"; member_data := desc_broken |};
    {| member_name := "bash-5.2-1/desc"; member_data := desc_bash |} ].

Definition main_repo : Repo :=
  Repo_init "main" "file:///prebuilts/$arch/$repo" "aarch64" ∅.

End Examples.

Module Recipes.
Import PyStr Packages.

Definition recipe (name : string) (depends provides replaces : list string) : Pkgbuild :=
  {| name := name; path := "main/" +:+ name; repo := "main"; version := "1.0-1";
     depends := depends; provides := provides; replaces := replaces;
     local_depends := []; mode := "host" |}.

(** a depends on b, b depends on c. *)
Definition chain_recipes : list Pkgbuild :=
  [recipe "a" ["b"] [] []; recipe "b" ["c"] [] []; recipe "c" [] [] []].

(** a depends on b, b depends on a. *)
Definition cycle_recipes : list Pkgbuild :=
  [recipe "a" ["b"] [] []; recipe "b" ["a"] [] []].

(** a depends on foo, b provides foo. *)
Definition provides_recipes : list Pkgbuild :=
  [recipe "a" ["foo"] [] []; recipe "b" [] ["foo"] []].

(** y replaces x, and is parsed after x. *)
Definition collision_recipes : list Pkgbuild :=
  [recipe "x" [] [] []; recipe "y" [] [] ["x"]].

(** a replaces old, b depends on old. *)
Definition alias_recipes : list Pkgbuild :=
  [recipe "a" [] [] ["old"]; recipe "b" ["old"] [] []].

(** A dict that is no registry: the key d leads to the recipe named p,
    while the recipe named d sits under the key w. *)
Definition odd_heap : Heap :=
  [recipe "p" ["q"] [] []; recipe "d" [] [] []; recipe "q" ["d"] [] []].
Definition odd_registry : Dict.dict ref := [("d", 0); ("w", 1); ("q", 2)].

(** The store and the registry that discovery builds from a list of
    parsed recipes. *)
Definition heap_of (results : list Pkgbuild) : Heap := (discover_packages results).1.1.
Definition registry_of (results : list Pkgbuild) : Dict.dict ref :=
  (discover_packages results).1.2.

(** A small installation: two arches, one repo, an x86_64 host. The
    programs it starts behave as follows: [tar -czf f -T /dev/null]
    creates the empty archive [f] in its working directory; [repo-add
    --remove db target] fails if [target] is missing and otherwise
    writes the index, with the name of [target] added, to the four index
    files ([x.db.tar.xz], [x.files.tar.xz] and the links [x.db],
    [x.files]); a build leaves one any-arch artifact in the recipe's
    directory. *)
Definition example_subprocess_run (cwd : option string) (cmd : list string)
    (files : gmap string string) : Z * gmap string string :=
  match cmd with
  | ["tar"; "-czf"; file; "-T"; "/dev/null"] =>
      (0%Z, <[join (default "" cwd) [file] := ""]> files)
  | ["repo-add"; "--remove"; db; target] =>
      match files !! target with
      | Some _ =>
          let index := default "" (files !! db) +:+ basename target +:+ ";" in
          let stem := drop_last 10 db in
          (0%Z, <[stem +:+ ".files" := index]> (<[stem +:+ ".files.tar.xz" := index]>
                  (<[stem +:+ ".db" := index]> (<[db := index]> files))))
      | None => (1%Z, files)
      end
  | _ => (1%Z, files)
  end.

Definition artifact_name (p : Pkgbuild) : string :=
  name p +:+ "-" +:+ version p +:+ "-any.pkg.tar.zst".

Definition example_env : Env :=
  {| ARCHES := ["x86_64"; "aarch64"];
     REPOSITORIES := ["main"];
     config_runtime_arch := "x86_64";
     config_get_path := fun key => "/var/" +:+ key;
     config_get_package_dir := fun arch => "/var/packages/" +:+ arch;
     subprocess_run := example_subprocess_run;
     makepkg_packagelist := fun p arch files =>
       (files, 0%Z, "/var/pkgbuilds/" +:+ path p +:+ "/" +:+ artifact_name p +:+ "
");
     makepkg_build := fun p arch files =>
       Some (<["/var/pkgbuilds/" +:+ path p +:+ "/" +:+ artifact_name p := "built " +:+ name p]> files);
     listdir_order := fun l => l |}.

Definition empty_world : World := {| files := ∅; cmds := []; builds := [] |}.

(** The recipe tool after its build for x86_64: the directory of the
    recipe holds the PKGBUILD and one any-arch artifact. *)
Definition tool : Pkgbuild := recipe "tool" [] [] [].
Definition tool_dir : string := "/var/pkgbuilds/main/tool".
Definition tool_artifact : string := "tool-1.0-1-any.pkg.tar.zst".
Definition built_world : World :=
  {| files := {[ "/var/pkgbuilds/main/tool/PKGBUILD" := "pkgname=tool";
                 "/var/pkgbuilds/main/tool/tool-1.0-1-any.pkg.tar.zst" := "built tool" ]};
     cmds := []; builds := [] |}.

(** ... and after [add_package_to_repo] has published it for x86_64. *)
Definition published_world : World :=
  match add_package_to_repo example_env tool "x86_64" built_world with
  | Py.Ok (_, w) => w
  | _ => empty_world
  end.

(** A split recipe: its package list names two artifacts, libfoo and
    libfoo-docs. The repo of x86_64 holds the first one only. *)
Definition libfoo : Pkgbuild := recipe "libfoo" [] [] [].
Definition libfoo_artifact : string := "libfoo-1.0-1-x86_64.pkg.tar.zst".
Definition libfoo_docs_artifact : string := "libfoo-docs-1.0-1-x86_64.pkg.tar.zst".
Definition split_env : Env :=
  {| ARCHES := ARCHES example_env;
     REPOSITORIES := REPOSITORIES example_env;
     config_runtime_arch := config_runtime_arch example_env;
     config_get_path := config_get_path example_env;
     config_get_package_dir := config_get_package_dir example_env;
     subprocess_run := subprocess_run example_env;
     makepkg_packagelist := fun p arch files =>
       (files, 0%Z,
        "/var/pkgbuilds/main/libfoo/libfoo-1.0-1-x86_64.pkg.tar.zst
/var/pkgbuilds/main/libfoo/libfoo-docs-1.0-1-x86_64.pkg.tar.zst
");
     makepkg_build := makepkg_build example_env;
     listdir_order := listdir_order example_env |}.
Definition split_world : World :=
  {| files := {[ "/var/pkgbuilds/main/libfoo/PKGBUILD" := "pkgname=(libfoo libfoo-docs)";
                 "/var/packages/x86_64/main/libfoo-1.0-1-x86_64.pkg.tar.zst" := "built libfoo" ]};
     cmds := []; builds := [] |}.

End Recipes.

(** * Vocabulary for the statements about distro.py *)

Module DistroSpec.
Import PyStr Distro.

(** The keys [parse_desc] reads, in the order it reads them. *)
Definition required_keys : list string := ["NAME"; "VERSION"; "FILENAME"].

(** A desc block from which all three keys can be recovered. *)
Definition recovers (desc_str : string) : Prop :=
  ∀ key, key ∈ required_keys → is_Some (desc_dict (pruned_lines desc_str) !! key).

End DistroSpec.

(** * Vocabulary for the statements about the registry *)

Module RegistrySpec.
Import PyStr Dict Packages.

(** The keys a recipe is inserted under. *)
Definition owner_keys (p : Pkgbuild) : list string := name p :: replaces p.

(** The number of keys under which [v] is stored, and the number of
    times it comes up in [values]. *)
Definition key_count `{EqDecision V} (d : dict V) (v : V) : nat :=
  length (filter (fun k => get d k = Some v) (keys d)).

Definition occurrences `{EqDecision V} (v : V) (l : list V) : nat :=
  length (filter (fun x => x = v) l).

End RegistrySpec.

(** * Vocabulary for the statements about the solver *)

Module ChainSpec.
Import PyStr Packages.

(** A registry in the sense of discovery: every key is one of the names
    of the recipe it leads to. *)
Definition registry_keys_named (heap : Heap) (registry : Dict.dict ref) : Prop :=
  ∀ key r, Dict.get registry key = Some r → key ∈ names (deref heap r).

(** An iteration order for sets: every element once. *)
Definition iter_valid (iter : gset ref → list ref) : Prop :=
  ∀ X, iter X ≡ₚ elements X.

(** Some other recipe of [X] has a dependency that [p] answers to. *)
Definition wanted (heap : Heap) (X : gset ref) (p : ref) : Prop :=
  set_Exists (fun q => q ≠ p ∧ depends_on (deref heap q) (deref heap p) = true) X.

#[global] Instance wanted_dec heap X p : Decision (wanted heap X p).
Proof. unfold wanted. apply _. Defined.

(** The recipes one pass over [X] moves a level down. *)
Definition movers (heap : Heap) (X : gset ref) : gset ref :=
  filter (wanted heap X) X.

(** Every dependency of [p] is a visited name or unknown to the registry. *)
Definition closed_pkg (heap : Heap) (registry : Dict.dict ref) (v : Visited) (p : ref) : Prop :=
  ∀ d, d ∈ depends (deref heap p) → d ∈ visited_names v ∨ Dict.get registry d = None.

(** Levels from shallow to deep: no recipe of a later (deeper) level has
    a dependency that a different recipe of an earlier level answers to. *)
Definition ordered (heap : Heap) (levels : list (gset ref)) : Prop :=
  ∀ b b' Lb Lb' p q,
    b < b' → levels !! b = Some Lb → levels !! b' = Some Lb' →
    p ∈ Lb → q ∈ Lb' → q ≠ p → depends_on (deref heap q) (deref heap p) = false.

Definition pairwise_disjoint (levels : list (gset ref)) : Prop :=
  ∀ b b' Lb Lb',
    b ≠ b' → levels !! b = Some Lb → levels !! b' = Some Lb' → Lb ## Lb'.

(** A build plan is topologically correct: no recipe of an earlier level
    has a dependency that the registry resolves to a recipe of a later
    level. *)
Definition topological (heap : Heap) (registry : Dict.dict ref)
    (plan : list (gset ref)) : Prop :=
  ∀ i j Li Lj q p d,
    i < j → plan !! i = Some Li → plan !! j = Some Lj →
    q ∈ Li → p ∈ Lj → d ∈ depends (deref heap q) →
    Dict.get registry d ≠ Some p.

(** What holds of the solver's state at the head of every pass of its
    loop: the list of levels ends with the current and the next level,
    every recipe in it has only visited or unknown dependencies, and the
    levels are disjoint and ordered. *)
Definition loop_inv (heap : Heap) (registry : Dict.dict ref) (level : nat)
    (st : Levels) : Prop :=
  ∃ pre cur nxt,
    dep_levels st = pre ++ [cur; nxt] ∧ length pre = level ∧
    (∀ L p, L ∈ dep_levels st → p ∈ L → closed_pkg heap registry (seen st) p) ∧
    ordered heap (dep_levels st) ∧ pairwise_disjoint (dep_levels st).

(** From [st] to [st'] level 0 and the visited names only grew, and the
    recipes that joined level 0 have only visited or unknown
    dependencies. *)
Definition grows (heap : Heap) (registry : Dict.dict ref) (st st' : Levels) : Prop :=
  ∃ A A' B,
    dep_levels st = [A; B] ∧ dep_levels st' = [A'; B] ∧ A ⊆ A' ∧
    visited_names (seen st) ⊆ visited_names (seen st') ∧
    ∀ p, p ∈ A' → p ∈ A ∨ closed_pkg heap registry (seen st') p.

(** The state while the requested recipes are put on level 0. *)
Definition level0_closed (heap : Heap) (registry : Dict.dict ref) (st : Levels) : Prop :=
  ∃ A, dep_levels st = [A; ∅] ∧ ∀ p, p ∈ A → closed_pkg heap registry (seen st) p.

End ChainSpec.

(** * Vocabulary for the statements about publishing *)

Module PublishSpec.
Import PyStr Packages.

(** The two suffix tests of [add_package_to_repo]. *)
Definition is_artifact (file : string) : bool :=
  endswith (strip_compression_extension file) ".pkg.tar".
Definition is_any_arch (file : string) : bool :=
  endswith (strip_compression_extension file) "any.pkg.tar".

Section Paths.

Variable env : Env.
Variable repo_name : string.

(** Where an artifact lies in the repo of an arch. *)
Definition repo_path (a : Arch) (file : string) : string :=
  join (config_get_package_dir env a) [repo_name; file].

(** The index files [add_file_to_repo] rewrites for an arch. *)
Definition db_paths (a : Arch) : list string :=
  let repo_dir := join (config_get_package_dir env a) [repo_name] in
  flat_map (fun ext =>
              let file := join repo_dir [repo_name +:+ "." +:+ ext] in
              [file; file +:+ ".tar.xz"; file +:+ ".tar.xz.old"])
           ["db"; "files"].

(** The cached copy [add_file_to_repo] removes. *)
Definition cache_path (a : Arch) (file : string) : string :=
  join (join (config_get_path env "pacman") [a]) [file].

(** The paths that hold artifacts while a recipe is published: the build
    directory and the repo of every arch. *)
Definition artifact_paths (pkgbuild_dir : string) (archs : list Arch)
    (arts : list string) : list string :=
  ((fun file => join pkgbuild_dir [file]) <$> arts) ++
  flat_map (fun a => repo_path a <$> arts) archs.

(** Where the fan-out of [file] writes: its place in the repo of every
    arch of [arches] other than [arch]. *)
Definition fanout_targets (arch : Arch) (arches : list Arch) (file : string) : list string :=
  (fun a => repo_path a file) <$> filter (fun a => a ≠ arch) arches.

(** The [repo-add] run that enters [file] into the index of [a], and the
    runs that publishing the entry [file] for [arch] starts, in their
    order. *)
Definition index_cmd (a : Arch) (file : string) : list string :=
  repo_add_cmd (join (config_get_package_dir env a) [repo_name]) repo_name (repo_path a file).

Definition published_cmds (arch : Arch) (file : string) : list (list string) :=
  if is_artifact file
  then index_cmd arch file ::
       (if is_any_arch file
        then (fun a => index_cmd a file) <$> filter (fun a => a ≠ arch) (ARCHES env)
        else [])
  else [].

Definition scratch_paths (archs : list Arch) (arts : list string) : list string :=
  flat_map (fun a => db_paths a ++ (cache_path a <$> arts)) archs.

(** The installation keeps its directories apart: the artifact paths of
    the entries differ from one another and from the index and cache
    paths, and joining a directory with an entry keeps the entry as the
    last component. *)
Record layout_ok (pkgbuild_dir : string) (arch : Arch) (entries : list string) : Prop := {
  artifact_paths_NoDup :
    NoDup (artifact_paths pkgbuild_dir (remove_dups (arch :: ARCHES env))
             (List.filter is_artifact entries));
  scratch_apart :
    Forall (fun p => p ∉ artifact_paths pkgbuild_dir (remove_dups (arch :: ARCHES env))
                          (List.filter is_artifact entries))
           (scratch_paths (remove_dups (arch :: ARCHES env))
              (List.filter is_artifact entries));
  basename_src :
    Forall (fun file => basename (join pkgbuild_dir [file]) = file)
           (List.filter is_artifact entries);
  basename_repo :
    Forall (fun a => Forall (fun file => basename (repo_path a file) = file)
                            (List.filter is_artifact entries))
           (remove_dups (arch :: ARCHES env));
}.

(** [repo-add], run on the index of one of the arches, leaves the
    artifacts alone. *)
Definition repo_add_keeps (archs : list Arch) (protected : list string) : Prop :=
  ∀ a target files p,
    a ∈ archs → p ∈ protected →
    (subprocess_run env None
       (repo_add_cmd (join (config_get_package_dir env a) [repo_name]) repo_name target)
       files).2 !! p = files !! p.

End Paths.

(** What a step leaves as it was: every path outside [touched], the
    commands and the build log. *)
Definition quiet (touched : list string) (w w' : World) : Prop :=
  (∀ p, p ∉ touched → files w' !! p = files w !! p) ∧
  cmds w' = cmds w ∧ builds w' = builds w.

(** [os.listdir] lists every entry once. *)
Definition listdir_valid (env : Env) : Prop :=
  ∀ l, listdir_order env l ≡ₚ l.

End PublishSpec.

(** * Vocabulary for further statements about the solver *)

Module PlanSpec.
Import PyStr Packages ChainSpec.

(** The recipes of a plan. *)
Definition planned (plan : list (gset ref)) : gset ref := ⋃ plan.

(** What the passes still to come are counted by: [a] recipes on the
    current level, [b] on the next one. *)
Definition passes_left (a b : nat) : nat := (a + b) * (a + b + 1) + a.

(** Passes that are enough when [n] recipes are at hand. *)
Definition fuel_bound (n : nat) : nat := n * n + 2 * n.

(** The counter of unchanged passes at the head of a pass over the level
    [X]: [_last_level] is [X] itself after a pass that changed the level,
    or an earlier, non-empty level. *)
Definition repeat_ok (repeat_count : nat) (_last_level : option (gset ref))
    (X : gset ref) : Prop :=
  match _last_level with
  | None => repeat_count = 0
  | Some Y => (Y = X ∧ repeat_count = 0) ∨ (Y ≠ ∅ ∧ Y ## X ∧ repeat_count ≤ 1)
  end.

(** The state while level 0 is filled: level 0 holds the recipes of
    [R], lies within [T], and every visited name is a name of a recipe
    on it. *)
Definition init_inv (heap : Heap) (R T : gset ref) (st : Levels) : Prop :=
  ∃ A, dep_levels st = [A; ∅] ∧ R ⊆ A ∧ A ⊆ T ∧
       ∀ d, d ∈ visited_names (seen st) → ∃ q, q ∈ A ∧ d ∈ names (deref heap q).

(** The solver ends in one of these ways only. *)
Definition ends_well {A} (r : Py.result A) : Prop :=
  (∃ a, r = Py.Ok a) ∨ r = Py.Raise Py.RecursionError ∨
  r = Py.Raise (Py.Exception
        "Dependency chain reached 100 levels depth, this is probably a bug. Aborting!").

End PlanSpec.

(** * Vocabulary for the statements about dependants *)

Module DependantSpec.
Import PyStr Packages.

(** [r] is a recipe of the registry that depends, directly or through
    other recipes of the registry, on the [name] of a recipe of
    [packages]. *)
Inductive name_dependant (heap : Heap) (repo : Dict.dict ref) (packages : list ref)
    : ref → Prop :=
| nd_direct r p :
    r ∈ Dict.values repo → p ∈ packages →
    name (deref heap p) ∈ depends (deref heap r) →
    name_dependant heap repo packages r
| nd_step r p :
    r ∈ Dict.values repo → name_dependant heap repo packages p →
    name (deref heap p) ∈ depends (deref heap r) →
    name_dependant heap repo packages r.

(** Every recipe of [C] is in the registry and has a dependant, by name,
    in [C]. *)
Definition dependant_cycle (heap : Heap) (repo : Dict.dict ref) (C : gset ref) : Prop :=
  ∀ c, c ∈ C →
    c ∈ Dict.values repo ∧
    ∃ c', c' ∈ C ∧ name (deref heap c) ∈ depends (deref heap c').

End DependantSpec.

(** * Vocabulary for the statements about local dependencies *)

Module LocalDependsSpec.
Import PyStr Packages.

(** The dependencies of [p] that discovery keeps in [local_depends]:
    those that are a key of the registry or a name of a recipe in it. *)
Definition resolvable_depends (results : list Pkgbuild) (registry : Dict.dict ref)
    (p : Pkgbuild) : list string :=
  List.filter (found results registry) (depends p).

(** A store that holds the parsed recipes up to [local_depends]. *)
Definition same_but_local (results heap : list Pkgbuild) : Prop :=
  length heap = length results ∧
  ∀ j q, results !! j = Some q → ∃ l, heap !! j = Some (set_local_depends q l).

End LocalDependsSpec.

(** * Further examples *)

Module MoreExamples.
Import PyStr Packages Recipes.

(** The recipe libfoo after its build for x86_64: one artifact of that
    arch lies in the directory of the recipe. *)
Definition built_libfoo_world : World :=
  {| files := {[ "/var/pkgbuilds/main/libfoo/PKGBUILD" := "pkgname=libfoo";
                 "/var/pkgbuilds/main/libfoo/libfoo-1.0-1-x86_64.pkg.tar.zst" := "built libfoo" ]};
     cmds := []; builds := [] |}.

Definition published_libfoo_world : World :=
  match add_package_to_repo example_env libfoo "x86_64" built_libfoo_world with
  | Py.Ok (_, w) => w
  | _ => empty_world
  end.

End MoreExamples.

(** * Vocabulary for the statements about the local repos *)

Module PrebuiltsSpec.
Import PyStr Packages.

(** The index files of a repo, in the order [init_prebuilts] looks at
    them, and the index files of all repos of an arch. *)
Definition index_names (repo : string) : list string :=
  flat_map (fun ext1 => (fun ext2 => repo +:+ "." +:+ ext1 +:+ ext2) <$> [""; ".tar.xz"])
           ["db"; "files"].

Definition index_files (env : Env) (arch : Arch) : list string :=
  flat_map (fun repo => (fun file => join (config_get_package_dir env arch) [repo; file])
                          <$> index_names repo)
           (REPOSITORIES env).

Definition tar_cmd (file : string) : list string :=
  ["tar"; "-czf"; file; "-T"; "/dev/null"].

(** [tar -czf file -T /dev/null] succeeds, leaves [file] in its working
    directory and removes nothing. *)
Definition tar_works (env : Env) : Prop :=
  ∀ cwd file fs,
    (subprocess_run env (Some cwd) (tar_cmd file) fs).1 = 0%Z ∧
    is_Some ((subprocess_run env (Some cwd) (tar_cmd file) fs).2 !! join cwd [file]) ∧
    ∀ p, is_Some (fs !! p) → is_Some ((subprocess_run env (Some cwd) (tar_cmd file) fs).2 !! p).

(** No file is lost from [w] to [w'], and nothing is built. *)
Definition keeps_files (w w' : World) : Prop :=
  (∀ p, is_Some (files w !! p) → is_Some (files w' !! p)) ∧ builds w' = builds w.

(** The example installation after [init_prebuilts] for x86_64. *)
Definition initialised_world : World :=
  match init_prebuilts Recipes.example_env "x86_64" Recipes.empty_world with
  | Py.Ok (_, w) => w
  | _ => Recipes.empty_world
  end.

End PrebuiltsSpec.

(** * Vocabulary for the statements about file names *)

Module NameSpec.

(** The compression extensions [strip_compression_extension] knows. *)
Definition compression_extensions : list string := ["zst"; "xz"; "gz"; "bz2"].

End NameSpec.

(** * Vocabulary for the statements about the freshness check *)

Module FreshnessSpec.
Import PyStr Packages PublishSpec.

(** The file in the repo of [arch] that a line of the package list
    stands for. *)
Definition line_file (env : Env) (package : Pkgbuild) (arch : Arch) (line : string)
    : string :=
  join (config_get_package_dir env arch) [repo package; basename line].

(** A line the check passes over: an empty one, or one whose file is no
    artifact. *)
Definition skipped (env : Env) (package : Pkgbuild) (arch : Arch) (line : string) : Prop :=
  line = "" ∨ is_artifact (line_file env package arch line) = false.

(** The lines of the package list. *)
Definition package_lines (stdout : string) : list string := split "
" stdout.

End FreshnessSpec.

Module FreshnessExamples.
Import PyStr Packages Recipes.

(** An installation whose package list names a text file only. *)
Definition notes_env : Env :=
  {| ARCHES := ARCHES example_env;
     REPOSITORIES := REPOSITORIES example_env;
     config_runtime_arch := config_runtime_arch example_env;
     config_get_path := config_get_path example_env;
     config_get_package_dir := config_get_package_dir example_env;
     subprocess_run := subprocess_run example_env;
     makepkg_packagelist := fun p arch files =>
       (files, 0%Z, "/var/pkgbuilds/main/tool/notes.txt
");
     makepkg_build := makepkg_build example_env;
     listdir_order := listdir_order example_env |}.

(** The world after the check of libfoo where its first artifact is in
    the repo. *)
Definition checked_split_world : World :=
  match check_package_version_built split_env libfoo "x86_64" false split_world with
  | Py.Ok (_, w) => w
  | _ => empty_world
  end.

End FreshnessExamples.

(** * Vocabulary for the statements about the build log *)

Module BuildSpec.
Import PyStr Packages.

(** A step that, when it succeeds, has built nothing. *)
Definition builds_nothing {A} (m : M A) : Prop :=
  ∀ w a w', m w = Ok (a, w') → builds w' = builds w.

(** The outcome of a forced build of the recipe a of the alias
    example on the empty world. *)
Definition alias_build : Py.result (option (list string) * World) :=
  build_packages Recipes.example_env elements (Recipes.heap_of Recipes.alias_recipes)
    (Recipes.registry_of Recipes.alias_recipes) 1000 1000 [0; 0] "x86_64" true false false
    Recipes.empty_world.

Definition alias_build_files : option (list string) :=
  match alias_build with Py.Ok (r, _) => r | _ => None end.

Definition alias_build_world : World :=
  match alias_build with Py.Ok (_, w) => w | _ => Recipes.empty_world end.

End BuildSpec.

(** * Vocabulary for the statements about the levels to build *)

Module UnbuiltSpec.
Import PyStr Packages.

(** A recipe that is built without asking whether it is built already. *)
Definition forced (packages : list ref) (dependants : gset ref)
    (force rebuild_dependants : bool) (package : ref) : bool :=
  (force && bool_decide (package ∈ packages))
  || (rebuild_dependants && bool_decide (package ∈ dependants)).

(** The levels of the chain of three recipes, dependencies first. *)
Definition chain_levels : list (gset ref) := [{[2]}; {[1]}; {[0]}].

End UnbuiltSpec.

(** * Vocabulary for the statements about desc files *)

Module DescSpec.
Import PyStr Distro.

Definition newline : string := "
".

(** One field of a desc file as pacman writes it: the key between percent
    signs on a line of its own, the value below it, then an empty line. *)
Definition desc_field (field : string * string) : string :=
  "%" +:+ field.1 +:+ "%" +:+ newline +:+ field.2 +:+ newline +:+ newline.

Definition desc_file (fields : list (string * string)) : string :=
  foldr (fun field rest => desc_field field +:+ rest) "" fields.

(** A key or value that is not blank, has no white space at its ends and
    holds no percent sign. *)
Definition clean (s : string) : Prop :=
  s ≠ "" ∧ strip s = s ∧ contains s "%" = false.

Definition zlib_fields : list (string * string) :=
  [("FILENAME", "zlib-1.3-1-aarch64.pkg.tar.zst"); ("NAME", "zlib"); ("VERSION", "1.3-1")].

End DescSpec.

(** * Vocabulary for the statements about scanning *)

Module ScanSpec.
Import PyStr Distro Examples.

(** [self.packages[pkg.name] = pkg] *)
Definition put (packages : gmap string PackageInfo) (pkg : PackageInfo)
    : gmap string PackageInfo :=
  <[pi_name pkg := pkg]> packages.

Definition zlib_index : list TarMember :=
  [ {| member_name := "zlib-1.3-1/desc"; member_data := desc_zlib |} ].

Definition bash_index : list TarMember :=
  [ {| member_name := "bash-5.2-1/desc"; member_data := desc_bash |} ].

(** The example repository after a scan of each index. *)
Definition scanned_with (index : list TarMember) (self : Repo) : Repo :=
  match scan "x86_64" index self with
  | Ok r => r
  | _ => self
  end.

Definition scanned_zlib : Repo := scanned_with zlib_index main_repo.

Definition scanned_zlib_bash : Repo := scanned_with bash_index scanned_zlib.

End ScanSpec.

(** * Vocabulary for the statements about kupfer's own distro *)

Module KupferSpec.
Import PyStr Distro.

Definition kupfer_url : string := "https://kupfer.example/$arch/$repo".

(** The distro [get_kupfer] builds for one repository, from a class
    attribute that is still empty. *)
Definition kupfer_main : Distro :=
  {| distro_arch := "aarch64";
     repos := [("main", Repo_init "main" kupfer_url "aarch64"
                          (dict_update ∅ {["SigLevel" := "Never"]}))] |}.

End KupferSpec.

(** * Vocabulary for the statements about URL templates *)

Module TemplateSpec.
Import PyStr Distro.

(** A URL template in pieces: plain text and the two placeholders. *)
Inductive piece :=
  | Text (s : string)
  | RepoVar
  | ArchVar.

Definition template_of (pieces : list piece) : string :=
  foldr (fun p rest =>
           match p with
           | Text s => s +:+ rest
           | RepoVar => "$repo" +:+ rest
           | ArchVar => "$arch" +:+ rest
           end) "" pieces.

(** The template with a repository name and an architecture in the
    places of the placeholders. *)
Definition filled (repo_name arch : string) (pieces : list piece) : string :=
  foldr (fun p rest =>
           match p with
           | Text s => s +:+ rest
           | RepoVar => repo_name +:+ rest
           | ArchVar => arch +:+ rest
           end) "" pieces.

Definition dollar_free (s : string) : Prop := contains s "$" = false.

Definition plain (p : piece) : Prop :=
  match p with
  | Text s => dollar_free s
  | _ => True
  end.

(** The template of the local repositories, for the directory
    [/prebuilts]. *)
Definition local_template : list piece :=
  [Text "file:///prebuilts/"; ArchVar; Text "/"; RepoVar].

End TemplateSpec.

(** * Facts about distro.py *)

Module DistroFacts.
Import PyStr Distro Examples DistroSpec.

Lemma getitem_ok desc key :
  is_Some (desc !! key) → ∃ v, getitem desc key = Ok v.
Proof. intros [v Hv]. exists v. unfold getitem. by rewrite Hv. Qed.

Lemma getitem_raise desc key :
  desc !! key = None → getitem desc key = Raise (KeyError key).
Proof. intros H. unfold getitem. by rewrite H. Qed.

Lemma parse_desc_recovers desc_str url :
  recovers desc_str → ∃ pkg, parse_desc desc_str url = Ok pkg.
Proof.
  intros H. unfold parse_desc.
  destruct (getitem_ok (desc_dict (pruned_lines desc_str)) "NAME") as [n ->];
    [apply H; unfold required_keys; set_solver|].
  destruct (getitem_ok (desc_dict (pruned_lines desc_str)) "VERSION") as [v ->];
    [apply H; unfold required_keys; set_solver|].
  destruct (getitem_ok (desc_dict (pruned_lines desc_str)) "FILENAME") as [f ->];
    [apply H; unfold required_keys; set_solver|].
  simpl. eauto.
Qed.

Lemma parse_desc_malformed desc_str url :
  ¬ recovers desc_str →
  ∃ key, key ∈ required_keys ∧ parse_desc desc_str url = Raise (KeyError key).
Proof.
  intros H. unfold parse_desc.
  set (desc := desc_dict (pruned_lines desc_str)) in *.
  destruct (desc !! "NAME") as [n|] eqn:Hn; last first.
  { exists "NAME". split; [unfold required_keys; set_solver|].
    by rewrite (getitem_raise _ _ Hn). }
  destruct (desc !! "VERSION") as [v|] eqn:Hv; last first.
  { exists "VERSION". split; [unfold required_keys; set_solver|].
    unfold getitem. by rewrite Hn, Hv. }
  destruct (desc !! "FILENAME") as [f|] eqn:Hf; last first.
  { exists "FILENAME". split; [unfold required_keys; set_solver|].
    unfold getitem. by rewrite Hn, Hv, Hf. }
  exfalso. apply H. intros key Hkey. unfold required_keys in Hkey.
  fold desc.
  apply elem_of_cons in Hkey as [->|Hkey]; [by rewrite Hn|].
  apply elem_of_cons in Hkey as [->|Hkey]; [by rewrite Hv|].
  apply elem_of_cons in Hkey as [->|Hkey]; [by rewrite Hf|].
  by apply elem_of_nil in Hkey.
Qed.

Lemma scan_members_app_raise url pre bad post pkgs e :
  (∀ m, m ∈ pre → basename (member_name m) = "desc" →
        ∃ pkg, parse_desc (member_data m) (Some url) = Ok pkg) →
  basename (member_name bad) = "desc" →
  parse_desc (member_data bad) (Some url) = Raise e →
  scan_members url (pre ++ bad :: post) pkgs = Raise e.
Proof.
  intros Hpre Hbad Hraise. revert pkgs.
  induction pre as [|m pre IH]; intros pkgs; simpl.
  - rewrite Hbad. simpl. by rewrite Hraise.
  - destruct (String.eqb (basename (member_name m)) "desc") eqn:Hm.
    + apply String.eqb_eq in Hm.
      destruct (Hpre m) as [pkg Hpkg]; [set_solver|done|].
      rewrite Hpkg. simpl. apply IH. intros m' Hm'. apply Hpre. set_solver.
    + apply IH. intros m' Hm'. apply Hpre. set_solver.
Qed.


Lemma recovers_zlib : recovers desc_zlib.
Proof.
  intros key Hkey. unfold required_keys in Hkey.
  repeat (apply elem_of_cons in Hkey as [->|Hkey]; [by vm_compute; eauto|]).
  by apply elem_of_nil in Hkey.
Qed.

Lemma not_recovers_broken : ¬ recovers desc_broken.
Proof.
  intros H. destruct (H "VERSION") as [v Hv]; [unfold required_keys; set_solver|].
  vm_compute in Hv. discriminate.
Qed.



(** [resolve_url] never looks at its [arch] argument. *)
Lemma resolve_url_arch_unused host template repo_name arch1 arch2 :
  resolve_url host template repo_name arch1 = resolve_url host template repo_name arch2.
Proof. reflexivity. Qed.

(** C6 at a failing input: on an x86_64 host, the URL of a repo built for
    aarch64 is resolved with x86_64 in place of [$arch], both in
    [resolve_url] and in the [resolved_url] that [Repo.scan] stores. *)
Theorem resolve_url_takes_host_arch :
  resolve_url "x86_64" "https://mirror.example/$arch/$repo" "main" "aarch64"
    = "https://mirror.example/x86_64/main" ∧
  arch main_repo = "aarch64" ∧
  ∃ scanned_repo, scan "x86_64" [] main_repo = Ok scanned_repo ∧
                  resolved_url scanned_repo = Some "file:///prebuilts/x86_64/main".
Proof. split; [reflexivity|]. split; [reflexivity|]. eexists. split; reflexivity. Qed.

(** What a plain [RepoInfo] shows as its options after another one is
    constructed: the new options laid over the old ones. *)
Lemma RepoInfo_init_leaks url options cls (earlier : RepoInfo) :
  own_options earlier = None →
  get_options (RepoInfo_init url options cls).2 earlier
  = dict_update (get_options cls earlier) options.
Proof. intros H. unfold get_options. rewrite H. reflexivity. Qed.

(** C10 at a failing input: the options read through the first
    [RepoInfo] change when a second one is constructed with options of
    its own. *)
Theorem RepoInfo_options_are_shared :
  let cls0 := {| RepoInfo_options := ∅ |} in
  let first := RepoInfo_init "https://a.example/$repo" {["SigLevel" := "Never"]} cls0 in
  let second := RepoInfo_init "https://b.example/$repo" {["SigLevel" := "Required"]} first.2 in
  get_options first.2 first.1 !! "SigLevel" = Some "Never" ∧
  get_options second.2 first.1 !! "SigLevel" = Some "Required".
Proof. split; reflexivity. Qed.

(** The same defect through the module's own constructors: once
    [get_kupfer] has run, the repos of [get_base_distro], whose
    [RepoInfo]s are built without options, carry [SigLevel = Never]. *)
Lemma base_distro_inherits_kupfer_options :
  let arches := ["x86_64"; "aarch64"] in
  let cls0 := {| RepoInfo_options := ∅ |} in
  let kupfer := get_kupfer arches ["main"] "aarch64" "https://kupfer.example/$arch/$repo" cls0 in
  let base := get_base_distro arches [("core", "http://mirror.example/$arch/$repo")]
                "aarch64" kupfer.2 in
  ∃ distro core, base.1 = Ok distro ∧ Dict.get (repos distro) "core" = Some core ∧
                 options core !! "SigLevel" = Some "Never".
Proof. do 2 eexists. split; [reflexivity|]. split; reflexivity. Qed.

(** [Repo.__init__] copies: the options of a [Repo] are its own. *)
Lemma Repo_init_options_own n url a o :
  options (Repo_init n url a o) = o.
Proof. reflexivity. Qed.

End DistroFacts.

(** * Facts about insertion-ordered dictionaries *)

Module DictFacts.
Import Dict RegistrySpec.

Lemma get_set {V} (d : dict V) k v k' :
  get (set d k v) k' = if String.eqb k' k then Some v else get d k'.
Proof.
  induction d as [|[k0 v0] d IH]; simpl.
  - reflexivity.
  - destruct (String.eqb k k0) eqn:Hk; simpl.
    + apply String.eqb_eq in Hk as <-.
      destruct (String.eqb k' k); reflexivity.
    + destruct (String.eqb k' k0) eqn:Hk0.
      * apply String.eqb_eq in Hk0 as ->.
        rewrite String.eqb_sym, Hk. reflexivity.
      * exact IH.
Qed.

Lemma get_set_eq {V} (d : dict V) k v : get (set d k v) k = Some v.
Proof. rewrite get_set. by rewrite String.eqb_refl. Qed.

Lemma get_set_ne {V} (d : dict V) k v k' : k' ≠ k → get (set d k v) k' = get d k'.
Proof.
  intros H. rewrite get_set. destruct (String.eqb k' k) eqn:E; [|done].
  by apply String.eqb_eq in E.
Qed.

Lemma get_None {V} (d : dict V) k : get d k = None ↔ k ∉ keys d.
Proof.
  unfold keys. induction d as [|[k0 v0] d IH]; simpl.
  - split; [intros _; apply not_elem_of_nil | done].
  - destruct (String.eqb k k0) eqn:E.
    + apply String.eqb_eq in E as ->. split; [done|]. intros H. exfalso. apply H. left.
    + rewrite IH. rewrite not_elem_of_cons. split; [|tauto].
      intros H. split; [|done]. intros ->. by rewrite String.eqb_refl in E.
Qed.

Lemma keys_set {V} (d : dict V) k v :
  keys (set d k v) = if mem d k then keys d else keys d ++ [k].
Proof.
  unfold mem, keys. induction d as [|[k0 v0] d IH]; csimpl.
  - reflexivity.
  - destruct (String.eqb k k0) eqn:E; csimpl.
    + apply String.eqb_eq in E as ->. reflexivity.
    + rewrite IH. destruct (get d k); reflexivity.
Qed.

Lemma NoDup_keys_set {V} (d : dict V) k v :
  NoDup (keys d) → NoDup (keys (set d k v)).
Proof.
  intros H. rewrite keys_set. unfold mem.
  destruct (get d k) eqn:E; [done|].
  apply NoDup_app. split; [done|]. split.
  - intros x Hx Hx'. apply list_elem_of_singleton in Hx' as ->.
    by apply get_None in E.
  - apply NoDup_singleton.
Qed.

Lemma get_Some_values {V} (d : dict V) k v : get d k = Some v → v ∈ values d.
Proof.
  unfold values. induction d as [|[k0 v0] d IH]; simpl; [done|].
  destruct (String.eqb k k0).
  - intros [= ->]. left.
  - intros H. right. by apply IH.
Qed.

Lemma values_get {V} (d : dict V) v :
  NoDup (keys d) → v ∈ values d → ∃ k, get d k = Some v.
Proof.
  unfold values, keys. induction d as [|[k0 v0] d IH]; simpl.
  - intros _ H. by apply elem_of_nil in H.
  - intros Hnd H. apply NoDup_cons in Hnd as [Hk0 Hnd].
    apply elem_of_cons in H as [->|H].
    + exists k0. by rewrite String.eqb_refl.
    + destruct (IH Hnd H) as [k Hk]. exists k.
      destruct (String.eqb k k0) eqn:E; [|done].
      apply String.eqb_eq in E as ->.
      exfalso. apply Hk0. change (k0 ∈ keys d).
      destruct (decide (k0 ∈ keys d)) as [|Hn]; [done|].
      apply get_None in Hn. congruence.
Qed.

Lemma filter_ext_in {A} (P Q : A → Prop) `{∀ x, Decision (P x)} `{∀ x, Decision (Q x)}
    (l : list A) :
  (∀ x, x ∈ l → P x ↔ Q x) → filter P l = filter Q l.
Proof.
  induction l as [|x l IH]; intros Hl; [done|].
  rewrite !filter_cons. rewrite IH by (intros y Hy; apply Hl; by right).
  destruct (decide (P x)) as [HP|HP], (decide (Q x)) as [HQ|HQ]; try done.
  - exfalso. apply HQ, Hl; [left|done].
  - exfalso. apply HP, Hl; [left|done].
Qed.

Lemma key_count_values `{EqDecision V} (d : dict V) (v : V) :
  NoDup (keys d) → key_count d v = occurrences v (values d).
Proof.
  unfold key_count, occurrences, keys, values.
  induction d as [|[k0 v0] d IH]; csimpl; [done|].
  intros Hnd. apply NoDup_cons in Hnd as [Hk0 Hnd].
  assert (filter (λ k, (if String.eqb k k0 then Some v0 else get d k) = Some v) d.*1
          = filter (λ k, get d k = Some v) d.*1) as Hfilter.
  { apply filter_ext_in. intros k Hk.
    destruct (String.eqb k k0) eqn:E; [|done].
    apply String.eqb_eq in E as ->. done. }
  rewrite !filter_cons. rewrite String.eqb_refl, Hfilter.
  destruct (decide (Some v0 = Some v)) as [[= ->]|Hne].
  - rewrite decide_True by done. simpl. by rewrite IH.
  - rewrite decide_False by congruence. by apply IH.
Qed.

End DictFacts.

(** * Facts about recipe discovery *)

Module DiscoverFacts.
Import PyStr Packages RegistrySpec DictFacts.

Lemma register_name_fold_fst pn i ns d log :
  (fold_left (register_name pn i) ns (d, log)).1
  = fold_left (fun d n => Dict.set d n i) ns d.
Proof.
  revert d log. induction ns as [|n ns IH]; intros d log; [done|].
  simpl. destruct (Dict.mem d n); apply IH.
Qed.

Lemma get_fold_set (i : ref) ns d k :
  Dict.get (fold_left (fun d n => Dict.set d n i) ns d) k
  = if bool_decide (k ∈ ns) then Some i else Dict.get d k.
Proof.
  revert d. induction ns as [|n ns IH]; intros d; [done|].
  simpl. rewrite IH. rewrite get_set.
  destruct (String.eqb k n) eqn:E.
  - apply String.eqb_eq in E as ->.
    rewrite (bool_decide_eq_true_2 (n ∈ n :: ns)) by left.
    by destruct (bool_decide (n ∈ ns)).
  - assert (k ≠ n) as Hne by (intros ->; by rewrite String.eqb_refl in E).
    destruct (bool_decide (k ∈ ns)) eqn:Hin.
    + apply bool_decide_eq_true in Hin.
      by rewrite (bool_decide_eq_true_2 (k ∈ n :: ns)) by (by right).
    + apply bool_decide_eq_false in Hin.
      rewrite (bool_decide_eq_false_2 (k ∈ n :: ns)); [done|].
      rewrite elem_of_cons. tauto.
Qed.

Lemma get_register acc i p k :
  Dict.get (register acc (i, p)).1 k
  = if bool_decide (k ∈ owner_keys p) then Some i else Dict.get acc.1 k.
Proof.
  destruct acc as [d log]. unfold register.
  rewrite register_name_fold_fst. apply get_fold_set.
Qed.

Lemma build_dictionary_snoc results p :
  build_dictionary (results ++ [p])
  = register (build_dictionary results) (length results, p).
Proof.
  unfold build_dictionary.
  rewrite length_app. simpl. rewrite seq_app. simpl.
  rewrite zip_with_app by (by rewrite length_seq).
  rewrite fold_left_app. reflexivity.
Qed.

(** The registry maps a key to the last parsed recipe that has it as
    its name or among its [replaces]. *)
Lemma build_dictionary_get results n i :
  Dict.get (build_dictionary results).1 n = Some i ↔
  ∃ p, results !! i = Some p ∧ n ∈ owner_keys p ∧
       ∀ j q, i < j → results !! j = Some q → n ∉ owner_keys q.
Proof.
  revert i. induction results as [|p results IH] using rev_ind; intros i.
  - simpl. split; [done|]. by intros (p & Hp & _).
  - rewrite build_dictionary_snoc, get_register.
    destruct (bool_decide (n ∈ owner_keys p)) eqn:Hn.
    + apply bool_decide_eq_true in Hn. split.
      * intros [= <-]. exists p. split; [by apply list_lookup_middle|].
        split; [done|]. intros j q Hj Hq.
        apply lookup_lt_Some in Hq. rewrite length_app in Hq. simpl in Hq. lia.
      * intros (p0 & Hp0 & Hn0 & Hlast).
        destruct (decide (i = length results)) as [->|Hi]; [done|].
        exfalso. apply (Hlast (length results) p); [|by apply list_lookup_middle|done].
        apply lookup_lt_Some in Hp0. rewrite length_app in Hp0. simpl in Hp0. lia.
    + apply bool_decide_eq_false in Hn. rewrite IH. split.
      * intros (p0 & Hp0 & Hn0 & Hlast). exists p0.
        split; [by apply lookup_app_l_Some|]. split; [done|].
        intros j q Hj Hq.
        destruct (decide (j = length results)) as [->|Hne].
        -- rewrite list_lookup_middle in Hq by done. by injection Hq as <-.
        -- apply (Hlast j q Hj).
           pose proof (lookup_lt_Some _ _ _ Hq) as Hlt.
           rewrite length_app in Hlt. simpl in Hlt.
           rewrite lookup_app_l in Hq by lia. done.
      * intros (p0 & Hp0 & Hn0 & Hlast).
        destruct (decide (i = length results)) as [->|Hi].
        { rewrite list_lookup_middle in Hp0 by done. by injection Hp0 as <-. }
        pose proof (lookup_lt_Some _ _ _ Hp0) as Hlt.
        rewrite length_app in Hlt. simpl in Hlt.
        rewrite lookup_app_l in Hp0 by lia.
        exists p0. split; [done|]. split; [done|].
        intros j q Hj Hq. apply (Hlast j q Hj). by apply lookup_app_l_Some.
Qed.

Lemma build_dictionary_NoDup results :
  NoDup (Dict.keys (build_dictionary results).1).
Proof.
  induction results as [|p results IH] using rev_ind.
  - apply NoDup_nil_2.
  - rewrite build_dictionary_snoc.
    destruct (build_dictionary results) as [d log]. unfold register.
    rewrite register_name_fold_fst. simpl in IH.
    generalize (name p :: replaces p).
    intros ns. revert d IH. induction ns as [|n ns IHns]; intros d Hd; [done|].
    simpl. apply IHns. by apply NoDup_keys_set.
Qed.

End DiscoverFacts.

Module RegistryFacts.
Import PyStr Packages RegistrySpec DictFacts DiscoverFacts Recipes ChainSpec.

Lemma set_local_depends_same p : set_local_depends p (local_depends p) = p.
Proof. by destruct p. Qed.

Lemma filter_local_depends_lookup packages heap package i p :
  heap !! i = Some p →
  ∃ l, filter_local_depends packages heap package !! i = Some (set_local_depends p l).
Proof.
  intros Hi. unfold filter_local_depends.
  destruct (decide (package = i)) as [->|Hne].
  - unfold deref. rewrite (list_lookup_total_correct _ _ _ Hi).
    eexists. apply list_lookup_insert_eq. by eapply lookup_lt_Some.
  - exists (local_depends p). rewrite list_lookup_insert_ne by done.
    by rewrite set_local_depends_same.
Qed.

Lemma local_depends_pass_lookup packages refs heap i p :
  heap !! i = Some p →
  ∃ l, fold_left (filter_local_depends packages) refs heap !! i
       = Some (set_local_depends p l).
Proof.
  revert heap p. induction refs as [|r refs IH]; intros heap p Hi.
  - exists (local_depends p). by rewrite set_local_depends_same.
  - simpl. destruct (filter_local_depends_lookup packages heap r i p Hi) as [l Hl].
    destruct (IH _ _ Hl) as [l' Hl']. exists l'. exact Hl'.
Qed.

Lemma discover_packages_spec results n i :
  let '(heap, registry, _) := discover_packages results in
  (Dict.get registry n = Some i ↔
     ∃ p, results !! i = Some p ∧ n ∈ name p :: replaces p ∧
          ∀ j q, i < j → results !! j = Some q → n ∉ name q :: replaces q) ∧
  (∀ p, results !! i = Some p → ∃ l, heap !! i = Some (set_local_depends p l)).
Proof.
  unfold discover_packages.
  pose proof (build_dictionary_get results n i) as Hget.
  destruct (build_dictionary results) as [packages log]. simpl in Hget.
  split; [exact Hget|].
  intros p Hp. by apply local_depends_pass_lookup.
Qed.

(** C4, as the code has it: a key of the registry leads to the last
    parsed recipe that has the key as its name or among its [replaces]
    (so a recipe is registered under its name and each of its [replaces]
    entries unless a recipe parsed later takes the key), and the object
    stored is the parsed recipe with [local_depends] filled in. *)
Theorem discover_packages_registers_name_and_replaces results n i :
  let '(heap, registry, _) := discover_packages results in
  (Dict.get registry n = Some i ↔
     ∃ p, results !! i = Some p ∧ n ∈ name p :: replaces p ∧
          ∀ j q, i < j → results !! j = Some q → n ∉ name q :: replaces q) ∧
  (∀ p, results !! i = Some p → ∃ l, heap !! i = Some (set_local_depends p l)).
Proof. exact (discover_packages_spec results n i). Qed.

(** C4 as stated fails twice: a name a recipe only provides is no key of
    the registry, and a name that a later recipe replaces leads to the
    later recipe. *)
Lemma provides_and_overridden_names_unregistered :
  (let '(heap, registry, _) := discover_packages provides_recipes in
   "foo" ∈ names (deref heap 1) ∧ Dict.get registry "foo" = None) ∧
  (let '(heap, registry, _) := discover_packages collision_recipes in
   "x" ∈ names (deref heap 0) ∧ Dict.get registry "x" = Some 1).
Proof.
  split; (split; [|reflexivity]); vm_compute; set_solver.
Qed.

Lemma discover_packages_keys_named results :
  let '(heap, registry, _) := discover_packages results in
  registry_keys_named heap registry.
Proof.
  pose proof (discover_packages_spec results) as H.
  destruct (discover_packages results) as [[heap registry] log].
  intros key r Hget.
  destruct (H key r) as [Hreg Hheap].
  apply Hreg in Hget as (p & Hp & Hkey & _).
  destruct (Hheap p Hp) as [l Hl].
  unfold deref. rewrite (list_lookup_total_correct _ _ _ Hl).
  unfold names. simpl.
  apply elem_of_cons in Hkey as [->|Hkey]; [left|].
  right. apply elem_of_app. by right.
Qed.

Lemma discover_packages_NoDup_keys results :
  NoDup (Dict.keys (discover_packages results).1.2).
Proof.
  unfold discover_packages.
  pose proof (build_dictionary_NoDup results) as H.
  by destruct (build_dictionary results).
Qed.

End RegistryFacts.

(** * Facts about the dependency solver *)

Module ChainFacts.
Import PyStr Packages RegistrySpec DictFacts ChainSpec.

Section Levels.

Variable heap : Heap.
Variable package_repo : Dict.dict ref.

Lemma lookup_shape (pre : list (gset ref)) a b i L :
  (pre ++ [a; b]) !! i = Some L →
  (pre !! i = Some L) ∨ (i = length pre ∧ L = a) ∨ (i = S (length pre) ∧ L = b).
Proof.
  intros H. apply lookup_app_Some in H as [H|[Hge H]]; [by left|right].
  destruct (i - length pre) as [|[|k]] eqn:E; simpl in H.
  - left. split; [lia|congruence].
  - right. split; [lia|congruence].
  - done.
Qed.

Lemma lookup_shape_cur (pre : list (gset ref)) a b :
  (pre ++ [a; b]) !! length pre = Some a.
Proof. by rewrite list_lookup_middle. Qed.

Lemma lookup_shape_nxt (pre : list (gset ref)) a b :
  (pre ++ [a; b]) !! S (length pre) = Some b.
Proof.
  rewrite lookup_app_r by lia.
  by replace (S (length pre) - length pre) with 1 by lia.
Qed.

Lemma movers_subseteq X : movers heap X ⊆ X.
Proof. unfold movers. intros x Hx. by apply elem_of_filter in Hx as [_ ?]. Qed.

Lemma not_mover X p q :
  p ∈ X → p ∉ movers heap X → q ∈ X → q ≠ p →
  depends_on (deref heap q) (deref heap p) = false.
Proof.
  intros Hp Hnm Hq Hne.
  destruct (depends_on (deref heap q) (deref heap p)) eqn:E; [|done].
  exfalso. apply Hnm. unfold movers. apply elem_of_filter. split; [|done].
  exists q. done.
Qed.

Lemma ordered_step pre X nxt :
  ordered heap (pre ++ [X; nxt]) →
  ordered heap (pre ++ [X ∖ movers heap X; movers heap X ∪ nxt]).
Proof.
  intros Hord b b' Lb Lb' p q Hlt Hb Hb' Hp Hq Hne.
  pose proof (movers_subseteq X) as Hsub.
  pose proof (lookup_shape_cur pre X nxt) as Hcur.
  pose proof (lookup_shape_nxt pre X nxt) as Hnxt.
  apply lookup_shape in Hb as [Hb|[[-> ->]|[-> ->]]];
    apply lookup_shape in Hb' as [Hb'|[[-> ->]|[-> ->]]];
    try (apply lookup_lt_Some in Hb'; lia); try lia.
  - apply (Hord b b' Lb Lb'); auto using lookup_app_l_Some.
  - pose proof (lookup_lt_Some _ _ _ Hb).
    apply (Hord b (length pre) Lb X); auto using lookup_app_l_Some. set_solver.
  - pose proof (lookup_lt_Some _ _ _ Hb).
    apply elem_of_union in Hq as [Hq|Hq].
    + apply (Hord b (length pre) Lb X); auto using lookup_app_l_Some.
    + apply (Hord b (S (length pre)) Lb nxt); auto using lookup_app_l_Some.
  - apply elem_of_difference in Hp as [HpX Hpm].
    apply elem_of_union in Hq as [Hq|Hq].
    + apply (not_mover X); auto.
    + apply (Hord (length pre) (S (length pre)) X nxt); auto.
Qed.

Lemma disjoint_step pre X nxt :
  pairwise_disjoint (pre ++ [X; nxt]) →
  pairwise_disjoint (pre ++ [X ∖ movers heap X; movers heap X ∪ nxt]).
Proof.
  intros Hdis b b' Lb Lb' Hne Hb Hb'.
  pose proof (movers_subseteq X) as Hsub.
  assert (∀ i L, pre !! i = Some L → L ## X) as HpreX.
  { intros i L Hi. apply (Hdis i (length pre)); eauto using lookup_app_l_Some, lookup_shape_cur.
    apply lookup_lt_Some in Hi. lia. }
  assert (∀ i L, pre !! i = Some L → L ## nxt) as Hpren.
  { intros i L Hi. apply (Hdis i (S (length pre)));
      eauto using lookup_app_l_Some, lookup_shape_nxt.
    apply lookup_lt_Some in Hi. lia. }
  assert (X ## nxt) as HXn.
  { apply (Hdis (length pre) (S (length pre))); eauto using lookup_shape_cur, lookup_shape_nxt. }
  apply lookup_shape in Hb as [Hb|[[-> ->]|[-> ->]]];
    apply lookup_shape in Hb' as [Hb'|[[-> ->]|[-> ->]]]; try done.
  - apply (Hdis b b'); eauto using lookup_app_l_Some.
  - specialize (HpreX _ _ Hb). set_solver.
  - specialize (HpreX _ _ Hb). specialize (Hpren _ _ Hb). set_solver.
  - specialize (HpreX _ _ Hb'). set_solver.
  - set_solver.
  - specialize (HpreX _ _ Hb'). specialize (Hpren _ _ Hb'). set_solver.
  - set_solver.
Qed.

Lemma ordered_snoc_empty L : ordered heap L → ordered heap (L ++ [∅]).
Proof.
  intros Hord b b' Lb Lb' p q Hlt Hb Hb' Hp Hq Hne.
  apply lookup_app_Some in Hb' as [Hb'|[Hge Hb']].
  - apply lookup_app_Some in Hb as [Hb|[Hge Hb]].
    + eapply (Hord b b'); eauto.
    + apply lookup_lt_Some in Hb'. lia.
  - destruct (b' - length L) as [|k]; simpl in Hb'; [|done].
    injection Hb' as <-. set_solver.
Qed.

Lemma disjoint_snoc_empty L : pairwise_disjoint L → pairwise_disjoint (L ++ [∅]).
Proof.
  intros Hdis b b' Lb Lb' Hne Hb Hb'.
  apply lookup_app_Some in Hb as [Hb|[Hge Hb]];
    apply lookup_app_Some in Hb' as [Hb'|[Hge' Hb']].
  - eapply (Hdis b b'); eauto.
  - destruct (b' - length L) as [|k]; simpl in Hb'; [|done].
    injection Hb' as <-. set_solver.
  - destruct (b - length L) as [|k]; simpl in Hb; [|done].
    injection Hb as <-. set_solver.
  - destruct (b - length L) as [|k]; simpl in Hb; [|done].
    injection Hb as <-. set_solver.
Qed.

Lemma closed_step pre X nxt v :
  (∀ L p, L ∈ pre ++ [X; nxt] → p ∈ L → closed_pkg heap package_repo v p) →
  ∀ L p, L ∈ pre ++ [X ∖ movers heap X; movers heap X ∪ nxt] → p ∈ L →
         closed_pkg heap package_repo v p.
Proof.
  intros Hcl L p HL Hp. pose proof (movers_subseteq X) as Hsub.
  apply elem_of_app in HL as [HL|HL].
  - apply (Hcl L); [apply elem_of_app; by left|done].
  - apply elem_of_cons in HL as [->|HL].
    + apply (Hcl X); [set_solver|set_solver].
    + apply list_elem_of_singleton in HL as ->.
      apply elem_of_union in Hp as [Hp|Hp].
      * apply (Hcl X); [set_solver|set_solver].
      * apply (Hcl nxt); [set_solver|done].
Qed.

(** The invariant survives a pass that changed the level ... *)
Lemma loop_inv_same pre X nxt st m :
  dep_levels st = pre ++ [X; nxt] →
  loop_inv heap package_repo (length pre) st →
  loop_inv heap package_repo (length pre)
    {| dep_levels := pre ++ [X ∖ movers heap X; movers heap X ∪ nxt];
       seen := seen st; modified := m |}.
Proof.
  intros Hshape (pre' & cur' & nxt' & Hshape' & Hlen & Hcl & Hord & Hdis).
  rewrite Hshape in Hcl, Hord, Hdis.
  exists pre, (X ∖ movers heap X), (movers heap X ∪ nxt). simpl.
  split; [done|]. split; [done|].
  split; [by apply closed_step|].
  split; [by apply ordered_step|by apply disjoint_step].
Qed.

(** ... and a pass that left it as it was, after which the loop goes on
    to the next level. *)
Lemma loop_inv_next pre X nxt st m :
  dep_levels st = pre ++ [X; nxt] →
  loop_inv heap package_repo (length pre) st →
  loop_inv heap package_repo (S (length pre))
    {| dep_levels := (pre ++ [X ∖ movers heap X; movers heap X ∪ nxt]) ++ [∅];
       seen := seen st; modified := m |}.
Proof.
  intros Hshape Hinv.
  destruct (loop_inv_same pre X nxt st m Hshape Hinv)
    as (pre' & cur' & nxt' & Hshape' & Hlen & Hcl & Hord & Hdis).
  simpl in *.
  exists (pre ++ [X ∖ movers heap X]), (movers heap X ∪ nxt), ∅. simpl.
  split; [by rewrite <- !app_assoc|].
  split; [rewrite length_app; simpl; lia|].
  split.
  { intros L p HL Hp. apply elem_of_app in HL as [HL|HL]; [by apply (Hcl L)|].
    apply list_elem_of_singleton in HL as ->. set_solver. }
  split; [by apply ordered_snoc_empty|by apply disjoint_snoc_empty].
Qed.

End Levels.

Section Pass.

Variable iter : gset ref → list ref.
Variable heap : Heap.
Variable package_repo : Dict.dict ref.
Hypothesis iter_ok : iter_valid iter.

Lemma elem_of_iter X x : x ∈ iter X ↔ x ∈ X.
Proof. rewrite (iter_ok X). apply elem_of_elements. Qed.

Lemma NoDup_iter X : NoDup (iter X).
Proof. rewrite (iter_ok X). apply NoDup_elements. Qed.

Lemma level_at_middle pre cur rest :
  level_at (length pre) (pre ++ cur :: rest) = cur.
Proof. unfold level_at. by rewrite list_lookup_middle. Qed.

Lemma level_remove_middle pre cur rest pkg :
  level_remove (length pre) pkg (pre ++ cur :: rest) = pre ++ (cur ∖ {[pkg]}) :: rest.
Proof.
  unfold level_remove. rewrite alter_app_r_alt by lia.
  by rewrite Nat.sub_diag.
Qed.

Lemma level_add_middle pre cur rest pkg :
  level_add (length pre) pkg (pre ++ cur :: rest) = pre ++ ({[pkg]} ∪ cur) :: rest.
Proof.
  unfold level_add. rewrite alter_app_r_alt by lia.
  by rewrite Nat.sub_diag.
Qed.

Lemma move_middle pre cur nxt rest pkg v m :
  move (length pre) pkg {| dep_levels := pre ++ cur :: nxt :: rest; seen := v; modified := m |}
  = {| dep_levels := pre ++ (cur ∖ {[pkg]}) :: ({[pkg]} ∪ nxt) :: rest;
       seen := v; modified := true |}.
Proof.
  unfold move. simpl. rewrite level_remove_middle.
  replace (pre ++ cur ∖ {[pkg]} :: nxt :: rest)
    with ((pre ++ [cur ∖ {[pkg]}]) ++ nxt :: rest) by (by rewrite <- app_assoc).
  replace (S (length pre)) with (length (pre ++ [cur ∖ {[pkg]}]))
    by (rewrite length_app; simpl; lia).
  rewrite level_add_middle. by rewrite <- app_assoc.
Qed.

Lemma others_loop_done level pkg others st :
  others_loop heap level pkg others true st = st.
Proof.
  induction others as [|o others IH]; simpl; [done|].
  by destruct (bool_decide (pkg = o)).
Qed.

Lemma others_loop_spec level pkg others st :
  others_loop heap level pkg others false st
  = if existsb (fun o => negb (bool_decide (pkg = o)) &&
                         depends_on (deref heap o) (deref heap pkg)) others
    then move level pkg st else st.
Proof.
  induction others as [|o others IH]; simpl; [done|].
  destruct (bool_decide (pkg = o)); simpl; [exact IH|].
  destruct (depends_on (deref heap o) (deref heap pkg)); simpl; [|exact IH].
  apply others_loop_done.
Qed.

Lemma existsb_wanted X pkg :
  existsb (fun o => negb (bool_decide (pkg = o)) &&
                    depends_on (deref heap o) (deref heap pkg)) (iter X) = true
  ↔ wanted heap X pkg.
Proof.
  rewrite existsb_exists. unfold wanted, set_Exists. split.
  - intros (o & Ho & Hb). apply andb_true_iff in Hb as [Hne Hdep].
    apply negb_true_iff, bool_decide_eq_false in Hne.
    exists o. split; [by apply elem_of_iter, list_elem_of_In|]. split; [congruence|done].
  - intros (o & Ho & Hne & Hdep). exists o.
    split; [by apply list_elem_of_In, elem_of_iter|].
    apply andb_true_iff. split; [|done].
    apply negb_true_iff, bool_decide_eq_false. congruence.
Qed.

Lemma add_dependencies_closed level pkg st :
  closed_pkg heap package_repo (seen st) pkg →
  add_dependencies heap package_repo level pkg st = st.
Proof.
  unfold closed_pkg, add_dependencies.
  generalize (depends (deref heap pkg)). intros ds Hds.
  induction ds as [|d ds IH]; simpl; [done|].
  destruct (Hds d) as [Hv|Hn]; [left| |].
  - rewrite bool_decide_eq_true_2 by done. apply IH. intros d' Hd'. apply Hds. by right.
  - rewrite Hn. destruct (bool_decide (d ∈ visited_names (seen st)));
      apply IH; intros d' Hd'; apply Hds; by right.
Qed.

Lemma scan_fold pre X nxt v l :
  (∀ p, p ∈ X → closed_pkg heap package_repo v p) →
  ∀ D m, NoDup l → (∀ x, x ∈ l → x ∈ X ∧ x ∉ D) →
  fold_left (scan_pkg iter heap package_repo (length pre) X) l
    {| dep_levels := pre ++ [X ∖ D; D ∪ nxt]; seen := v; modified := m |}
  = {| dep_levels := pre ++ [X ∖ (D ∪ list_to_set (filter (wanted heap X) l));
                             (D ∪ list_to_set (filter (wanted heap X) l)) ∪ nxt];
       seen := v;
       modified := m || bool_decide (list_to_set (filter (wanted heap X) l) ≠@{gset ref} ∅) |}.
Proof.
  intros Hclosed. induction l as [|x l IH]; intros D m Hnd Hl.
  - simpl.
    rewrite (bool_decide_eq_false_2 (∅ ≠@{gset ref} ∅)) by (intros H; by apply H).
    rewrite orb_false_r.
    replace (D ∪ ∅) with D by set_solver. done.
  - apply NoDup_cons in Hnd as [Hx Hnd].
    destruct (Hl x) as [HxX HxD]; [left|].
    simpl. unfold scan_pkg at 2. simpl.
    rewrite level_at_middle.
    rewrite bool_decide_eq_true_2 by set_solver.
    rewrite others_loop_spec.
    destruct (existsb _ (iter X)) eqn:E.
    + apply existsb_wanted in E.
      rewrite move_middle.
      rewrite add_dependencies_closed by (simpl; by apply Hclosed).
      replace ((X ∖ D) ∖ {[x]}) with (X ∖ (D ∪ {[x]})) by set_solver.
      replace ({[x]} ∪ (D ∪ nxt)) with ((D ∪ {[x]}) ∪ nxt) by set_solver.
      rewrite IH; [|done|].
      2:{ intros y Hy. destruct (Hl y) as [? ?]; [by right|].
          split; [done|]. set_solver. }
      rewrite filter_cons_True by done. rewrite list_to_set_cons.
      f_equal.
      * f_equal. f_equal; [|f_equal]; set_solver.
      * rewrite (bool_decide_eq_true_2 (_ ∪ _ ≠ ∅)) by set_solver.
        by rewrite orb_true_r.
    + assert (¬ wanted heap X x) as Hnw.
      { intros Hw. apply existsb_wanted in Hw. congruence. }
      rewrite add_dependencies_closed by (simpl; by apply Hclosed).
      rewrite IH; [|done|].
      2:{ intros y Hy. apply Hl. by right. }
      by rewrite filter_cons_False by done.
Qed.

Lemma movers_iter X :
  list_to_set (filter (wanted heap X) (iter X)) = movers heap X.
Proof.
  apply set_eq. intros x. unfold movers.
  rewrite elem_of_list_to_set, list_elem_of_filter, elem_of_filter, elem_of_iter. done.
Qed.

(** One pass, for any iteration order: the recipes some other recipe of
    the level depends on go one level down, nothing else changes. *)
Lemma scan_level_spec pre X nxt st :
  dep_levels st = pre ++ [X; nxt] →
  (∀ p, p ∈ X → closed_pkg heap package_repo (seen st) p) →
  scan_level iter heap package_repo (length pre) X st
  = {| dep_levels := pre ++ [X ∖ movers heap X; movers heap X ∪ nxt];
       seen := seen st;
       modified := bool_decide (movers heap X ≠ ∅) |}.
Proof.
  intros Hshape Hclosed. unfold scan_level. rewrite Hshape.
  assert (∀ x, x ∈ iter X → x ∈ X ∧ x ∉ (∅ : gset ref)) as Hin.
  { intros x Hx. apply elem_of_iter in Hx. set_solver. }
  pose proof (scan_fold pre X nxt (seen st) (iter X) Hclosed ∅ false (NoDup_iter X) Hin) as E.
  assert (X ∖ ∅ = X) as HX by set_solver.
  assert (∅ ∪ nxt = nxt) as Hn by set_solver.
  rewrite HX, Hn in E. rewrite E, movers_iter. simpl.
  f_equal. f_equal. f_equal; [|f_equal]; set_solver.
Qed.

Lemma while_loop_unfold fuel level repeat_count last st :
  while_loop iter heap package_repo fuel level repeat_count last st
  = match dep_levels st !! level with
    | None => Raise IndexError
    | Some current =>
        if bool_decide (current = ∅) then Ok (dep_levels st)
        else match fuel with
        | O => OutOfFuel
        | S fuel' =>
            if 100 <? level
            then Raise (Exception "Dependency chain reached 100 levels depth, this is probably a bug. Aborting!")
            else
              let st' := scan_level iter heap package_repo level current st in
              let repeat_count' :=
                if bool_decide (last = Some (level_at level (dep_levels st')))
                then S repeat_count else 0 in
              if 10 <? repeat_count'
              then Raise (Exception "Probable dependency cycle detected: Level has been passed on unmodifed multiple times")
              else
                if modified st'
                then while_loop iter heap package_repo fuel' level repeat_count'
                       (Some (level_at level (dep_levels st'))) st'
                else while_loop iter heap package_repo fuel' (S level) repeat_count'
                       (Some (level_at level (dep_levels st')))
                       {| dep_levels := dep_levels st' ++ [∅];
                          seen := seen st'; modified := modified st' |}
        end
    end.
Proof. destruct fuel; reflexivity. Qed.

(** One turn of the loop written without the iteration order. *)
Lemma while_loop_step fuel pre X nxt repeat_count last st :
  dep_levels st = pre ++ [X; nxt] →
  loop_inv heap package_repo (length pre) st →
  while_loop iter heap package_repo (S fuel) (length pre) repeat_count last st
  = if bool_decide (X = ∅) then Ok (dep_levels st)
    else if 100 <? length pre
    then Raise (Exception "Dependency chain reached 100 levels depth, this is probably a bug. Aborting!")
    else
      let M := movers heap X in
      let repeat_count' :=
        if bool_decide (last = Some (X ∖ M)) then S repeat_count else 0 in
      if 10 <? repeat_count'
      then Raise (Exception "Probable dependency cycle detected: Level has been passed on unmodifed multiple times")
      else
        if bool_decide (M ≠ ∅)
        then while_loop iter heap package_repo fuel (length pre) repeat_count'
               (Some (X ∖ M))
               {| dep_levels := pre ++ [X ∖ M; M ∪ nxt]; seen := seen st;
                  modified := bool_decide (M ≠ ∅) |}
        else while_loop iter heap package_repo fuel (S (length pre)) repeat_count'
               (Some (X ∖ M))
               {| dep_levels := (pre ++ [X ∖ M; M ∪ nxt]) ++ [∅]; seen := seen st;
                  modified := bool_decide (M ≠ ∅) |}.
Proof.
  intros Hshape Hinv.
  rewrite while_loop_unfold. rewrite Hshape, lookup_shape_cur.
  destruct (bool_decide (X = ∅)); [done|].
  destruct (100 <? length pre); [done|].
  rewrite (scan_level_spec pre X nxt st Hshape).
  2:{ destruct Hinv as (? & ? & ? & _ & _ & Hcl & _).
      intros p Hp. apply (Hcl X); [|done]. rewrite Hshape. set_solver. }
  cbv zeta. simpl. rewrite level_at_middle. reflexivity.
Qed.

Lemma while_loop_good fuel : ∀ level repeat_count last st result,
  loop_inv heap package_repo level st →
  while_loop iter heap package_repo fuel level repeat_count last st = Ok result →
  ordered heap result ∧ pairwise_disjoint result.
Proof.
  induction fuel as [|fuel IH]; intros level rc last st result Hinv Hrun.
  - destruct Hinv as (pre & X & nxt & Hshape & <- & Hcl & Hord & Hdis).
    rewrite while_loop_unfold, Hshape, lookup_shape_cur in Hrun.
    destruct (bool_decide (X = ∅)); [|done].
    injection Hrun as <-. by rewrite <- Hshape.
  - pose proof Hinv as (pre & X & nxt & Hshape & <- & Hcl & Hord & Hdis).
    rewrite (while_loop_step fuel pre X nxt rc last st Hshape Hinv) in Hrun.
    destruct (bool_decide (X = ∅)); [by injection Hrun as <-|].
    destruct (100 <? length pre); [done|].
    cbv zeta in Hrun.
    destruct (10 <? _); [done|].
    destruct (bool_decide (movers heap X ≠ ∅)).
    + eapply IH; [|exact Hrun]. by apply loop_inv_same.
    + eapply IH; [|exact Hrun]. by apply loop_inv_next.
Qed.

End Pass.

(** The result of the loop does not depend on the order in which the
    sets are run through. *)
Lemma while_loop_iter_irrelevant iter1 iter2 heap package_repo :
  iter_valid iter1 → iter_valid iter2 →
  ∀ fuel level repeat_count last st,
    loop_inv heap package_repo level st →
    while_loop iter1 heap package_repo fuel level repeat_count last st
    = while_loop iter2 heap package_repo fuel level repeat_count last st.
Proof.
  intros H1 H2. induction fuel as [|fuel IH]; intros level rc last st Hinv.
  - by rewrite (while_loop_unfold iter1), (while_loop_unfold iter2).
  - pose proof Hinv as (pre & X & nxt & Hshape & <- & Hcl & Hord & Hdis).
    rewrite (while_loop_step iter1 heap package_repo H1 fuel pre X nxt rc last st Hshape Hinv).
    rewrite (while_loop_step iter2 heap package_repo H2 fuel pre X nxt rc last st Hshape Hinv).
    destruct (bool_decide (X = ∅)); [done|].
    destruct (100 <? length pre); [done|].
    cbv zeta. destruct (10 <? _); [done|].
    destruct (bool_decide (movers heap X ≠ ∅)).
    + apply IH. by apply loop_inv_same.
    + apply IH. by apply loop_inv_next.
Qed.

Section Init.

Variable heap : Heap.
Variable package_repo : Dict.dict ref.
Hypothesis keys_named : registry_keys_named heap package_repo.

Lemma closed_pkg_mono v v' p :
  visited_names v ⊆ visited_names v' →
  closed_pkg heap package_repo v p → closed_pkg heap package_repo v' p.
Proof. intros Hsub Hcl d Hd. destruct (Hcl d Hd); [left; set_solver|by right]. Qed.

Lemma visit_names_subseteq pkg v :
  visited_names v ⊆ visited_names (visit heap pkg v).
Proof. unfold visit. simpl. set_solver. Qed.

Lemma visit_names_elem pkg v d :
  d ∈ names (deref heap pkg) → d ∈ visited_names (visit heap pkg v).
Proof. intros Hd. unfold visit. simpl. set_solver. Qed.

Lemma grows_refl st A B : dep_levels st = [A; B] → grows heap package_repo st st.
Proof. intros H. exists A, A, B. repeat split; try done. intros p Hp. by left. Qed.

Lemma grows_trans st1 st2 st3 :
  grows heap package_repo st1 st2 → grows heap package_repo st2 st3 →
  grows heap package_repo st1 st3.
Proof.
  intros (A1 & A2 & B & H1 & H2 & Hsub & Hv & Hnew)
         (A2' & A3 & B' & H2' & H3 & Hsub' & Hv' & Hnew').
  rewrite H2 in H2'. injection H2' as <- <-.
  exists A1, A3, B. repeat split; try done; [set_solver|set_solver|].
  intros p Hp. destruct (Hnew' p Hp) as [Hp2|Hcl]; [|by right].
  destruct (Hnew p Hp2) as [Hp1|Hcl]; [by left|right].
  by eapply closed_pkg_mono.
Qed.

Local Abbreviation dep_step rec :=
  (fun acc dep_name =>
     bind acc (fun st =>
       if bool_decide (dep_name ∈ visited_names (seen st)) then Ok st
       else match Dict.get package_repo dep_name with
            | None => Ok st
            | Some dep_pkg =>
                rec dep_pkg
                  (consume heap dep_pkg
                     {| dep_levels := dep_levels st;
                        seen := visit heap dep_pkg (seen st);
                        modified := modified st |})
            end)).

Lemma fold_dep_step_Ok (rec : ref → Levels → result Levels) ds r st' :
  fold_left (dep_step rec) ds r = Ok st' → ∃ st, r = Ok st.
Proof.
  revert r. induction ds as [|d ds IH]; intros r H; simpl in H.
  - by exists st'.
  - apply IH in H as [st H]. destruct r; [eauto|done|done].
Qed.

Lemma fold_dep_step_spec (rec : ref → Levels → result Levels) :
  (∀ package st st' A B,
     dep_levels st = [A; B] → rec package st = Ok st' →
     grows heap package_repo st st' ∧ closed_pkg heap package_repo (seen st') package) →
  ∀ ds st st' A B,
    dep_levels st = [A; B] →
    fold_left (dep_step rec) ds (Ok st) = Ok st' →
    grows heap package_repo st st' ∧
    ∀ d, d ∈ ds → d ∈ visited_names (seen st') ∨ Dict.get package_repo d = None.
Proof.
  intros Hrec. induction ds as [|d ds IH]; intros st st' A B Hshape Hrun.
  - simpl in Hrun. injection Hrun as <-. split; [by eapply grows_refl|].
    intros d Hd. by apply elem_of_nil in Hd.
  - simpl in Hrun.
    destruct (bool_decide (d ∈ visited_names (seen st))) eqn:Hvis.
    { apply bool_decide_eq_true in Hvis.
      destruct (IH st st' A B Hshape Hrun) as [Hg Hds]. split; [done|].
      intros d' Hd'. apply elem_of_cons in Hd' as [->|Hd']; [|by apply Hds].
      left. destruct Hg as (? & ? & ? & _ & _ & _ & Hv & _). set_solver. }
    destruct (Dict.get package_repo d) as [dep_pkg|] eqn:Hget; last first.
    { destruct (IH st st' A B Hshape Hrun) as [Hg Hds]. split; [done|].
      intros d' Hd'. apply elem_of_cons in Hd' as [->|Hd']; [by right|by apply Hds]. }
    destruct (fold_dep_step_Ok rec ds _ st' Hrun) as [st3 Hst3].
    rewrite Hst3 in Hrun.
    assert (dep_levels (consume heap dep_pkg
              {| dep_levels := dep_levels st; seen := visit heap dep_pkg (seen st);
                 modified := modified st |}) = [{[dep_pkg]} ∪ A; B]) as Hshape2.
    { simpl. by rewrite Hshape. }
    destruct (Hrec _ _ _ _ _ Hshape2 Hst3) as [Hg23 Hcl3].
    assert (grows heap package_repo st st3) as Hg3.
    { destruct Hg23 as (A2 & A3 & B2 & H2 & H3 & Hsub & Hv & Hnew).
      rewrite Hshape2 in H2. injection H2 as <- <-.
      exists A, A3, B. repeat split; try done; [set_solver| |].
      - simpl in Hv. pose proof (visit_names_subseteq dep_pkg (seen st)).
        pose proof (visit_names_subseteq dep_pkg (visit heap dep_pkg (seen st))).
        set_solver.
      - intros p Hp. destruct (Hnew p Hp) as [Hp2|Hcl]; [|by right].
        apply elem_of_union in Hp2 as [Hp2|Hp2]; [|by left].
        apply elem_of_singleton in Hp2 as ->. by right. }
    assert (∃ A3, dep_levels st3 = [A3; B]) as [A3 Hshape3].
    { destruct Hg3 as (A0 & A3 & B0 & H0 & H3 & _).
      rewrite Hshape in H0. injection H0 as <- <-. eauto. }
    destruct (IH st3 st' A3 B Hshape3 Hrun) as [Hg Hds].
    split; [by eapply grows_trans|].
    intros d' Hd'. apply elem_of_cons in Hd' as [->|Hd']; [|by apply Hds].
    left.
    assert (d ∈ visited_names (seen st3)) as Hd3.
    { destruct Hg23 as (? & ? & ? & _ & _ & _ & Hv & _).
      eapply elem_of_weaken; [|exact Hv].
      eapply elem_of_weaken; [|apply (visit_names_subseteq dep_pkg)].
      apply visit_names_elem. by apply keys_named. }
    destruct Hg as (? & ? & ? & _ & _ & _ & Hv & _). set_solver.
Qed.

Lemma get_recursive_dependencies_spec limit :
  ∀ package st st' A B,
    dep_levels st = [A; B] →
    get_recursive_dependencies heap package_repo limit package st = Ok st' →
    grows heap package_repo st st' ∧ closed_pkg heap package_repo (seen st') package.
Proof.
  induction limit as [|limit IH]; intros package st st' A B Hshape Hrun; [done|].
  simpl in Hrun.
  destruct (fold_dep_step_spec _ IH _ _ _ _ _ Hshape Hrun) as [Hg Hds].
  split; [done|]. intros d Hd. by apply Hds.
Qed.

Lemma init_package_spec limit acc package st' :
  init_package heap package_repo limit acc package = Ok st' →
  ∃ st, acc = Ok st ∧
        (level0_closed heap package_repo st → level0_closed heap package_repo st').
Proof.
  unfold init_package. destruct acc as [st| |]; simpl; [|done|done].
  intros Hrun. exists st. split; [done|].
  intros (A & Hshape & Hcl).
  assert (dep_levels {| dep_levels := level_add 0 package (dep_levels st);
                        seen := visit heap package (seen st);
                        modified := modified st |} = [{[package]} ∪ A; ∅]) as Hshape1.
  { simpl. by rewrite Hshape. }
  destruct (get_recursive_dependencies_spec limit _ _ _ _ _ Hshape1 Hrun)
    as [(A1 & A' & B & H1 & H' & Hsub & Hv & Hnew) Hclp].
  rewrite Hshape1 in H1. injection H1 as <- <-.
  exists A'. split; [done|].
  intros p Hp. destruct (Hnew p Hp) as [Hp1|Hp1]; [|done].
  apply elem_of_union in Hp1 as [Hp1|Hp1].
  - by apply elem_of_singleton in Hp1 as ->.
  - eapply closed_pkg_mono; [|by apply Hcl].
    etrans; [apply (visit_names_subseteq package)|exact Hv].
Qed.

Lemma init_fold_spec limit to_build : ∀ acc st',
  fold_left (init_package heap package_repo limit) to_build acc = Ok st' →
  ∃ st, acc = Ok st ∧
        (level0_closed heap package_repo st → level0_closed heap package_repo st').
Proof.
  induction to_build as [|package to_build IH]; intros acc st' Hrun; simpl in Hrun.
  - exists st'. done.
  - destruct (IH _ _ Hrun) as (st1 & Hst1 & Hcl1).
    destruct (init_package_spec _ _ _ _ Hst1) as (st & Hst & Hcl).
    exists st. split; [done|]. auto.
Qed.

(** After the requested recipes and their dependencies are on level 0,
    the loop starts from a state that satisfies its invariant. *)
Lemma init_levels_inv limit to_build st :
  init_levels heap package_repo limit to_build = Ok st →
  loop_inv heap package_repo 0 st.
Proof.
  unfold init_levels. intros Hrun.
  destruct (init_fold_spec _ _ _ _ Hrun) as (st0 & Hst0 & Hcl).
  injection Hst0 as <-.
  destruct Hcl as (A & Hshape & HclA).
  { exists ∅. split; [done|]. intros p Hp. set_solver. }
  exists [], A, ∅. split; [done|]. split; [done|]. rewrite Hshape.
  split; [|split].
  - intros L p HL Hp. apply elem_of_cons in HL as [->|HL]; [by apply HclA|].
    apply list_elem_of_singleton in HL as ->. set_solver.
  - intros b b' Lb Lb' p q Hlt Hb Hb' Hp Hq Hne.
    destruct b' as [|[|b']]; [lia| |done].
    simpl in Hb'. injection Hb' as <-. set_solver.
  - intros b b' Lb Lb' Hne Hb Hb'.
    destruct b as [|[|b]], b' as [|[|b']]; try done; simpl in *;
      simplify_eq; set_solver.
Qed.

End Init.

(** [filter] keeps the order of what it keeps. *)
Lemma filter_lookup_elem {A} (P : A → Prop) `{∀ x, Decision (P x)} (l : list A) i x :
  filter P l !! i = Some x → ∃ k, l !! k = Some x.
Proof.
  intros Hi. apply list_elem_of_lookup_2 in Hi.
  apply list_elem_of_filter in Hi as [_ Hi].
  by apply list_elem_of_lookup_1 in Hi.
Qed.

Lemma filter_lookup_order {A} (P : A → Prop) `{∀ x, Decision (P x)} (l : list A) :
  ∀ i j x y, i < j → filter P l !! i = Some x → filter P l !! j = Some y →
             ∃ i' j', i' < j' ∧ l !! i' = Some x ∧ l !! j' = Some y.
Proof.
  induction l as [|z l IH]; intros i j x y Hlt Hi Hj; [done|].
  rewrite filter_cons in Hi, Hj.
  destruct (decide (P z)).
  - destruct i as [|i].
    + simpl in Hi. injection Hi as ->.
      destruct j as [|j]; [lia|]. simpl in Hj.
      destruct (filter_lookup_elem P l j y Hj) as [k Hk].
      exists 0, (S k). split; [lia|]. done.
    + destruct j as [|j]; [lia|]. simpl in Hi, Hj.
      destruct (IH i j x y) as (i' & j' & Hlt' & Hi' & Hj'); [lia|done|done|].
      exists (S i'), (S j'). split; [lia|]. done.
  - destruct (IH i j x y) as (i' & j' & Hlt' & Hi' & Hj'); [lia|done|done|].
    exists (S i'), (S j'). split; [lia|]. done.
Qed.

Lemma build_order_lookup L i j Li Lj :
  i < j → build_order L !! i = Some Li → build_order L !! j = Some Lj →
  ∃ a b, b < a ∧ L !! a = Some Li ∧ L !! b = Some Lj.
Proof.
  unfold build_order. intros Hlt Hi Hj.
  destruct (filter_lookup_order _ _ _ _ _ _ Hlt Hi Hj) as (i' & j' & Hlt' & Hi' & Hj').
  pose proof (lookup_lt_Some _ _ _ Hi') as Hli. pose proof (lookup_lt_Some _ _ _ Hj') as Hlj.
  rewrite length_reverse in Hli, Hlj.
  rewrite reverse_lookup in Hi', Hj' by done.
  exists (length L - S i'), (length L - S j'). split; [lia|]. done.
Qed.

Lemma depends_on_true other pkg d :
  d ∈ depends other → d ∈ names pkg → depends_on other pkg = true.
Proof.
  intros Hd Hn. unfold depends_on. apply existsb_exists. exists d.
  split; [by apply list_elem_of_In|]. by apply bool_decide_eq_true.
Qed.

Lemma ordered_disjoint_topological heap package_repo L :
  registry_keys_named heap package_repo →
  ordered heap L → pairwise_disjoint L →
  topological heap package_repo (build_order L).
Proof.
  intros Hkeys Hord Hdis i j Li Lj q p d Hlt Hi Hj Hq Hp Hd Hget.
  destruct (build_order_lookup L i j Li Lj Hlt Hi Hj) as (a & b & Hba & Ha & Hb).
  assert (depends_on (deref heap q) (deref heap p) = true) as Hdep.
  { eapply depends_on_true; [done|]. by apply Hkeys. }
  destruct (decide (q = p)) as [->|Hne].
  - assert (Li ## Lj) as Hd'. { apply (Hdis a b); [lia|done|done]. }
    set_solver.
  - rewrite (Hord b a Lj Li p q) in Hdep; done.
Qed.

(** The plan respects the dependencies, whatever the iteration order. *)
Lemma chain_topological iter heap package_repo limit fuel to_build plan :
  iter_valid iter → registry_keys_named heap package_repo →
  generate_dependency_chain iter heap package_repo limit fuel to_build = Ok plan →
  topological heap package_repo plan.
Proof.
  intros Hiter Hkeys. unfold generate_dependency_chain.
  destruct (init_levels heap package_repo limit to_build) as [st| |] eqn:Hinit;
    simpl; [|done|done].
  destruct (while_loop iter heap package_repo fuel 0 0 None st) as [L| |] eqn:Hloop;
    simpl; [|done|done].
  intros [= <-].
  pose proof (init_levels_inv heap package_repo Hkeys limit to_build st Hinit) as Hinv.
  destruct (while_loop_good iter heap package_repo Hiter fuel 0 0 None st L Hinv Hloop).
  by apply ordered_disjoint_topological.
Qed.

Lemma chain_iter_irrelevant iter1 iter2 heap package_repo limit fuel to_build :
  iter_valid iter1 → iter_valid iter2 → registry_keys_named heap package_repo →
  generate_dependency_chain iter1 heap package_repo limit fuel to_build
  = generate_dependency_chain iter2 heap package_repo limit fuel to_build.
Proof.
  intros H1 H2 Hkeys. unfold generate_dependency_chain.
  destruct (init_levels heap package_repo limit to_build) as [st| |] eqn:Hinit;
    simpl; [|done|done].
  rewrite (while_loop_iter_irrelevant iter1 iter2 heap package_repo H1 H2 fuel 0 0 None st);
    [done|].
  by eapply init_levels_inv.
Qed.

Lemma iter_valid_elements : iter_valid elements.
Proof. intros X. reflexivity. Qed.

End ChainFacts.

(** * The solver on discovered registries *)

Module SolverClaims.
Import PyStr Packages RegistrySpec DictFacts ChainSpec RegistryFacts ChainFacts Recipes.

Lemma registry_of_keys_named results :
  registry_keys_named (heap_of results) (registry_of results).
Proof.
  pose proof (discover_packages_keys_named results) as H.
  unfold heap_of, registry_of.
  by destruct (discover_packages results) as [[heap registry] log].
Qed.

(** C2: for every registry (a dict in which, as discovery builds it, every
    key is one of the names of the recipe it leads to), every requested
    list and every iteration order, a plan that
    [generate_dependency_chain] returns is topologically correct; and the
    linear chain a -> b -> c with a requested gives exactly
    [{c}, {b}, {a}]. *)
Theorem plan_respects_dependencies iter :
  iter_valid iter →
  (∀ heap registry limit fuel to_build plan,
     registry_keys_named heap registry →
     generate_dependency_chain iter heap registry limit fuel to_build = Ok plan →
     topological heap registry plan) ∧
  generate_dependency_chain iter (heap_of chain_recipes) (registry_of chain_recipes)
    1000 1000 [0] = Ok [{[2]}; {[1]}; {[0]}].
Proof.
  intros Hiter. split.
  - intros heap registry limit fuel to_build plan Hkeys Hrun.
    by eapply chain_topological.
  - rewrite (chain_iter_irrelevant iter elements);
      [|done|apply iter_valid_elements|apply registry_of_keys_named].
    vm_compute. reflexivity.
Qed.

Lemma plan_respects_dependencies_witness :
  topological (heap_of chain_recipes) (registry_of chain_recipes) [{[2]}; {[1]}; {[0]}].
Proof.
  destruct (plan_respects_dependencies elements iter_valid_elements) as [Htopo Hrun].
  apply (Htopo (heap_of chain_recipes) (registry_of chain_recipes) 1000 1000 [0]).
  - apply registry_of_keys_named.
  - exact Hrun.
Defined.

(** Why the keys must be names: in this dict the key d leads to the
    recipe named p although another recipe is named d. With the recipes
    named d and p requested, the plan is [{d}, {q}, {p}]: q, in the
    second level, depends on d, which the dict resolves to p, in the
    third. Discovery never builds such a dict. *)
Lemma odd_dict_plan_not_topological :
  ∃ plan,
    generate_dependency_chain elements odd_heap odd_registry 1000 1000 [1; 0] = Ok plan ∧
    ¬ topological odd_heap odd_registry plan.
Proof.
  exists [{[1]}; {[2]}; {[0]}]. split; [vm_compute; reflexivity|].
  intros H.
  apply (H 1 2 {[2]} {[0]} 2 0 "d"); try reflexivity; try lia; set_solver.
Qed.

(** C3 at a failing input: with a depending on b and b on a, both
    requested, every iteration order gives the one-level plan [{a, b}];
    no error is raised. *)
Theorem cycle_is_planned_not_reported iter :
  iter_valid iter →
  generate_dependency_chain iter (heap_of cycle_recipes) (registry_of cycle_recipes)
    1000 1000 [0; 1] = Ok [{[0; 1]}].
Proof.
  intros Hiter.
  rewrite (chain_iter_irrelevant iter elements);
    [|done|apply iter_valid_elements|apply registry_of_keys_named].
  vm_compute. reflexivity.
Qed.

Lemma cycle_is_planned_not_reported_witness :
  generate_dependency_chain elements (heap_of cycle_recipes) (registry_of cycle_recipes)
    1000 1000 [0; 1] = Ok [{[0; 1]}].
Proof. exact (cycle_is_planned_not_reported elements iter_valid_elements). Defined.

End SolverClaims.

(** * Facts about selection and planning *)

Module PlanningFacts.
Import PyStr Packages RegistrySpec DictFacts ChainSpec Recipes.

Lemma occurrences_filter (f : ref → bool) (r : ref) (l : list ref) :
  occurrences r (List.filter f l) = if f r then occurrences r l else 0.
Proof.
  unfold occurrences. induction l as [|x l IH]; simpl.
  - by destruct (f r).
  - rewrite filter_cons. destruct (f x) eqn:Hx.
    + rewrite filter_cons. destruct (decide (x = r)) as [->|Hne].
      * rewrite Hx. simpl. rewrite IH, Hx. done.
      * exact IH.
    + destruct (decide (x = r)) as [->|Hne]; [|exact IH].
      rewrite Hx in IH |- *. done.
Qed.

Lemma filter_packages_count heap repo paths allow use_paths use_names result :
  NoDup (Dict.keys repo) →
  filter_packages heap repo paths allow use_paths use_names = Ok result →
  ∀ r, occurrences r result
       = if in_paths paths "all" || matches use_paths use_names paths (deref heap r)
         then key_count repo r else 0.
Proof.
  intros Hnd Hrun r. unfold filter_packages in Hrun.
  destruct (in_paths paths "all"); simpl.
  - injection Hrun as <-. by rewrite key_count_values.
  - destruct (negb allow && _); [done|]. injection Hrun as <-.
    rewrite occurrences_filter.
    destruct (matches use_paths use_names paths (deref heap r)); [|done].
    by rewrite key_count_values.
Qed.

Lemma bind_run {A B} (m : M A) (k : A → M B) (w : World) :
  (m ≫= k) w = match m w with
               | Ok (a, w') => k a w'
               | Raise e => Raise e
               | OutOfFuel => OutOfFuel
               end.
Proof. reflexivity. Qed.

Lemma for_each_ext {A S} (l : list A) (body body' : S → A → M S) :
  (∀ s x w, body s x w = body' s x w) →
  ∀ s w, for_each l body s w = for_each l body' s w.
Proof.
  intros Hext. induction l as [|x l IH]; intros s w; simpl; [done|].
  unfold mbind, M_bind. rewrite Hext.
  destruct (body' s x w) as [[s' w']| |]; [apply IH|done|done].
Qed.

Lemma pkg_names_ext heap packages packages' :
  (∀ x, x ∈ packages ↔ x ∈ packages') →
  pkg_names heap packages = pkg_names heap packages'.
Proof.
  intros Hext. unfold pkg_names. apply set_eq. intros n.
  rewrite !elem_of_list_to_set, !list_elem_of_fmap.
  split; intros (x & -> & Hx); exists x; (split; [done|]); by apply Hext.
Qed.

Lemma get_dependants_ext iter heap repo limit packages packages' recursive :
  (∀ x, x ∈ packages ↔ x ∈ packages') →
  get_dependants iter heap repo limit packages recursive
  = get_dependants iter heap repo limit packages' recursive.
Proof.
  intros Hext. destruct limit as [|limit]; [done|]. simpl.
  unfold direct_dependants. by rewrite (pkg_names_ext heap packages packages' Hext).
Qed.

Lemma list_to_set_ext (packages packages' : list ref) :
  (∀ x, x ∈ packages ↔ x ∈ packages') →
  list_to_set packages =@{gset ref} list_to_set packages'.
Proof. intros Hext. apply set_eq. intros x. by rewrite !elem_of_list_to_set. Qed.

Section Insensitive.

Variable env : Env.
Variable iter : gset ref → list ref.
Variable heap : Heap.
Variable repo : Dict.dict ref.
Variable limit fuel : nat.

Lemma check_level_package_ext packages packages' dependants arch force rd td level package w :
  (∀ x, x ∈ packages ↔ x ∈ packages') →
  check_level_package env heap packages dependants arch force rd td level package w
  = check_level_package env heap packages' dependants arch force rd td level package w.
Proof.
  intros Hext. unfold check_level_package.
  by rewrite (bool_decide_ext _ _ (Hext package)).
Qed.

(** The plan depends on the requested recipes as a set only. *)
Lemma get_unbuilt_package_levels_ext packages packages' arch force rd td w :
  (∀ x, x ∈ packages ↔ x ∈ packages') →
  get_unbuilt_package_levels env iter heap repo limit fuel packages arch force rd td w
  = get_unbuilt_package_levels env iter heap repo limit fuel packages' arch force rd td w.
Proof.
  intros Hext. unfold get_unbuilt_package_levels.
  rewrite (get_dependants_ext iter heap repo limit packages packages' true Hext).
  rewrite (list_to_set_ext packages packages' Hext).
  unfold mbind, M_bind.
  destruct (lift _ w) as [[dependants w1]| |]; [|done|done].
  destruct (lift _ w1) as [[package_levels w2]| |]; [|done|done].
  apply for_each_ext. intros build_levels level_packages w3.
  rewrite (for_each_ext (iter level_packages) _
             (check_level_package env heap packages' dependants arch force rd td));
    [done|].
  intros level package w4. by apply check_level_package_ext.
Qed.

Lemma build_packages_ext packages packages' arch force rd td w :
  (∀ x, x ∈ packages ↔ x ∈ packages') →
  build_packages env iter heap repo limit fuel packages arch force rd td w
  = build_packages env iter heap repo limit fuel packages' arch force rd td w.
Proof.
  intros Hext. unfold build_packages. rewrite !bind_run.
  destruct (init_prebuilts env arch w) as [[[] w1]| |]; [|done|done].
  rewrite !bind_run.
  by rewrite (get_unbuilt_package_levels_ext packages packages' arch force rd td w1 Hext).
Qed.

End Insensitive.

End PlanningFacts.

Module SelectionClaims.
Import PyStr Packages RegistrySpec DictFacts ChainSpec RegistryFacts PlanningFacts Recipes.




Lemma get_dependants_S iter heap repo limit packages recursive :
  get_dependants iter heap repo (S limit) packages recursive
  = let to_add := direct_dependants heap repo packages in
    if recursive && negb (bool_decide (to_add = ∅))
    then bind (get_dependants iter heap repo limit (iter to_add) true)
              (fun more => Ok (to_add ∪ more))
    else Ok to_add.
Proof. reflexivity. Qed.

(** The recipes [get_dependants] finds in one step: those stored in the
    registry with a dependency that is the [name] of a given recipe. *)
Lemma direct_dependants_spec heap repo packages r :
  r ∈ direct_dependants heap repo packages ↔
  r ∈ Dict.values repo ∧
  ∃ d p, d ∈ depends (deref heap r) ∧ p ∈ packages ∧ d = name (deref heap p).
Proof.
  unfold direct_dependants. rewrite elem_of_list_to_set.
  rewrite list_elem_of_In, filter_In, <- list_elem_of_In.
  unfold depends_on_any, pkg_names. rewrite existsb_exists.
  split.
  - intros [Hr (d & Hd & Hb)]. split; [done|].
    apply bool_decide_eq_true in Hb.
    apply elem_of_list_to_set, list_elem_of_fmap in Hb as (p & -> & Hp).
    exists (name (deref heap p)), p. by rewrite list_elem_of_In.
  - intros [Hr (d & p & Hd & Hp & ->)]. split; [done|].
    exists (name (deref heap p)). split; [by apply list_elem_of_In|].
    apply bool_decide_eq_true, elem_of_list_to_set, list_elem_of_fmap. eauto.
Qed.

(** C5 at a failing input: a replaces old, b depends on old, a is
    requested. The dependency of b is one of the names of a, yet
    [get_dependants] returns the empty set. *)
Theorem get_dependants_matches_name_only iter limit :
  "old" ∈ names (deref (heap_of alias_recipes) 0) ∧
  "old" ∈ depends (deref (heap_of alias_recipes) 1) ∧
  1 ∈ Dict.values (registry_of alias_recipes) ∧
  get_dependants iter (heap_of alias_recipes) (registry_of alias_recipes)
    (S limit) [0] true = Ok ∅.
Proof.
  split; [vm_compute; set_solver|]. split; [vm_compute; set_solver|].
  split; [vm_compute; set_solver|].
  rewrite get_dependants_S.
  assert (direct_dependants (heap_of alias_recipes) (registry_of alias_recipes) [0] = ∅)
    as -> by (vm_compute; reflexivity).
  reflexivity.
Qed.

End SelectionClaims.

(** * Facts about the world *)

Module WorldFacts.
Import PyStr Packages PublishSpec PlanningFacts.

Lemma bind_Ok_inv {A B} (m : M A) (k : A → M B) w r :
  (m ≫= k) w = Ok r → ∃ a w1, m w = Ok (a, w1) ∧ k a w1 = Ok r.
Proof.
  rewrite bind_run. destruct (m w) as [[a w1]| |]; [|done|done]. eauto.
Qed.

Lemma ret_Ok_inv {A} (a : A) w r : mret (M := M) a w = Ok r → r = (a, w).
Proof. by intros [= <-]. Qed.

Lemma exists_Ok_inv path w b w' :
  exists_ path w = Ok (b, w') →
  w' = w ∧ b = bool_decide (is_Some (files w !! path)).
Proof. by intros [= <- <-]. Qed.

Lemma unlink_Ok_inv path w u w' :
  unlink path w = Ok (u, w') →
  files w' = delete path (files w) ∧ cmds w' = cmds w ∧ builds w' = builds w.
Proof. unfold unlink. destruct (files w !! path); [|done]. by intros [= <- <-]. Qed.

Lemma copyfile_Ok_inv src dst w u w' :
  copyfile src dst w = Ok (u, w') →
  ∃ content, files w !! src = Some content ∧ src ≠ dst ∧
             files w' = <[dst := content]> (files w) ∧
             cmds w' = cmds w ∧ builds w' = builds w.
Proof.
  unfold copyfile. destruct (files w !! src) as [content|]; [|done].
  destruct (String.eqb src dst) eqn:E; [done|].
  intros [= <- <-]. exists content. repeat split; try done.
  intros ->. by rewrite String.eqb_refl in E.
Qed.

Lemma run_Ok_inv env cwd cmd w rc w' :
  run env cwd cmd w = Ok (rc, w') →
  files w' = (subprocess_run env cwd cmd (files w)).2 ∧
  rc = (subprocess_run env cwd cmd (files w)).1 ∧
  cmds w' = cmds w ++ [cmd] ∧ builds w' = builds w.
Proof.
  unfold run. destruct (subprocess_run env cwd cmd (files w)) as [rc' files'].
  by intros [= <- <-].
Qed.

Lemma quiet_refl touched w : quiet touched w w.
Proof. done. Qed.

Lemma quiet_trans touched w1 w2 w3 :
  quiet touched w1 w2 → quiet touched w2 w3 → quiet touched w1 w3.
Proof.
  intros (Hf & Hc & Hb) (Hf' & Hc' & Hb'). split; [|split; congruence].
  intros p Hp. by rewrite Hf', Hf.
Qed.

Lemma quiet_weaken touched touched' w w' :
  (∀ p, p ∈ touched → p ∈ touched') → quiet touched w w' → quiet touched' w w'.
Proof. intros Hsub (Hf & Hc & Hb). split; [|done]. intros p Hp. apply Hf. auto. Qed.

Lemma unlink_quiet path w u w' :
  unlink path w = Ok (u, w') → quiet [path] w w'.
Proof.
  intros (Hf & Hc & Hb)%unlink_Ok_inv. split; [|done].
  intros p Hp. rewrite Hf. apply lookup_delete_ne. set_solver.
Qed.

Lemma copyfile_quiet src dst w u w' :
  copyfile src dst w = Ok (u, w') → quiet [dst] w w'.
Proof.
  intros (c & Hc & Hne & Hf & Hcm & Hb)%copyfile_Ok_inv. split; [|done].
  intros p Hp. rewrite Hf. apply lookup_insert_ne. set_solver.
Qed.

Lemma db_fixup_quiet file w u w' :
  db_fixup file w = Ok (u, w') →
  quiet [file; file +:+ ".tar.xz"; file +:+ ".tar.xz.old"] w w'.
Proof.
  unfold db_fixup. intros H.
  apply bind_Ok_inv in H as (has_xz & w1 & [-> ->]%exists_Ok_inv & H).
  apply bind_Ok_inv in H as ([] & w2 & H12 & H).
  apply bind_Ok_inv in H as (has_old & w3 & [-> ->]%exists_Ok_inv & H).
  assert (quiet [file; file +:+ ".tar.xz"; file +:+ ".tar.xz.old"] w w2) as Hq12.
  { destruct (bool_decide (is_Some (files w !! (file +:+ ".tar.xz")))).
    - apply bind_Ok_inv in H12 as ([] & w1 & H1 & H2).
      eapply quiet_trans.
      + eapply quiet_weaken; [|by eapply unlink_quiet]. set_solver.
      + eapply quiet_weaken; [|by eapply copyfile_quiet]. set_solver.
    - apply ret_Ok_inv in H12. simplify_eq. apply quiet_refl. }
  eapply quiet_trans; [exact Hq12|].
  destruct (bool_decide (is_Some (files w2 !! (file +:+ ".tar.xz.old")))).
  - eapply quiet_weaken; [|by eapply unlink_quiet]. set_solver.
  - apply ret_Ok_inv in H. simplify_eq. apply quiet_refl.
Qed.

Lemma db_fixups_quiet env repo_name a w u w' :
  for_each ["db"; "files"]
    (fun _ ext =>
       db_fixup (join (join (config_get_package_dir env a) [repo_name])
                      [repo_name +:+ "." +:+ ext])) tt w = Ok (u, w') →
  quiet (db_paths env repo_name a) w w'.
Proof.
  simpl. intros H.
  apply bind_Ok_inv in H as ([] & w1 & H1 & H).
  apply bind_Ok_inv in H as ([] & w2 & H2 & H).
  apply ret_Ok_inv in H. simplify_eq.
  eapply quiet_trans.
  - eapply quiet_weaken; [|by eapply db_fixup_quiet].
    unfold db_paths. simpl. set_solver.
  - eapply quiet_weaken; [|by eapply db_fixup_quiet].
    unfold db_paths. simpl. set_solver.
Qed.

(** What [add_file_to_repo] does to the artifacts: the file arrives at
    its place in the repo with the content it had, the other artifacts
    stay as they were, and [repo-add] is run on it. *)
Lemma add_file_to_repo_spec env file_path repo_name a (protected : list string) w u w' :
  add_file_to_repo env file_path repo_name a w = Ok (u, w') →
  (∀ files p, p ∈ protected →
     (subprocess_run env None
        (repo_add_cmd (join (config_get_package_dir env a) [repo_name]) repo_name
           (join (join (config_get_package_dir env a) [repo_name]) [basename file_path]))
        files).2 !! p = files !! p) →
  cache_path env a (basename file_path) ∉ protected →
  (∀ p, p ∈ db_paths env repo_name a → p ∉ protected) →
  join (join (config_get_package_dir env a) [repo_name]) [basename file_path] ∈ protected →
  files w' !! join (join (config_get_package_dir env a) [repo_name]) [basename file_path]
    = files w !! file_path ∧
  (∀ p, p ∈ protected → p ≠ file_path →
        p ≠ join (join (config_get_package_dir env a) [repo_name]) [basename file_path] →
        files w' !! p = files w !! p) ∧
  cmds w' = cmds w ++
    [repo_add_cmd (join (config_get_package_dir env a) [repo_name]) repo_name
       (join (join (config_get_package_dir env a) [repo_name]) [basename file_path])] ∧
  builds w' = builds w.
Proof.
  unfold add_file_to_repo.
  set (repo_dir := join (config_get_package_dir env a) [repo_name]).
  set (target := join repo_dir [basename file_path]).
  intros H Hrun Hcache Hdb Htarget.
  apply bind_Ok_inv in H as ([] & w1 & H1 & H).
  apply bind_Ok_inv in H as (cached & w1' & [-> ->]%exists_Ok_inv & H).
  apply bind_Ok_inv in H as ([] & w2 & H2 & H).
  apply bind_Ok_inv in H as (rc & w3 & (Hf3 & Hrc & Hc3 & Hb3)%run_Ok_inv & H).
  destruct (negb (rc =? 0)%Z); [done|].
  apply db_fixups_quiet in H as (Hf4 & Hc4 & Hb4).
  (* the move into the repo *)
  assert (files w1 !! target = files w !! file_path ∧
          (∀ p, p ≠ file_path → p ≠ target → files w1 !! p = files w !! p) ∧
          cmds w1 = cmds w ∧ builds w1 = builds w) as (Ht1 & Hf1 & Hc1 & Hb1).
  { destruct (String.eqb file_path target) eqn:E.
    - apply String.eqb_eq in E. apply ret_Ok_inv in H1. simplify_eq.
      rewrite <- E. done.
    - apply bind_Ok_inv in H1 as ([] & w0 & Hcopy & Hunlink).
      unfold copy_into in Hcopy. fold repo_dir in Hcopy. fold target in Hcopy.
      apply copyfile_Ok_inv in Hcopy as (c & Hc & Hne & Hf0 & Hc0 & Hb0).
      apply unlink_Ok_inv in Hunlink as (Hf1 & Hc1 & Hb1).
      split; [|split; [|split; congruence]].
      + rewrite Hf1, lookup_delete_ne by done. rewrite Hf0, lookup_insert_eq. done.
      + intros p Hp Hpt. rewrite Hf1, lookup_delete_ne by done.
        rewrite Hf0, lookup_insert_ne by done. done. }
  (* the cached copy *)
  assert (quiet [cache_path env a (basename file_path)] w1 w2) as (Hf2 & Hc2 & Hb2).
  { destruct (bool_decide _).
    - by eapply unlink_quiet.
    - apply ret_Ok_inv in H2. simplify_eq. apply quiet_refl. }
  assert (∀ p, p ∈ protected → files w' !! p = files w1 !! p) as Hrest.
  { intros p Hp. rewrite Hf4 by (intros Hin; by apply (Hdb p)).
    rewrite Hf3, Hrun by done. apply Hf2.
    intros Hin. apply list_elem_of_singleton in Hin as ->. done. }
  split; [by rewrite Hrest, Ht1|].
  split; [intros p Hp Hpf Hpt; by rewrite Hrest, Hf1|].
  split; [|congruence].
  rewrite Hc4, Hc3, Hc2, Hc1. done.
Qed.

(** The one command [add_file_to_repo] starts. *)
Lemma add_file_to_repo_log env file_path repo_name a w u w' :
  add_file_to_repo env file_path repo_name a w = Ok (u, w') →
  cmds w' = cmds w ++
    [repo_add_cmd (join (config_get_package_dir env a) [repo_name]) repo_name
       (join (join (config_get_package_dir env a) [repo_name]) [basename file_path])].
Proof.
  unfold add_file_to_repo.
  set (repo_dir := join (config_get_package_dir env a) [repo_name]).
  set (target := join repo_dir [basename file_path]).
  intros H.
  apply bind_Ok_inv in H as ([] & w1 & H1 & H).
  apply bind_Ok_inv in H as (cached & w1' & [-> ->]%exists_Ok_inv & H).
  apply bind_Ok_inv in H as ([] & w2 & H2 & H).
  apply bind_Ok_inv in H as (rc & w3 & (Hf3 & Hrc & Hc3 & Hb3)%run_Ok_inv & H).
  destruct (negb (rc =? 0)%Z); [done|].
  apply db_fixups_quiet in H as (Hf4 & Hc4 & Hb4).
  assert (cmds w1 = cmds w) as Hc1.
  { destruct (String.eqb file_path target).
    - apply ret_Ok_inv in H1. by simplify_eq.
    - apply bind_Ok_inv in H1 as ([] & w0 & Hcopy & Hunlink).
      apply copyfile_Ok_inv in Hcopy as (c & _ & _ & _ & Hc0 & _).
      apply unlink_Ok_inv in Hunlink as (_ & Hc1 & _). congruence. }
  assert (cmds w2 = cmds w1) as Hc2.
  { destruct (bool_decide _).
    - apply unlink_Ok_inv in H2 as (_ & Hc2 & _). done.
    - apply ret_Ok_inv in H2. by simplify_eq. }
  rewrite Hc4, Hc3, Hc2, Hc1. done.
Qed.

(** The commands of the fan-out: one [repo-add] per other arch, in the
    order of [ARCHES]. *)
Lemma copy_to_other_arches_log env repo_name arch file arches : ∀ w u w',
  for_each arches
    (fun _ repo_arch =>
       if String.eqb repo_arch arch then mret tt
       else
         let copy_target := join (config_get_package_dir env repo_arch) [repo_name; file] in
         copyfile (repo_path env repo_name arch file) copy_target;;
         add_file_to_repo env copy_target repo_name repo_arch)
    tt w = Ok (u, w') →
  cmds w' = cmds w ++
    ((fun ra => repo_add_cmd (join (config_get_package_dir env ra) [repo_name]) repo_name
                  (join (join (config_get_package_dir env ra) [repo_name])
                        [basename (repo_path env repo_name ra file)]))
       <$> filter (fun ra => ra ≠ arch) arches).
Proof.
  induction arches as [|ra rest IH]; intros w u w' Hrun.
  - apply ret_Ok_inv in Hrun. simplify_eq. by rewrite app_nil_r.
  - simpl in Hrun. apply bind_Ok_inv in Hrun as ([] & w1 & Hbody & Hrest).
    apply IH in Hrest. rewrite Hrest.
    destruct (String.eqb ra arch) eqn:E.
    + apply String.eqb_eq in E as ->. apply ret_Ok_inv in Hbody. simplify_eq.
      by rewrite filter_cons_False by (intros H; by apply H).
    + assert (ra ≠ arch) as Hne by (intros ->; by rewrite String.eqb_refl in E).
      apply bind_Ok_inv in Hbody as ([] & w0 & Hcopy & Hadd).
      apply copyfile_Ok_inv in Hcopy as (c & _ & _ & _ & Hc0 & _).
      apply add_file_to_repo_log in Hadd.
      rewrite filter_cons_True by done. csimpl.
      rewrite Hadd, Hc0, <- app_assoc. done.
Qed.

Lemma add_file_to_repo_moves env file_path repo_name a w u w' :
  add_file_to_repo env file_path repo_name a w = Ok (u, w') →
  file_path ≠ join (join (config_get_package_dir env a) [repo_name]) [basename file_path] →
  is_Some (files w !! file_path).
Proof.
  unfold add_file_to_repo. intros H Hne.
  apply bind_Ok_inv in H as ([] & w1 & H1 & _).
  apply String.eqb_neq in Hne. rewrite Hne in H1.
  apply bind_Ok_inv in H1 as ([] & w0 & Hcopy & _).
  apply copyfile_Ok_inv in Hcopy as (c & Hc & _). by exists c.
Qed.

Lemma endswith_cons c s suf :
  endswith (String c s) suf = String.eqb (String c s) suf || endswith s suf.
Proof. reflexivity. Qed.

Lemma endswith_nil suf : endswith "" suf = String.eqb "" suf.
Proof. simpl. apply orb_false_r. Qed.

Lemma endswith_iff s suf :
  endswith s suf = true ↔ ∃ pre, s = pre +:+ suf.
Proof.
  split.
  - induction s as [|c s IH].
    + rewrite endswith_nil. intros H%String.eqb_eq. exists "". by subst.
    + rewrite endswith_cons. intros [H%String.eqb_eq|H]%orb_true_iff.
      * exists "". by subst.
      * destruct (IH H) as [pre ->]. by exists (String c pre).
  - intros [pre ->]. induction pre as [|c pre IH].
    + destruct suf as [|c suf]; [done|].
      change ("" +:+ String c suf) with (String c suf).
      by rewrite endswith_cons, String.eqb_refl.
    + change (String c pre +:+ suf) with (String c (pre +:+ suf)).
      rewrite endswith_cons, IH. apply orb_true_r.
Qed.

Lemma string_app_assoc (a b c : string) : (a +:+ b) +:+ c = a +:+ (b +:+ c).
Proof.
  induction a as [|x a IH]; [done|].
  change (String x ((a +:+ b) +:+ c) = String x (a +:+ (b +:+ c))). by rewrite IH.
Qed.

Lemma is_any_arch_is_artifact file : is_any_arch file = true → is_artifact file = true.
Proof.
  unfold is_any_arch, is_artifact. rewrite !endswith_iff.
  intros [pre ->]. exists (pre +:+ "any").
  by rewrite string_app_assoc.
Qed.

Lemma NoDup_fmap_inj_on {A B} (f : A → B) (l : list A) x y :
  NoDup (f <$> l) → x ∈ l → y ∈ l → f x = f y → x = y.
Proof.
  induction l as [|z l IH]; intros Hnd Hx Hy Hf; [by apply elem_of_nil in Hx|].
  rewrite fmap_cons in Hnd. apply NoDup_cons in Hnd as [Hz Hnd].
  apply elem_of_cons in Hx as [->|Hx]; apply elem_of_cons in Hy as [->|Hy]; try done.
  - exfalso. apply Hz. rewrite Hf. by apply list_elem_of_fmap_2.
  - exfalso. apply Hz. rewrite <- Hf. by apply list_elem_of_fmap_2.
  - by apply IH.
Qed.

Lemma NoDup_flat_map_inj_on {A B C} (g : A → B → C) (archs : list A) (arts : list B)
    a a' f f' :
  NoDup (flat_map (fun a => g a <$> arts) archs) →
  a ∈ archs → a' ∈ archs → f ∈ arts → f' ∈ arts →
  g a f = g a' f' → f = f'.
Proof.
  induction archs as [|b archs IH]; intros Hnd Ha Ha' Hf Hf' Hg;
    [by apply elem_of_nil in Ha|].
  simpl in Hnd. apply NoDup_app in Hnd as (Hseg & Hdisj & Hrest).
  assert (∀ a0 f0, a0 ∈ archs → f0 ∈ arts →
                   g a0 f0 ∈ flat_map (fun a => g a <$> arts) archs) as Hin.
  { intros a0 f0 Ha0 Hf0. apply list_elem_of_In, in_flat_map. exists a0.
    split; [by apply list_elem_of_In|]. apply list_elem_of_In. by apply list_elem_of_fmap_2. }
  apply elem_of_cons in Ha as [->|Ha]; apply elem_of_cons in Ha' as [->|Ha'].
  - by eapply NoDup_fmap_inj_on.
  - exfalso. apply (Hdisj (g b f)); [by apply list_elem_of_fmap_2|].
    rewrite Hg. by apply Hin.
  - exfalso. apply (Hdisj (g b f')); [by apply list_elem_of_fmap_2|].
    rewrite <- Hg. by apply Hin.
  - by apply IH.
Qed.

Lemma join_two a x y : join a [x; y] = join (join a [x]) [y].
Proof. reflexivity. Qed.

Section Fanout.

Variable env : Env.
Variable repo_name : string.
Variable arch : Arch.
Variable protected : list string.
Variable archs : list Arch.
Hypothesis archs_spec : ∀ a, a ∈ archs ↔ a = arch ∨ a ∈ ARCHES env.
Hypothesis Hkeep : repo_add_keeps env repo_name archs protected.
Hypothesis Hdb : ∀ a p, a ∈ archs → p ∈ db_paths env repo_name a → p ∉ protected.

Section File.

Variable file : string.
Hypothesis Hcache : ∀ a, a ∈ archs → cache_path env a file ∉ protected.
Hypothesis Hbase : ∀ a, a ∈ archs → basename (repo_path env repo_name a file) = file.
Hypothesis Hprot : ∀ a, a ∈ archs → repo_path env repo_name a file ∈ protected.

(** [add_file_to_repo] on a file that already lies in the repo of [a]. *)
Lemma add_in_place a w u w' :
  a ∈ archs →
  add_file_to_repo env (repo_path env repo_name a file) repo_name a w = Ok (u, w') →
  (∀ p, p ∈ protected → files w' !! p = files w !! p) ∧
  cmds w' = cmds w ++
    [repo_add_cmd (join (config_get_package_dir env a) [repo_name]) repo_name
       (repo_path env repo_name a file)] ∧
  builds w' = builds w.
Proof.
  intros Ha Hrun.
  assert (join (join (config_get_package_dir env a) [repo_name])
               [basename (repo_path env repo_name a file)]
          = repo_path env repo_name a file) as Htarget.
  { rewrite (Hbase a) by done. unfold repo_path. by rewrite join_two. }
  destruct (add_file_to_repo_spec env _ repo_name a protected w u w' Hrun)
    as (Ht & Hf & Hc & Hb).
  - intros fs p Hp. by apply Hkeep.
  - rewrite (Hbase a) by done. by apply Hcache.
  - intros p Hp. by apply (Hdb a).
  - rewrite Htarget. by apply Hprot.
  - rewrite Htarget in Ht, Hf, Hc. split; [|done].
    intros p Hp. destruct (decide (p = repo_path env repo_name a file)) as [->|Hne];
      [done|by apply Hf].
Qed.

Lemma fanout_loop arches : ∀ w u w',
  (∀ ra, ra ∈ arches → ra ∈ ARCHES env) →
  for_each arches
    (fun _ repo_arch =>
       if String.eqb repo_arch arch then mret tt
       else
         let copy_target := join (config_get_package_dir env repo_arch) [repo_name; file] in
         copyfile (repo_path env repo_name arch file) copy_target;;
         add_file_to_repo env copy_target repo_name repo_arch)
    tt w = Ok (u, w') →
  (∀ ra, ra ∈ arches → ra ≠ arch →
     files w' !! repo_path env repo_name ra file
       = files w !! repo_path env repo_name arch file ∧
     is_Some (files w !! repo_path env repo_name arch file) ∧
     repo_add_cmd (join (config_get_package_dir env ra) [repo_name]) repo_name
       (repo_path env repo_name ra file) ∈ cmds w') ∧
  files w' !! repo_path env repo_name arch file
    = files w !! repo_path env repo_name arch file ∧
  (∀ p, p ∈ protected → p ∉ fanout_targets env repo_name arch arches file →
        files w' !! p = files w !! p) ∧
  (∀ c, c ∈ cmds w → c ∈ cmds w') ∧
  builds w' = builds w.
Proof.
  induction arches as [|ra rest IH]; intros w u w' Hsub Hrun.
  - apply ret_Ok_inv in Hrun. simplify_eq.
    split; [intros ra Hra; by apply elem_of_nil in Hra|]. done.
  - simpl in Hrun. apply bind_Ok_inv in Hrun as ([] & w1 & Hbody & Hrest).
    assert (∀ ra', ra' ∈ rest → ra' ∈ ARCHES env) as Hsub'.
    { intros ra' Hra'. apply Hsub. by right. }
    destruct (IH _ _ _ Hsub' Hrest) as (IHA & IHfile & IHB & IHc & IHb).
    destruct (String.eqb ra arch) eqn:E.
    + apply String.eqb_eq in E as ->. apply ret_Ok_inv in Hbody. simplify_eq.
      assert (fanout_targets env repo_name arch (arch :: rest) file
              = fanout_targets env repo_name arch rest file) as Ht.
      { unfold fanout_targets. by rewrite filter_cons_False by (intros H; by apply H). }
      rewrite Ht. split; [|done].
      intros ra' Hra' Hne. apply elem_of_cons in Hra' as [->|Hra']; [done|].
      by apply IHA.
    + assert (ra ≠ arch) as Hne by (intros ->; by rewrite String.eqb_refl in E).
      assert (ra ∈ archs) as Hra by (apply archs_spec; right; apply Hsub; left).
      assert (arch ∈ archs) as Harch by (apply archs_spec; by left).
      apply bind_Ok_inv in Hbody as ([] & w0 & Hcopy & Hadd).
      fold (repo_path env repo_name ra file) in Hcopy, Hadd.
      apply copyfile_Ok_inv in Hcopy as (c & Hc & Hdiff & Hf0 & Hc0 & Hb0).
      destruct (add_in_place ra w0 _ w1 Hra Hadd) as (Hf1 & Hc1 & Hb1).
      assert (files w1 !! repo_path env repo_name ra file = Some c) as Hcopied.
      { rewrite Hf1 by (by apply Hprot). by rewrite Hf0, lookup_insert_eq. }
      assert (∀ p, p ∈ protected → p ≠ repo_path env repo_name ra file →
                   files w1 !! p = files w !! p) as Hframe1.
      { intros p Hp Hpne. rewrite Hf1 by done. rewrite Hf0. by apply lookup_insert_ne. }
      assert (files w1 !! repo_path env repo_name arch file = Some c) as Hfile1.
      { rewrite Hframe1; [done|by apply Hprot|done]. }
      assert (fanout_targets env repo_name arch (ra :: rest) file
              = repo_path env repo_name ra file
                :: fanout_targets env repo_name arch rest file) as Ht.
      { unfold fanout_targets. by rewrite filter_cons_True by done. }
      rewrite Ht.
      assert (∀ cmd, cmd ∈ cmds w1 → cmd ∈ cmds w') as Hmono by done.
      split; [|split; [|split; [|split]]].
      * intros ra' Hra' Hne'. rewrite Hc.
        assert (files w' !! repo_path env repo_name ra' file = Some c ∧
                repo_add_cmd (join (config_get_package_dir env ra') [repo_name]) repo_name
                  (repo_path env repo_name ra' file) ∈ cmds w') as [? ?]; [|done].
        apply elem_of_cons in Hra' as [->|Hra'].
        -- split.
           ++ destruct (decide (repo_path env repo_name ra file
                                ∈ fanout_targets env repo_name arch rest file)) as [Hin|Hnin].
              ** unfold fanout_targets in Hin.
                 apply list_elem_of_fmap in Hin as (ra'' & Heq & Hin).
                 apply list_elem_of_filter in Hin as [Hne'' Hin].
                 destruct (IHA ra'' Hin Hne'') as (Hv & _ & _).
                 rewrite Heq, Hv. done.
              ** rewrite IHB; [done|by apply Hprot|done].
           ++ apply Hmono. rewrite Hc1. apply elem_of_app. right. left.
        -- destruct (IHA ra' Hra' Hne') as (Hv & _ & Hcmd).
           split; [by rewrite Hv|done].
      * rewrite IHfile, Hfile1. done.
      * intros p Hp Hnin. apply not_elem_of_cons in Hnin as [Hpne Hnin].
        rewrite IHB by done. by apply Hframe1.
      * intros cmd Hcmd. apply Hmono. rewrite Hc1, Hc0. apply elem_of_app. by left.
      * congruence.
Qed.

End File.

End Fanout.

Section Publish.

Variable env : Env.
Variable package : Pkgbuild.
Variable arch : Arch.
Variable pkgbuild_dir : string.
Variable arts : list string.

Local Abbreviation archs := (remove_dups (arch :: ARCHES env)).
Local Abbreviation protected := (artifact_paths env (repo package) pkgbuild_dir archs arts).
Local Abbreviation src file := (join pkgbuild_dir [file]).
Local Abbreviation rpath a file := (repo_path env (repo package) a file).
Local Abbreviation add_cmd a file :=
  (repo_add_cmd (join (config_get_package_dir env a) [repo package]) (repo package)
     (rpath a file)).

Hypothesis Hnd : NoDup protected.
Hypothesis Hscratch :
  Forall (fun p => p ∉ protected) (scratch_paths env (repo package) archs arts).
Hypothesis Hbsrc : Forall (fun file => basename (src file) = file) arts.
Hypothesis Hbrepo :
  Forall (fun a => Forall (fun file => basename (rpath a file) = file) arts) archs.
Hypothesis Hkeep : repo_add_keeps env (repo package) archs protected.

Lemma archs_spec a : a ∈ archs ↔ a = arch ∨ a ∈ ARCHES env.
Proof. by rewrite elem_of_remove_dups, elem_of_cons. Qed.

Lemma db_apart a p : a ∈ archs → p ∈ db_paths env (repo package) a → p ∉ protected.
Proof.
  intros Ha Hp. rewrite Forall_forall in Hscratch. apply Hscratch.
  unfold scratch_paths. apply list_elem_of_In, in_flat_map. exists a.
  split; [by apply list_elem_of_In|]. apply list_elem_of_In, elem_of_app. by left.
Qed.

Lemma cache_apart file a : file ∈ arts → a ∈ archs → cache_path env a file ∉ protected.
Proof.
  intros Hf Ha. rewrite Forall_forall in Hscratch. apply Hscratch.
  unfold scratch_paths. apply list_elem_of_In, in_flat_map. exists a.
  split; [by apply list_elem_of_In|]. apply list_elem_of_In, elem_of_app. right.
  by apply list_elem_of_fmap_2.
Qed.

Lemma basename_src_ok file : file ∈ arts → basename (src file) = file.
Proof. intros Hf. rewrite Forall_forall in Hbsrc. by apply Hbsrc. Qed.

Lemma basename_repo_ok file a : file ∈ arts → a ∈ archs → basename (rpath a file) = file.
Proof.
  intros Hf Ha. rewrite Forall_forall in Hbrepo. specialize (Hbrepo a Ha).
  rewrite Forall_forall in Hbrepo. by apply Hbrepo.
Qed.

Lemma src_protected file : file ∈ arts → src file ∈ protected.
Proof.
  intros Hf. unfold artifact_paths. apply elem_of_app. left.
  by apply (list_elem_of_fmap_2 (fun file => join pkgbuild_dir [file])).
Qed.

Lemma repo_protected file a : file ∈ arts → a ∈ archs → rpath a file ∈ protected.
Proof.
  intros Hf Ha. unfold artifact_paths. apply elem_of_app. right.
  apply list_elem_of_In, in_flat_map. exists a.
  split; [by apply list_elem_of_In|]. apply list_elem_of_In. by apply list_elem_of_fmap_2.
Qed.

Lemma src_inj f f' : f ∈ arts → f' ∈ arts → src f = src f' → f = f'.
Proof.
  intros Hf Hf' Heq. unfold artifact_paths in Hnd.
  apply NoDup_app in Hnd as (Hsrc & _ & _).
  by eapply (NoDup_fmap_inj_on (fun file => join pkgbuild_dir [file])).
Qed.

Lemma src_repo_ne f f' a : f ∈ arts → f' ∈ arts → a ∈ archs → src f ≠ rpath a f'.
Proof.
  intros Hf Hf' Ha Heq. unfold artifact_paths in Hnd.
  apply NoDup_app in Hnd as (_ & Hdisj & _).
  apply (Hdisj (src f)).
  - by apply (list_elem_of_fmap_2 (fun file => join pkgbuild_dir [file])).
  - rewrite Heq. apply list_elem_of_In, in_flat_map. exists a.
    split; [by apply list_elem_of_In|]. apply list_elem_of_In. by apply list_elem_of_fmap_2.
Qed.

Lemma repo_inj f f' a a' :
  f ∈ arts → f' ∈ arts → a ∈ archs → a' ∈ archs → rpath a f = rpath a' f' → f = f'.
Proof.
  intros Hf Hf' Ha Ha' Heq. unfold artifact_paths in Hnd.
  apply NoDup_app in Hnd as (_ & _ & Hrepo).
  by eapply (NoDup_flat_map_inj_on (repo_path env (repo package)) archs arts a a').
Qed.

(** One artifact is published: it arrives in the repo of the build arch,
    an any-arch artifact also in the repo of every other arch, each time
    followed by [repo-add]; the artifacts of the other entries are left
    alone. *)
Lemma publish_artifact file listed w listed' w' :
  file ∈ arts → is_artifact file = true →
  publish_file env package arch pkgbuild_dir listed file w = Ok (listed', w') →
  files w' !! rpath arch file = files w !! src file ∧
  add_cmd arch file ∈ cmds w' ∧
  (is_any_arch file = true →
   ∀ ra, ra ∈ ARCHES env → ra ≠ arch →
     files w' !! rpath ra file = files w !! src file ∧
     is_Some (files w !! src file) ∧
     add_cmd ra file ∈ cmds w') ∧
  (∀ p, p ∈ protected → p ≠ src file → (∀ a, a ∈ archs → p ≠ rpath a file) →
        files w' !! p = files w !! p) ∧
  (∀ c, c ∈ cmds w → c ∈ cmds w') ∧
  is_Some (files w !! src file).
Proof.
  intros Hf Hart Hrun. unfold publish_file in Hrun.
  fold (is_artifact file) in Hrun. rewrite Hart in Hrun. cbn [negb] in Hrun.
  apply bind_Ok_inv in Hrun as ([] & w1 & Hadd & Hrun).
  apply bind_Ok_inv in Hrun as ([] & w2 & Hfan & Hrun).
  apply ret_Ok_inv in Hrun. simplify_eq.
  assert (arch ∈ archs) as Harch by (apply archs_spec; by left).
  assert (join (join (config_get_package_dir env arch) [repo package]) [basename (src file)]
          = rpath arch file) as Htarget.
  { rewrite basename_src_ok by done. unfold repo_path. by rewrite join_two. }
  destruct (add_file_to_repo_spec env _ (repo package) arch protected w _ w1 Hadd)
    as (Ht1 & Hf1 & Hc1 & Hb1).
  { intros fs p Hp. by apply Hkeep. }
  { rewrite basename_src_ok by done. by apply cache_apart. }
  { intros p Hp. by apply (db_apart arch). }
  { rewrite Htarget. by apply repo_protected. }
  assert (is_Some (files w !! src file)) as Hsrc.
  { apply (add_file_to_repo_moves _ _ _ _ _ _ _ Hadd). rewrite Htarget.
    by apply src_repo_ne. }
  rewrite Htarget in Ht1, Hf1, Hc1.
  fold (is_any_arch file) in Hfan.
  destruct (is_any_arch file) eqn:Hany.
  - unfold copy_to_other_arches in Hfan.
    destruct (fanout_loop env (repo package) arch protected archs archs_spec Hkeep db_apart
                file (fun a => cache_apart file a Hf) (fun a => basename_repo_ok file a Hf)
                (fun a => repo_protected file a Hf) (ARCHES env) w1 _ w2 (fun _ H => H) Hfan)
      as (HA & Hfile & HB & Hmono & Hb).
    split; [by rewrite Hfile|].
    split; [apply Hmono; rewrite Hc1; apply elem_of_app; right; left|].
    split.
    { intros _ ra Hra Hne. destruct (HA ra Hra Hne) as (Hv & Hsome & Hcmd).
      rewrite Ht1 in Hv, Hsome. done. }
    split.
    { intros p Hp Hsrc' Hrepo. rewrite HB; [by apply Hf1, Hrepo|done|].
      unfold fanout_targets. intros Hin.
      apply list_elem_of_fmap in Hin as (ra & -> & Hin).
      apply list_elem_of_filter in Hin as [_ Hin].
      apply (Hrepo ra); [|done]. apply archs_spec. by right. }
    split; [|done].
    intros c Hc. apply Hmono. rewrite Hc1. apply elem_of_app. by left.
  - apply ret_Ok_inv in Hfan. simplify_eq.
    split; [done|].
    split; [rewrite Hc1; apply elem_of_app; right; left|].
    split; [done|].
    split; [intros p Hp Hsrc' Hrepo; by apply Hf1, Hrepo|].
    split; [|done].
    intros c Hc. rewrite Hc1. apply elem_of_app. by left.
Qed.

(** The commands that publishing one entry starts. *)
Lemma publish_file_log file listed w listed' w' :
  (is_artifact file = true → file ∈ arts) →
  publish_file env package arch pkgbuild_dir listed file w = Ok (listed', w') →
  cmds w' = cmds w ++ published_cmds env (repo package) arch file.
Proof.
  intros Hf Hrun. unfold publish_file in Hrun. unfold published_cmds.
  fold (is_artifact file) in Hrun.
  destruct (is_artifact file) eqn:Hart; cbn [negb] in Hrun.
  2: { apply ret_Ok_inv in Hrun. simplify_eq. by rewrite app_nil_r. }
  specialize (Hf eq_refl).
  apply bind_Ok_inv in Hrun as ([] & w1 & Hadd & Hrun).
  apply bind_Ok_inv in Hrun as ([] & w2 & Hfan & Hrun).
  apply ret_Ok_inv in Hrun. simplify_eq.
  apply add_file_to_repo_log in Hadd.
  rewrite basename_src_ok, <- join_two in Hadd by done.
  fold (is_any_arch file) in Hfan.
  destruct (is_any_arch file) eqn:Hany.
  - unfold copy_to_other_arches in Hfan.
    apply (copy_to_other_arches_log env (repo package) arch file) in Hfan.
    rewrite Hfan, Hadd, <- app_assoc. simpl. do 2 f_equal.
    apply Forall_fmap_ext_1, Forall_forall. intros ra Hra.
    apply list_elem_of_filter in Hra as [_ Hra].
    rewrite basename_repo_ok; [done..|apply archs_spec; by right].
  - apply ret_Ok_inv in Hfan. simplify_eq. by rewrite Hadd.
Qed.

Lemma publish_loop_log todo : ∀ listed w listed' w',
  (∀ f, f ∈ todo → is_artifact f = true → f ∈ arts) →
  for_each todo (publish_file env package arch pkgbuild_dir) listed w = Ok (listed', w') →
  cmds w' = cmds w ++ flat_map (published_cmds env (repo package) arch) todo.
Proof.
  induction todo as [|f rest IH]; intros listed w listed' w' Hsub Hrun.
  - apply ret_Ok_inv in Hrun. simplify_eq. by rewrite app_nil_r.
  - simpl in Hrun. apply bind_Ok_inv in Hrun as (listed1 & w1 & Hbody & Hrest).
    apply IH in Hrest; [|intros f' Hf'; apply Hsub; by right].
    apply publish_file_log in Hbody; [|apply Hsub; left].
    rewrite Hrest, Hbody, <- app_assoc. done.
Qed.

Lemma publish_other file listed w listed' w' :
  is_artifact file = false →
  publish_file env package arch pkgbuild_dir listed file w = Ok (listed', w') →
  w' = w.
Proof.
  intros Hart Hrun. unfold publish_file in Hrun.
  fold (is_artifact file) in Hrun. rewrite Hart in Hrun. cbn [negb] in Hrun.
  apply ret_Ok_inv in Hrun. by simplify_eq.
Qed.

(** The loop over the entries of the recipe's directory. *)
Lemma publish_loop todo : ∀ listed w listed' w',
  NoDup todo →
  (∀ f, f ∈ todo → is_artifact f = true → f ∈ arts) →
  for_each todo (publish_file env package arch pkgbuild_dir) listed w = Ok (listed', w') →
  (∀ f, f ∈ todo → is_artifact f = true →
     is_Some (files w !! src f) ∧
     files w' !! rpath arch f = files w !! src f ∧
     add_cmd arch f ∈ cmds w' ∧
     (is_any_arch f = true →
      ∀ ra, ra ∈ ARCHES env → ra ≠ arch →
        files w' !! rpath ra f = files w !! src f ∧
        is_Some (files w !! src f) ∧
        add_cmd ra f ∈ cmds w')) ∧
  (∀ p, p ∈ protected →
        (∀ f, f ∈ todo → is_artifact f = true →
              p ≠ src f ∧ ∀ a, a ∈ archs → p ≠ rpath a f) →
        files w' !! p = files w !! p) ∧
  (∀ c, c ∈ cmds w → c ∈ cmds w').
Proof.
  induction todo as [|f rest IH]; intros listed w listed' w' Hnd' Hsub Hrun.
  - apply ret_Ok_inv in Hrun. simplify_eq.
    split; [intros f Hf; by apply elem_of_nil in Hf|]. done.
  - simpl in Hrun. apply bind_Ok_inv in Hrun as (listed1 & w1 & Hbody & Hrest).
    apply NoDup_cons in Hnd' as [Hnotin Hnd'].
    assert (∀ f', f' ∈ rest → is_artifact f' = true → f' ∈ arts) as Hsub'.
    { intros f' Hf'. apply Hsub. by right. }
    destruct (IH _ _ _ _ Hnd' Hsub' Hrest) as (IHA & IHF & IHC).
    destruct (is_artifact f) eqn:Hart.
    + assert (f ∈ arts) as Hfa by (apply Hsub; [left|done]).
      destruct (publish_artifact _ _ _ _ _ Hfa Hart Hbody)
        as (Hown & Hcmd & Hany & Hframe & Hmono & Hsome).
      assert (∀ a, a ∈ archs → files w' !! rpath a f = files w1 !! rpath a f) as Hkeep1.
      { intros a Ha. apply IHF; [by apply repo_protected|].
        intros f' Hf' Hart'. split.
        - intros Heq. by apply (src_repo_ne f' f a (Hsub' f' Hf' Hart') Hfa Ha).
        - intros a' Ha' Heq.
          apply (repo_inj f f' a a' Hfa (Hsub' f' Hf' Hart') Ha Ha') in Heq.
          by subst. }
      assert (arch ∈ archs) as Harch by (apply archs_spec; by left).
      split.
      { intros f' Hf' Hart'. apply elem_of_cons in Hf' as [->|Hf'].
        - split; [done|]. split; [by rewrite Hkeep1|]. split; [by apply IHC|].
          intros Hany' ra Hra Hne. destruct (Hany Hany' ra Hra Hne) as (Hv & _ & Hc).
          split; [rewrite Hkeep1; [done|apply archs_spec; by right]|].
          split; [done|by apply IHC].
        - destruct (IHA f' Hf' Hart') as (Hsome' & Hown' & Hcmd' & Hany').
          assert (f' ∈ arts) as Hfa' by (by apply Hsub').
          assert (files w1 !! src f' = files w !! src f') as Hsrc.
          { apply Hframe; [by apply src_protected| |].
            - intros Heq. apply (src_inj f' f Hfa' Hfa) in Heq. by subst.
            - intros a Ha. by apply src_repo_ne. }
          rewrite Hsrc in Hsome', Hown', Hany'. done. }
      split.
      { intros p Hp Hcond. rewrite IHF; [|done|intros f' Hf'; apply Hcond; by right].
        destruct (Hcond f (list_elem_of_here _ _) Hart) as [Hne Hrepo]. by apply Hframe. }
      intros c Hc. by apply IHC, Hmono.
    + apply publish_other in Hbody; [|done]. subst w1.
      split.
      { intros f' Hf' Hart'. apply elem_of_cons in Hf' as [->|Hf']; [congruence|].
        by apply IHA. }
      split; [|done].
      intros p Hp Hcond. apply IHF; [done|]. intros f' Hf'. apply Hcond. by right.
Qed.

End Publish.

End WorldFacts.

Module PublishClaims.
Import PyStr Packages Recipes PublishSpec WorldFacts.

Lemma dir_entries_NoDup env dir w : listdir_valid env → NoDup (dir_entries env dir w).
Proof.
  intros Hl. unfold dir_entries. rewrite (Hl _). apply NoDup_remove_dups.
Qed.

Lemma elem_of_artifacts file entries :
  file ∈ entries → is_artifact file = true → file ∈ List.filter is_artifact entries.
Proof.
  intros Hin Hart. apply list_elem_of_In, filter_In. split; [by apply list_elem_of_In|done].
Qed.


Lemma example_listdir_valid : listdir_valid example_env.
Proof. intros l. reflexivity. Qed.

Lemma tool_layout_ok :
  layout_ok example_env "main" (join (config_get_path example_env "pkgbuilds") [path tool])
    "x86_64"
    (dir_entries example_env (join (config_get_path example_env "pkgbuilds") [path tool])
       built_world).
Proof.
  split.
  - vm_compute. apply (bool_decide_unpack _). vm_compute. exact I.
  - vm_compute artifact_paths. vm_compute scratch_paths.
    apply (bool_decide_unpack _). vm_compute. exact I.
  - vm_compute List.filter. apply (bool_decide_unpack _). vm_compute. exact I.
  - vm_compute List.filter. vm_compute remove_dups.
    apply (bool_decide_unpack _). vm_compute. exact I.
Qed.

Lemma tool_repo_add_keeps :
  repo_add_keeps example_env "main" (remove_dups ("x86_64" :: ARCHES example_env))
    (artifact_paths example_env "main"
       (join (config_get_path example_env "pkgbuilds") [path tool])
       (remove_dups ("x86_64" :: ARCHES example_env))
       (List.filter is_artifact
          (dir_entries example_env (join (config_get_path example_env "pkgbuilds") [path tool])
             built_world))).
Proof.
  intros a target fs p Ha Hp.
  vm_compute remove_dups in Ha. vm_compute artifact_paths in Hp.
  unfold repo_add_cmd.
  cbn [example_env subprocess_run example_subprocess_run config_get_package_dir].
  destruct (fs !! target); [|done]. cbn [snd].
  repeat (apply elem_of_cons in Ha as [->|Ha]); [| |by apply elem_of_nil in Ha];
    (repeat (apply elem_of_cons in Hp as [->|Hp]); [| | |by apply elem_of_nil in Hp]);
    (rewrite !lookup_insert_ne; [done|..]); intros H; vm_compute in H; discriminate.
Qed.


End PublishClaims.

Module FreshnessClaims.
Import PyStr Packages Recipes PublishSpec WorldFacts.

(** [missing] is only ever assigned [False]: a line leaves a cleared
    flag cleared. *)
Lemma check_line_found_stays env package arch try_download line w m w' :
  check_line env package arch try_download false line w = Ok (m, w') → m = false.
Proof.
  unfold check_line. intros H.
  destruct (String.eqb line ""); [apply ret_Ok_inv in H; by simplify_eq|].
  destruct (negb _); [apply ret_Ok_inv in H; by simplify_eq|].
  apply bind_Ok_inv in H as (there & w1 & _ & H).
  apply bind_Ok_inv in H as (got & w2 & _ & H).
  apply bind_Ok_inv in H as (missing1 & w3 & Hm1 & H).
  assert (missing1 = false) as ->.
  { destruct got.
    - apply bind_Ok_inv in Hm1 as ([] & w2' & _ & Hm1). apply ret_Ok_inv in Hm1.
      by simplify_eq.
    - apply ret_Ok_inv in Hm1. by simplify_eq. }
  destruct (endswith _ "any.pkg.tar"); [|apply ret_Ok_inv in H; by simplify_eq].
  apply bind_Ok_inv in H as (there' & w4 & _ & H).
  apply bind_Ok_inv in H as (missing2 & w5 & Hm2 & H).
  assert (missing2 = false) as ->.
  { destruct there'.
    - apply ret_Ok_inv in Hm2. by simplify_eq.
    - apply bind_Ok_inv in Hm2 as (found & w4' & _ & Hm2). apply ret_Ok_inv in Hm2.
      simplify_eq. by destruct found. }
  apply bind_Ok_inv in H as (there2 & w6 & _ & H).
  apply bind_Ok_inv in H as ([] & w7 & _ & H).
  apply ret_Ok_inv in H. by simplify_eq.
Qed.

(** Once one artifact has been found, the lines that follow cannot make
    the recipe count as missing again. *)
Lemma found_once_never_missing env package arch try_download lines : ∀ w m w',
  for_each lines (check_line env package arch try_download) false w = Ok (m, w') →
  m = false.
Proof.
  induction lines as [|line rest IH]; intros w m w' H.
  - apply ret_Ok_inv in H. by simplify_eq.
  - simpl in H. apply bind_Ok_inv in H as (m1 & w1 & Hline & H).
    apply check_line_found_stays in Hline as ->. by eapply IH.
Qed.

(** A package list without a line, which is what a recipe with nothing
    to package gives, counts as not built. *)
Lemma empty_package_list_is_unbuilt env package arch try_download w files1 :
  makepkg_packagelist env package arch (files w) = (files1, 0%Z, "") →
  check_package_version_built env package arch try_download w
  = Ok (false, {| files := files1; cmds := cmds w; builds := builds w |}).
Proof. unfold check_package_version_built. by intros ->. Qed.

(** With [try_download] set, the first artifact that is not in the repo
    ends the check with the [TypeError] of [try_download_package]. *)
Lemma download_attempt_raises :
  check_package_version_built split_env libfoo "x86_64" true split_world
  = Raise (TypeError "get_kupfer_https() got an unexpected keyword argument 'scan'").
Proof. vm_compute. reflexivity. Qed.

(** C1 (freshness of a recipe): the package list of libfoo names the
    artifacts of libfoo and of libfoo-docs; the repo holds the first and
    no repo of any arch holds the second, before the check and after it.
    [check_package_version_built] returns true all the same: the one
    artifact that was found clears [missing], and nothing sets it
    again. *)
Theorem missing_artifact_goes_unnoticed :
  split "
" (makepkg_packagelist split_env libfoo "x86_64" (files split_world)).2
  = ["/var/pkgbuilds/main/libfoo/" +:+ libfoo_artifact;
     "/var/pkgbuilds/main/libfoo/" +:+ libfoo_docs_artifact; ""] ∧
  is_artifact libfoo_docs_artifact = true ∧
  ∃ w',
    check_package_version_built split_env libfoo "x86_64" false split_world = Ok (true, w') ∧
    ∀ a, a ∈ ARCHES split_env →
      files split_world !! repo_path split_env (repo libfoo) a libfoo_docs_artifact = None ∧
      files w' !! repo_path split_env (repo libfoo) a libfoo_docs_artifact = None.
Proof.
  split; [vm_compute; reflexivity|]. split; [vm_compute; reflexivity|].
  destruct (check_package_version_built split_env libfoo "x86_64" false split_world)
    as [[b w']| |] eqn:E; [|vm_compute in E; discriminate..].
  exists w'.
  assert (b = true ∧
          files w' !! "/var/packages/x86_64/main/libfoo-docs-1.0-1-x86_64.pkg.tar.zst" = None ∧
          files w' !! "/var/packages/aarch64/main/libfoo-docs-1.0-1-x86_64.pkg.tar.zst" = None)
    as (-> & Hx & Ha).
  { vm_compute in E. injection E as <- <-. repeat split; vm_compute; reflexivity. }
  split; [done|].
  intros a Ha'. vm_compute ARCHES in Ha'.
  repeat (apply elem_of_cons in Ha' as [->|Ha']); [| |by apply elem_of_nil in Ha'].
  - split; [vm_compute; reflexivity|exact Hx].
  - split; [vm_compute; reflexivity|exact Ha].
Qed.

End FreshnessClaims.
(** * Further facts about the solver *)

Module PlanFacts.
Import PyStr Packages RegistrySpec DictFacts ChainSpec ChainFacts PlanSpec.

Section Loop.

Variable iter : gset ref → list ref.
Variable heap : Heap.
Variable package_repo : Dict.dict ref.
Hypothesis iter_ok : iter_valid iter.

Lemma size_pos_L (X : gset ref) : X ≠ ∅ → 0 < size X.
Proof.
  intros H. assert (size X ≠ 0); [|lia].
  apply size_non_empty_iff. intros E. apply H. by apply leibniz_equiv.
Qed.

Lemma union_step (pre : list (gset ref)) X nxt M :
  M ⊆ X → ⋃ (pre ++ [X ∖ M; M ∪ nxt]) = ⋃ (pre ++ [X; nxt]).
Proof.
  intros Hsub. rewrite !union_list_app_L. f_equal. simpl.
  apply set_eq. intros x. destruct (decide (x ∈ M)); set_solver.
Qed.

Lemma union_snoc_empty (L : list (gset ref)) : ⋃ (L ++ [∅]) = ⋃ L.
Proof. rewrite union_list_app_L. simpl. set_solver. Qed.

(** The loop moves recipes between levels and neither adds nor drops one. *)
Lemma while_loop_union fuel : ∀ level repeat_count last st result,
  loop_inv heap package_repo level st →
  while_loop iter heap package_repo fuel level repeat_count last st = Ok result →
  ⋃ result = ⋃ (dep_levels st).
Proof.
  induction fuel as [|fuel IH]; intros level rc last st result Hinv Hrun.
  - destruct Hinv as (pre & X & nxt & Hshape & <- & Hcl & Hord & Hdis).
    rewrite while_loop_unfold, Hshape, lookup_shape_cur in Hrun.
    destruct (bool_decide (X = ∅)); [|done].
    injection Hrun as <-. by rewrite <- Hshape.
  - pose proof Hinv as (pre & X & nxt & Hshape & <- & Hcl & Hord & Hdis).
    rewrite (while_loop_step iter heap package_repo iter_ok fuel pre X nxt rc last st Hshape Hinv)
      in Hrun.
    destruct (bool_decide (X = ∅)); [by injection Hrun as <-|].
    destruct (100 <? length pre); [done|].
    cbv zeta in Hrun.
    destruct (10 <? _); [done|].
    destruct (bool_decide (movers heap X ≠ ∅)).
    + apply IH in Hrun; [|by apply loop_inv_same].
      rewrite Hrun, Hshape. simpl. apply union_step, movers_subseteq.
    + apply IH in Hrun; [|by apply loop_inv_next].
      rewrite Hrun, Hshape. simpl. rewrite union_snoc_empty.
      apply union_step, movers_subseteq.
Qed.

Lemma passes_left_same a b a' b' :
  a' < a → a' + b' ≤ a + b → passes_left a' b' < passes_left a b.
Proof. unfold passes_left. nia. Qed.

Lemma passes_left_next a b : 0 < a → passes_left b 0 < passes_left a b.
Proof. unfold passes_left. nia. Qed.

(** With passes enough for the recipes on the current and the next
    level, the loop ends: with the levels, or because level 100 is
    passed. The cycle check never fires. *)
Lemma while_loop_ends fuel : ∀ pre X nxt repeat_count last st,
  dep_levels st = pre ++ [X; nxt] →
  loop_inv heap package_repo (length pre) st →
  repeat_ok repeat_count last X →
  passes_left (size X) (size nxt) ≤ fuel →
  ends_well (while_loop iter heap package_repo fuel (length pre) repeat_count last st).
Proof.
  induction fuel as [|fuel IH]; intros pre X nxt rc last st Hshape Hinv Hrc Hfuel.
  - rewrite while_loop_unfold, Hshape, lookup_shape_cur.
    destruct (decide (X = ∅)) as [->|Hne].
    + rewrite bool_decide_eq_true_2 by done. left. eauto.
    + exfalso. apply size_pos_L in Hne. unfold passes_left in Hfuel. lia.
  - rewrite (while_loop_step iter heap package_repo iter_ok fuel pre X nxt rc last st Hshape Hinv).
    destruct (decide (X = ∅)) as [->|Hne].
    { rewrite bool_decide_eq_true_2 by done. left. eauto. }
    rewrite bool_decide_eq_false_2 by done.
    destruct (100 <? length pre); [right; by right|].
    cbv zeta.
    pose proof (movers_subseteq heap X) as Hsub.
    assert (X ## nxt) as HXn.
    { destruct Hinv as (pre' & X' & nxt' & Hshape' & Hlen & _ & _ & Hdis).
      apply (Hdis (length pre) (S (length pre))); [lia|..];
        rewrite Hshape; [apply lookup_shape_cur|apply lookup_shape_nxt]. }
    destruct (decide (movers heap X = ∅)) as [HM|HM].
    + (* nothing moves: on to the next level *)
      rewrite HM.
      assert (X ∖ ∅ = X) as -> by set_solver.
      assert (∅ ∪ nxt = nxt) as -> by set_solver.
      rewrite (bool_decide_eq_false_2 (∅ ≠ ∅)) by (intros H; by apply H).
      assert ((if bool_decide (last = Some X) then S rc else 0) ≤ 1) as Hle.
      { destruct (bool_decide (last = Some X)) eqn:E; [|lia].
        apply bool_decide_eq_true in E. subst last. simpl in Hrc.
        destruct Hrc as [[_ ->]|(_ & Hdisj & _)]; [lia|].
        exfalso. apply Hne. set_solver. }
      destruct (10 <? _) eqn:E10; [apply Nat.ltb_lt in E10; lia|].
      replace (S (length pre)) with (length (pre ++ [X]))
        by (rewrite length_app; simpl; lia).
      apply (IH (pre ++ [X]) nxt ∅).
      * simpl. by rewrite <- !app_assoc.
      * pose proof (loop_inv_next heap package_repo pre X nxt st false Hshape Hinv) as Hn.
        rewrite HM in Hn.
        assert (X ∖ ∅ = X) as HX by set_solver.
        assert (∅ ∪ nxt = nxt) as Hn' by set_solver.
        rewrite HX, Hn' in Hn.
        rewrite length_app. simpl. replace (length pre + 1) with (S (length pre)) by lia.
        exact Hn.
      * simpl. right. split; [done|]. split; [done|exact Hle].
      * rewrite size_empty.
        pose proof (passes_left_next (size X) (size nxt)) as Hlt.
        apply size_pos_L in Hne. lia.
    + (* some recipes move: another pass over what stays *)
      rewrite (bool_decide_eq_true_2 (movers heap X ≠ ∅)) by done.
      assert ((if bool_decide (last = Some (X ∖ movers heap X)) then S rc else 0) = 0) as ->.
      { rewrite bool_decide_eq_false_2; [done|].
        intros ->. simpl in Hrc. destruct Hrc as [[Heq _]|(Hne' & Hdisj & _)].
        - apply HM. set_solver.
        - apply Hne'. set_solver. }
      simpl.
      apply (IH pre (X ∖ movers heap X) (movers heap X ∪ nxt)).
      * done.
      * by apply loop_inv_same.
      * simpl. by left.
      * assert (size (X ∖ movers heap X) < size X).
        { rewrite size_difference by done. apply size_pos_L in HM.
          pose proof (subseteq_size _ _ Hsub). lia. }
        assert (size (X ∖ movers heap X) + size (movers heap X ∪ nxt) ≤ size X + size nxt).
        { rewrite size_difference by done. rewrite size_union by set_solver.
          pose proof (subseteq_size _ _ Hsub). lia. }
        pose proof (passes_left_same (size X) (size nxt) (size (X ∖ movers heap X))
                      (size (movers heap X ∪ nxt))). lia.
Qed.

End Loop.

Section Fill.

Variable heap : Heap.
Variable package_repo : Dict.dict ref.

Local Abbreviation dep_step rec :=
  (fun acc dep_name =>
     bind acc (fun st =>
       if bool_decide (dep_name ∈ visited_names (seen st)) then Ok st
       else match Dict.get package_repo dep_name with
            | None => Ok st
            | Some dep_pkg =>
                rec dep_pkg
                  (consume heap dep_pkg
                     {| dep_levels := dep_levels st;
                        seen := visit heap dep_pkg (seen st);
                        modified := modified st |})
            end)).

Lemma init_inv_add R T st p :
  p ∈ T → init_inv heap R T st →
  init_inv heap ({[p]} ∪ R) T
    {| dep_levels := level_add 0 p (dep_levels st);
       seen := visit heap p (seen st); modified := modified st |}.
Proof.
  intros Hp (A & Hshape & HS & HT & Hnames).
  exists ({[p]} ∪ A). simpl. rewrite Hshape. split; [done|].
  split; [set_solver|]. split; [set_solver|].
  intros d Hd. apply elem_of_union in Hd as [Hd|Hd].
  - exists p. split; [set_solver|]. unfold names. set_solver.
  - destruct (Hnames d Hd) as (q & Hq & Hdq). exists q. split; [set_solver|done].
Qed.

Lemma init_inv_weaken R R' T st : R' ⊆ R → init_inv heap R T st → init_inv heap R' T st.
Proof.
  intros Hsub (A & Hshape & HS & HT & Hnames). exists A. repeat split; try done. set_solver.
Qed.

Lemma init_inv_consume R T st p :
  p ∈ T → init_inv heap R T st →
  init_inv heap R T
    (consume heap p {| dep_levels := dep_levels st; seen := visit heap p (seen st);
                       modified := modified st |}).
Proof.
  intros Hp (A & Hshape & HS & HT & Hnames).
  exists ({[p]} ∪ A). simpl. rewrite Hshape. split; [done|].
  split; [set_solver|]. split; [set_solver|].
  intros d Hd. rewrite !elem_of_union in Hd. destruct Hd as [Hd|[Hd|Hd]].
  - exists p. split; [set_solver|]. unfold names. set_solver.
  - exists p. split; [set_solver|]. unfold names. set_solver.
  - destruct (Hnames d Hd) as (q & Hq & Hdq). exists q. split; [set_solver|done].
Qed.

Lemma fold_dep_step_inv (rec : ref → Levels → result Levels) R T :
  (∀ r, r ∈ Dict.values package_repo → r ∈ T) →
  (∀ package st st', init_inv heap R T st → rec package st = Ok st' → init_inv heap R T st') →
  ∀ ds st st', init_inv heap R T st →
    fold_left (dep_step rec) ds (Ok st) = Ok st' → init_inv heap R T st'.
Proof.
  intros HT Hrec. induction ds as [|d ds IH]; intros st st' Hinv Hrun.
  - simpl in Hrun. by injection Hrun as <-.
  - simpl in Hrun.
    destruct (bool_decide (d ∈ visited_names (seen st))); [by eapply IH|].
    destruct (Dict.get package_repo d) as [dep_pkg|] eqn:Hget; [|by eapply IH].
    destruct (fold_dep_step_Ok heap package_repo rec ds _ st' Hrun) as [st3 Hst3].
    rewrite Hst3 in Hrun. eapply IH; [|exact Hrun].
    eapply Hrec; [|exact Hst3].
    apply init_inv_consume; [|done]. apply HT. by eapply get_Some_values.
Qed.

Lemma get_recursive_dependencies_inv R T limit :
  (∀ r, r ∈ Dict.values package_repo → r ∈ T) →
  ∀ package st st', init_inv heap R T st →
    get_recursive_dependencies heap package_repo limit package st = Ok st' →
    init_inv heap R T st'.
Proof.
  intros HT. induction limit as [|limit IH]; intros package st st' Hinv Hrun; [done|].
  simpl in Hrun. by eapply (fold_dep_step_inv _ R T HT IH).
Qed.

Lemma init_fold_Raise limit to_build e :
  fold_left (init_package heap package_repo limit) to_build (Raise e) = Raise e.
Proof. induction to_build as [|p l IH]; simpl; [done|exact IH]. Qed.

Lemma init_fold_OutOfFuel limit to_build :
  fold_left (init_package heap package_repo limit) to_build OutOfFuel = OutOfFuel.
Proof. induction to_build as [|p l IH]; simpl; [done|exact IH]. Qed.

Lemma init_fold_inv T limit to_build :
  (∀ r, r ∈ Dict.values package_repo → r ∈ T) →
  ∀ R st st', (∀ p, p ∈ to_build → p ∈ T) → init_inv heap R T st →
    fold_left (init_package heap package_repo limit) to_build (Ok st) = Ok st' →
    init_inv heap (R ∪ list_to_set to_build) T st'.
Proof.
  intros HT. induction to_build as [|p to_build IH]; intros R st st' Hin Hinv Hrun.
  - simpl in Hrun. injection Hrun as <-. eapply init_inv_weaken; [|done]. set_solver.
  - simpl in Hrun.
    destruct (get_recursive_dependencies heap package_repo limit p _) as [st1| |] eqn:Hst1.
    2: by rewrite init_fold_Raise in Hrun.
    2: by rewrite init_fold_OutOfFuel in Hrun.
    apply (get_recursive_dependencies_inv ({[p]} ∪ R) T limit HT) in Hst1.
    2:{ apply init_inv_add; [|done]. apply Hin. left. }
    apply (IH ({[p]} ∪ R)) in Hrun; [|intros q Hq; apply Hin; by right|done].
    eapply init_inv_weaken; [|exact Hrun]. set_solver.
Qed.

(** Level 0 when the loop starts: the requested recipes and recipes of
    the registry, and every visited name is a name of one of them. *)
Lemma init_levels_cover limit to_build st :
  init_levels heap package_repo limit to_build = Ok st →
  init_inv heap (list_to_set to_build)
    (list_to_set to_build ∪ list_to_set (Dict.values package_repo)) st.
Proof.
  unfold init_levels. intros Hrun.
  assert (∀ r, r ∈ Dict.values package_repo →
               r ∈@{gset ref} list_to_set to_build ∪ list_to_set (Dict.values package_repo))
    as HT by set_solver.
  apply (init_fold_inv _ limit to_build HT ∅) in Hrun.
  - eapply init_inv_weaken; [|exact Hrun]. set_solver.
  - intros p Hp. set_solver.
  - exists ∅. simpl. repeat split; set_solver.
Qed.

(** Filling level 0 ends with a state or with the stack exhausted. *)
Lemma fold_dep_step_ends (rec : ref → Levels → result Levels) :
  (∀ package st, ends_well (rec package st) ∧
                 ∀ e, rec package st = Raise e → e = RecursionError) →
  ∀ ds r, ((∃ st, r = Ok st) ∨ r = Raise RecursionError) →
    (∃ st, fold_left (dep_step rec) ds r = Ok st) ∨
    fold_left (dep_step rec) ds r = Raise RecursionError.
Proof.
  intros Hrec. induction ds as [|d ds IH]; intros r Hr; [done|].
  simpl. apply IH. destruct Hr as [[st ->]| ->]; [|by right]. simpl.
  destruct (bool_decide (d ∈ visited_names (seen st))); [left; eauto|].
  destruct (Dict.get package_repo d) as [dep_pkg|]; [|left; eauto].
  destruct (Hrec dep_pkg (consume heap dep_pkg
              {| dep_levels := dep_levels st; seen := visit heap dep_pkg (seen st);
                 modified := modified st |})) as [[[st' H]|[H|H]] He].
  - left. eauto.
  - by right.
  - apply He in H as H'. done.
Qed.

Lemma get_recursive_dependencies_ends limit : ∀ package st,
  (∃ st', get_recursive_dependencies heap package_repo limit package st = Ok st') ∨
  get_recursive_dependencies heap package_repo limit package st = Raise RecursionError.
Proof.
  induction limit as [|limit IH]; intros package st; [by right|].
  simpl. apply fold_dep_step_ends; [|left; eauto].
  intros p st0. destruct (IH p st0) as [[st' H]|H]; rewrite H.
  - split; [left; eauto|done].
  - split; [right; by left|]. by intros e [= <-].
Qed.

Lemma init_levels_ends limit to_build :
  (∃ st, init_levels heap package_repo limit to_build = Ok st) ∨
  init_levels heap package_repo limit to_build = Raise RecursionError.
Proof.
  unfold init_levels.
  generalize {| dep_levels := [∅; ∅];
                seen := {| visited := ∅; visited_names := ∅ |}; modified := false |}.
  assert (∀ r : result Levels, ((∃ st, r = Ok st) ∨ r = Raise RecursionError) →
            (∃ st, fold_left (init_package heap package_repo limit) to_build r = Ok st) ∨
            fold_left (init_package heap package_repo limit) to_build r = Raise RecursionError)
    as H.
  { induction to_build as [|p to_build IH]; intros r Hr; [done|].
    simpl. apply IH. destruct Hr as [[st ->]| ->]; [|by right]. simpl.
    apply get_recursive_dependencies_ends. }
  intros r. apply H. left. eauto.
Qed.

End Fill.

Lemma union_list_filter_nonempty (L : list (gset ref)) :
  ⋃ (filter (fun lvl => lvl ≠ ∅) L) = ⋃ L.
Proof.
  induction L as [|X L IH]; [done|].
  rewrite filter_cons. destruct (decide (X ≠ ∅)) as [Hne|He]; simpl; rewrite IH; [done|].
  apply dec_stable in He. subst X. set_solver.
Qed.

Lemma build_order_union L : ⋃ (build_order L) = ⋃ L.
Proof.
  unfold build_order. rewrite union_list_filter_nonempty.
  apply leibniz_equiv, union_list_reverse.
Qed.

Lemma build_order_nonempty L X : X ∈ build_order L → X ≠ ∅.
Proof. unfold build_order. intros H. by apply list_elem_of_filter in H as [? _]. Qed.

Lemma build_order_disjoint L : pairwise_disjoint L → pairwise_disjoint (build_order L).
Proof.
  intros Hdis i j Li Lj Hne Hi Hj.
  destruct (decide (i < j)) as [Hlt|Hge].
  - destruct (build_order_lookup L i j Li Lj Hlt Hi Hj) as (a & b & Hba & Ha & Hb).
    apply (Hdis a b); [lia|done|done].
  - destruct (build_order_lookup L j i Lj Li) as (a & b & Hba & Ha & Hb); [lia|done|done|].
    symmetry. apply (Hdis a b); [lia|done|done].
Qed.

Lemma size_list_to_set_le (l : list ref) : size (list_to_set l : gset ref) ≤ length l.
Proof.
  induction l as [|x l IH]; [by rewrite list_to_set_nil, size_empty|].
  rewrite list_to_set_cons. cbn [length].
  pose proof (size_union_alt ({[x]} : gset ref) (list_to_set l)) as H.
  rewrite H, size_singleton.
  assert (list_to_set l ∖ {[x]} ⊆@{gset ref} list_to_set l) as Hsub by set_solver.
  apply subseteq_size in Hsub. lia.
Qed.

Lemma chain_Ok_inv iter heap package_repo limit fuel to_build plan :
  generate_dependency_chain iter heap package_repo limit fuel to_build = Ok plan →
  ∃ st L, init_levels heap package_repo limit to_build = Ok st ∧
          while_loop iter heap package_repo fuel 0 0 None st = Ok L ∧
          plan = build_order L.
Proof.
  unfold generate_dependency_chain.
  destruct (init_levels heap package_repo limit to_build) as [st| |]; simpl; [|done|done].
  destruct (while_loop iter heap package_repo fuel 0 0 None st) as [L| |] eqn:HL;
    simpl; [|done|done].
  intros [= <-]. by exists st, L.
Qed.

(** The recipes of a plan are the recipes of level 0 as the loop found it. *)
Lemma chain_planned iter heap package_repo limit fuel to_build plan :
  iter_valid iter → registry_keys_named heap package_repo →
  generate_dependency_chain iter heap package_repo limit fuel to_build = Ok plan →
  ∃ st A, init_levels heap package_repo limit to_build = Ok st ∧
          dep_levels st = [A; ∅] ∧ planned plan = A.
Proof.
  intros Hiter Hkeys Hrun.
  apply chain_Ok_inv in Hrun as (st & L & Hinit & Hloop & ->).
  pose proof (init_levels_inv heap package_repo Hkeys limit to_build st Hinit) as Hinv.
  destruct (init_levels_cover heap package_repo limit to_build st Hinit)
    as (A & Hshape & _).
  exists st, A. split; [done|]. split; [done|].
  unfold planned. rewrite build_order_union.
  rewrite (while_loop_union iter heap package_repo Hiter fuel 0 0 None st L Hinv Hloop).
  rewrite Hshape. simpl. set_solver.
Qed.

End PlanFacts.

Module PlanTheorems.
Import PyStr Packages RegistrySpec DictFacts ChainSpec ChainFacts PlanSpec PlanFacts Recipes
  RegistryFacts SolverClaims.

Lemma chain_plan_example :
  generate_dependency_chain elements (heap_of chain_recipes) (registry_of chain_recipes)
    1000 1000 [0] = Ok [{[2]}; {[1]}; {[0]}].
Proof. vm_compute. reflexivity. Qed.

(** X1: on a registry as discovery builds it, and with passes enough
    for the recipes at hand, the solver ends, whatever the order in
    which the sets are run through: with a plan, with the stack
    exhausted while the dependencies are collected, or with the
    100-levels error. It never raises the dependency-cycle error and
    never runs without end. *)
Theorem solver_ends iter heap registry limit fuel to_build :
  iter_valid iter → registry_keys_named heap registry →
  fuel_bound (length to_build + length registry) ≤ fuel →
  ends_well (generate_dependency_chain iter heap registry limit fuel to_build).
Proof.
  intros Hiter Hkeys Hfuel. unfold generate_dependency_chain.
  destruct (init_levels_ends heap registry limit to_build) as [[st Hinit]|Hinit];
    rewrite Hinit; simpl; [|right; by left].
  pose proof (init_levels_inv heap registry Hkeys limit to_build st Hinit) as Hinv.
  destruct (init_levels_cover heap registry limit to_build st Hinit)
    as (A & Hshape & _ & HT & _).
  assert (passes_left (size A) (size (∅ : gset ref)) ≤ fuel) as Hpasses.
  { rewrite size_empty. unfold passes_left.
    assert (size A ≤ length to_build + length registry) as Hsize.
    { etrans; [apply (subseteq_size _ _ HT)|].
      rewrite size_union_alt.
      pose proof (size_list_to_set_le to_build).
      pose proof (size_list_to_set_le (Dict.values registry)).
      assert (length (Dict.values registry) = length registry) as Hlen
        by (unfold Dict.values; by rewrite length_fmap).
      assert (list_to_set (Dict.values registry) ∖ list_to_set to_build
              ⊆@{gset ref} list_to_set (Dict.values registry)) as Hsub by set_solver.
      apply subseteq_size in Hsub. lia. }
    unfold fuel_bound in Hfuel. nia. }
  destruct (while_loop_ends iter heap registry Hiter fuel [] A ∅ 0 None st Hshape Hinv
              eq_refl Hpasses) as [[L HL]|[HL|HL]]; simpl in HL; rewrite HL; simpl.
  - left. eauto.
  - right. by left.
  - right. by right.
Qed.

Lemma solver_ends_witness :
  ends_well (generate_dependency_chain elements (heap_of chain_recipes)
               (registry_of chain_recipes) 1000 1000 [0]).
Proof.
  apply solver_ends.
  - apply iter_valid_elements.
  - apply registry_of_keys_named.
  - vm_compute. lia.
Defined.

(** X2: the levels of a plan are not empty and no recipe is on two of
    them. *)
Theorem plan_levels_partition iter heap registry limit fuel to_build plan :
  iter_valid iter → registry_keys_named heap registry →
  generate_dependency_chain iter heap registry limit fuel to_build = Ok plan →
  (∀ L, L ∈ plan → L ≠ ∅) ∧ pairwise_disjoint plan.
Proof.
  intros Hiter Hkeys Hrun.
  apply chain_Ok_inv in Hrun as (st & L & Hinit & Hloop & ->).
  pose proof (init_levels_inv heap registry Hkeys limit to_build st Hinit) as Hinv.
  destruct (while_loop_good iter heap registry Hiter fuel 0 0 None st L Hinv Hloop) as [_ Hdis].
  split; [intros X; apply build_order_nonempty|by apply build_order_disjoint].
Qed.

Lemma plan_levels_partition_witness :
  (∀ L, L ∈ [{[2]}; {[1]}; {[0]}] → L ≠@{gset ref} ∅) ∧
  pairwise_disjoint [{[2]}; {[1]}; {[0]}].
Proof.
  apply (plan_levels_partition elements (heap_of chain_recipes) (registry_of chain_recipes)
           1000 1000 [0]).
  - apply iter_valid_elements.
  - apply registry_of_keys_named.
  - apply chain_plan_example.
Defined.

(** X3: a plan holds every requested recipe, and beside them only
    recipes that the registry holds. *)
Theorem plan_covers_request iter heap registry limit fuel to_build plan :
  iter_valid iter → registry_keys_named heap registry →
  generate_dependency_chain iter heap registry limit fuel to_build = Ok plan →
  (∀ p, p ∈ to_build → p ∈ planned plan) ∧
  (∀ p, p ∈ planned plan → p ∈ to_build ∨ p ∈ Dict.values registry).
Proof.
  intros Hiter Hkeys Hrun.
  destruct (chain_planned iter heap registry limit fuel to_build plan Hiter Hkeys Hrun)
    as (st & A & Hinit & Hshape & ->).
  destruct (init_levels_cover heap registry limit to_build st Hinit)
    as (A' & Hshape' & HS & HT & _).
  rewrite Hshape in Hshape'. injection Hshape' as <-.
  split.
  - intros p Hp. apply HS. by apply elem_of_list_to_set.
  - intros p Hp. apply HT in Hp. set_solver.
Qed.

Lemma plan_covers_request_witness :
  (∀ p, p ∈ [0] → p ∈ planned [{[2]}; {[1]}; {[0]}]) ∧
  (∀ p, p ∈ planned [{[2]}; {[1]}; {[0]}] →
        p ∈ [0] ∨ p ∈ Dict.values (registry_of chain_recipes)).
Proof.
  apply (plan_covers_request elements (heap_of chain_recipes) (registry_of chain_recipes)
           1000 1000 [0]).
  - apply iter_valid_elements.
  - apply registry_of_keys_named.
  - apply chain_plan_example.
Defined.

(** X4: a plan is closed under dependencies by name: a dependency of a
    planned recipe is unknown to the registry or is a name of some
    planned recipe. *)
Theorem plan_closed_under_dependencies iter heap registry limit fuel to_build plan :
  iter_valid iter → registry_keys_named heap registry →
  generate_dependency_chain iter heap registry limit fuel to_build = Ok plan →
  ∀ q d, q ∈ planned plan → d ∈ depends (deref heap q) →
         Dict.get registry d = None ∨ ∃ p, p ∈ planned plan ∧ d ∈ names (deref heap p).
Proof.
  intros Hiter Hkeys Hrun q d Hq Hd.
  destruct (chain_planned iter heap registry limit fuel to_build plan Hiter Hkeys Hrun)
    as (st & A & Hinit & Hshape & HA).
  rewrite HA in Hq |- *.
  destruct (init_levels_cover heap registry limit to_build st Hinit)
    as (A' & Hshape' & _ & _ & Hnames).
  rewrite Hshape in Hshape'. injection Hshape' as <-.
  destruct (init_levels_inv heap registry Hkeys limit to_build st Hinit)
    as (pre & cur & nxt & _ & _ & Hcl & _).
  assert (closed_pkg heap registry (seen st) q) as Hclq.
  { apply (Hcl A); [rewrite Hshape; left|done]. }
  destruct (Hclq d Hd) as [Hv|Hn]; [right; by apply Hnames|by left].
Qed.

Lemma plan_closed_under_dependencies_witness :
  Dict.get (registry_of chain_recipes) "b" = None ∨
  ∃ p, p ∈ planned [{[2]}; {[1]}; {[0]}] ∧ "b" ∈ names (deref (heap_of chain_recipes) p).
Proof.
  apply (plan_closed_under_dependencies elements (heap_of chain_recipes)
           (registry_of chain_recipes) 1000 1000 [0] [{[2]}; {[1]}; {[0]}]
           iter_valid_elements (registry_of_keys_named chain_recipes) chain_plan_example 0).
  - apply (bool_decide_unpack _). vm_compute. exact I.
  - apply (bool_decide_unpack _). vm_compute. exact I.
Defined.



End PlanTheorems.

(** * Facts about dependants *)

Module DependantFacts.
Import PyStr Packages RegistrySpec DictFacts ChainSpec ChainFacts PlanningFacts SelectionClaims
  DependantSpec Recipes RegistryFacts SolverClaims.

Section Dependants.

Variable iter : gset ref → list ref.
Variable heap : Heap.
Variable repo : Dict.dict ref.
Hypothesis iter_ok : iter_valid iter.

Lemma direct_is_dependant packages r :
  r ∈ direct_dependants heap repo packages → name_dependant heap repo packages r.
Proof.
  intros (Hr & d & p & Hd & Hp & ->)%direct_dependants_spec. by eapply nd_direct.
Qed.

Lemma dependant_direct packages r p :
  r ∈ Dict.values repo → p ∈ packages → name (deref heap p) ∈ depends (deref heap r) →
  r ∈ direct_dependants heap repo packages.
Proof. intros Hr Hp Hd. apply direct_dependants_spec. split; [done|]. eauto. Qed.

Lemma name_dependant_trans packages packages' r :
  (∀ p, p ∈ packages' → name_dependant heap repo packages p) →
  name_dependant heap repo packages' r → name_dependant heap repo packages r.
Proof.
  intros Hsub Hr. induction Hr as [r p Hr Hp Hd|r p Hr Hp IH Hd].
  - eapply nd_step; [done|by apply Hsub|done].
  - eapply nd_step; [done|exact IH|done].
Qed.

(** A dependant is found in the first step or is a dependant of what
    the first step finds. *)
Lemma name_dependant_next packages r :
  name_dependant heap repo packages r →
  r ∈ direct_dependants heap repo packages ∨
  name_dependant heap repo (iter (direct_dependants heap repo packages)) r.
Proof.
  intros Hr. induction Hr as [r p Hr Hp Hd|r p Hr Hp IH Hd].
  - left. by eapply dependant_direct.
  - right. destruct IH as [IH|IH].
    + eapply nd_direct; [done| |done]. by apply (elem_of_iter iter iter_ok).
    + by eapply nd_step.
Qed.

Lemma get_dependants_spec limit : ∀ packages D,
  get_dependants iter heap repo limit packages true = Ok D →
  ∀ r, r ∈ D ↔ name_dependant heap repo packages r.
Proof.
  induction limit as [|limit IH]; intros packages D Hrun r; [done|].
  rewrite get_dependants_S in Hrun. cbv zeta in Hrun.
  destruct (decide (direct_dependants heap repo packages = ∅)) as [He|Hne].
  - rewrite (bool_decide_eq_true_2 _ He) in Hrun. simpl in Hrun. injection Hrun as <-.
    rewrite He. split; [set_solver|].
    intros Hr. apply name_dependant_next in Hr as [Hr|Hr]; [by rewrite He in Hr|].
    rewrite He in Hr. exfalso.
    induction Hr as [r p Hr Hp Hd|r p Hr Hp IH' Hd]; [|done].
    apply (elem_of_iter iter iter_ok) in Hp. set_solver.
  - rewrite (bool_decide_eq_false_2 _ Hne) in Hrun. simpl in Hrun.
    destruct (get_dependants iter heap repo limit _ true) as [more| |] eqn:Hmore;
      simpl in Hrun; [|done|done].
    injection Hrun as <-. specialize (IH _ _ Hmore).
    rewrite elem_of_union, IH. split.
    + intros [Hr|Hr]; [by apply direct_is_dependant|].
      eapply name_dependant_trans; [|exact Hr].
      intros p Hp. apply direct_is_dependant. by apply (elem_of_iter iter iter_ok).
    + intros Hr. apply name_dependant_next in Hr. tauto.
Qed.

Lemma dependant_direct_nonempty packages r :
  name_dependant heap repo packages r → direct_dependants heap repo packages ≠ ∅.
Proof.
  intros Hr. induction Hr as [r p Hr Hp Hd|r p Hr Hp IH Hd]; [|done].
  pose proof (dependant_direct packages r p Hr Hp Hd). set_solver.
Qed.

Lemma get_dependants_cycle_raises C limit : ∀ packages,
  dependant_cycle heap repo C →
  (∃ c, c ∈ C ∧ (c ∈ packages ∨ name_dependant heap repo packages c)) →
  get_dependants iter heap repo limit packages true = Raise RecursionError.
Proof.
  induction limit as [|limit IH]; intros packages Hcyc (c & Hc & Hreach); [done|].
  rewrite get_dependants_S. cbv zeta.
  assert (∃ c', c' ∈ C ∧ (c' ∈ direct_dependants heap repo packages ∨
            name_dependant heap repo (iter (direct_dependants heap repo packages)) c'))
    as (c' & Hc' & Hnext).
  { destruct Hreach as [Hin|Hdep].
    - destruct (Hcyc c Hc) as (_ & c' & Hc' & Hd). exists c'. split; [done|]. left.
      apply (dependant_direct packages c' c); [by apply Hcyc|done|done].
    - exists c. split; [done|]. by apply name_dependant_next. }
  assert (direct_dependants heap repo packages ≠ ∅) as Hne.
  { destruct Hnext as [Hin|Hdep]; [set_solver|].
    intros He. rewrite He in Hdep. apply dependant_direct_nonempty in Hdep.
    apply Hdep. apply set_eq. intros x. rewrite direct_dependants_spec.
    split; [|set_solver]. intros (_ & d & p & _ & Hp & _).
    apply (elem_of_iter iter iter_ok) in Hp. set_solver. }
  rewrite (bool_decide_eq_false_2 _ Hne). simpl.
  rewrite (IH (iter (direct_dependants heap repo packages)) Hcyc); [done|].
  exists c'. split; [done|]. destruct Hnext as [Hin|Hdep]; [left|by right].
  by apply (elem_of_iter iter iter_ok).
Qed.

End Dependants.

End DependantFacts.

Module DependantTheorems.
Import PyStr Packages RegistrySpec DictFacts ChainSpec ChainFacts PlanningFacts
  DependantSpec DependantFacts Recipes RegistryFacts SolverClaims.

(** X6: when [get_dependants] returns, it returns exactly the recipes of
    the registry that depend, directly or through other recipes, on the
    [name] of one of the given recipes. *)
Theorem get_dependants_is_closure iter heap repo limit packages D :
  iter_valid iter →
  get_dependants iter heap repo limit packages true = Ok D →
  ∀ r, r ∈ D ↔ name_dependant heap repo packages r.
Proof. intros Hiter. by apply get_dependants_spec. Qed.

Lemma get_dependants_is_closure_witness :
  0 ∈ ({[1; 0]} : gset ref) ↔
  name_dependant (heap_of chain_recipes) (registry_of chain_recipes) [2] 0.
Proof.
  apply (get_dependants_is_closure elements (heap_of chain_recipes)
           (registry_of chain_recipes) 1000 [2] {[1; 0]}).
  - apply iter_valid_elements.
  - vm_compute. reflexivity.
Defined.

(** X7: when the given recipes have, directly or through other recipes,
    a dependant that lies on a cycle of dependencies by name,
    [get_dependants] calls itself until the stack is exhausted,
    whatever depth is allowed. *)
Theorem get_dependants_cycle_exhausts_stack iter heap repo limit packages C c :
  iter_valid iter →
  dependant_cycle heap repo C →
  c ∈ C → c ∈ packages ∨ name_dependant heap repo packages c →
  get_dependants iter heap repo limit packages true = Raise RecursionError.
Proof.
  intros Hiter Hcyc Hc Hreach.
  apply (get_dependants_cycle_raises iter heap repo Hiter C); eauto.
Qed.

Lemma get_dependants_cycle_exhausts_stack_witness :
  get_dependants elements (heap_of cycle_recipes) (registry_of cycle_recipes) 1000 [0] true
  = Raise RecursionError.
Proof.
  apply (get_dependants_cycle_exhausts_stack elements (heap_of cycle_recipes)
           (registry_of cycle_recipes) 1000 [0] {[0; 1]} 0).
  - apply iter_valid_elements.
  - intros c Hc. apply elem_of_union in Hc as [Hc|Hc]; apply elem_of_singleton in Hc; subst c.
    + split; [vm_compute; set_solver|]. exists 1. split; [set_solver|]. vm_compute. set_solver.
    + split; [vm_compute; set_solver|]. exists 0. split; [set_solver|]. vm_compute. set_solver.
  - set_solver.
  - left. set_solver.
Defined.

End DependantTheorems.

(** * Facts about local dependencies *)

Module LocalDependsFacts.
Import PyStr Packages RegistrySpec DictFacts DiscoverFacts RegistryFacts LocalDependsSpec.

Lemma occurrences_cons (v x : string) l :
  occurrences v (x :: l) = (if decide (x = v) then 1 else 0) + occurrences v l.
Proof. unfold occurrences. rewrite filter_cons. by destruct (decide (x = v)). Qed.

Lemma list_remove_occurrences d v l :
  occurrences v (list_remove d l)
  = if decide (d = v) then pred (occurrences v l) else occurrences v l.
Proof.
  induction l as [|y l IH]; simpl.
  - by destruct (decide (d = v)).
  - destruct (String.eqb d y) eqn:E.
    + apply String.eqb_eq in E as <-. rewrite occurrences_cons.
      destruct (decide (d = v)); simpl; lia.
    + apply String.eqb_neq in E. rewrite !occurrences_cons, IH.
      destruct (decide (d = v)) as [->|Hne]; [|done].
      rewrite decide_False by done. simpl. done.
Qed.

Lemma list_remove_filter (f : string → bool) d l :
  f d = false → List.filter f (list_remove d l) = List.filter f l.
Proof.
  intros Hd. induction l as [|y l IH]; simpl; [done|].
  destruct (String.eqb d y) eqn:E.
  - apply String.eqb_eq in E as <-. by rewrite Hd.
  - simpl. by rewrite IH.
Qed.

Lemma filter_all (f : string → bool) l :
  (∀ v, f v = false → occurrences v l = 0) → List.filter f l = l.
Proof.
  induction l as [|y l IH]; intros H; simpl; [done|].
  destruct (f y) eqn:E.
  - f_equal. apply IH. intros v Hv. specialize (H v Hv).
    rewrite occurrences_cons in H. lia.
  - specialize (H y E). rewrite occurrences_cons, decide_True in H by done. lia.
Qed.

(** [local_depends] after the loop over [depends]: every dependency that
    is not found is removed as often as it occurs. *)
Lemma remove_unfound (f : string → bool) ds : ∀ l,
  (∀ v, f v = false → occurrences v l ≤ occurrences v ds) →
  fold_left (fun local dep => if f dep then local else list_remove dep local) ds l
  = List.filter f l.
Proof.
  induction ds as [|d ds IH]; intros l H; simpl.
  - symmetry. apply filter_all. intros v Hv. specialize (H v Hv).
    unfold occurrences in H at 2. simpl in H. lia.
  - destruct (f d) eqn:E.
    + apply IH. intros v Hv. specialize (H v Hv). rewrite occurrences_cons in H.
      rewrite decide_False in H by congruence. done.
    + rewrite IH; [by apply list_remove_filter|].
      intros v Hv. specialize (H v Hv). rewrite occurrences_cons in H.
      rewrite list_remove_occurrences.
      destruct (decide (d = v)); simpl in *; lia.
Qed.

Lemma names_set_local_depends p l : names (set_local_depends p l) = names p.
Proof. reflexivity. Qed.

Lemma set_local_depends_twice p l l' :
  set_local_depends (set_local_depends p l) l' = set_local_depends p l'.
Proof. reflexivity. Qed.

Lemma same_but_local_deref results heap r :
  same_but_local results heap →
  ∃ l, deref heap r = set_local_depends (deref results r) l.
Proof.
  intros [Hlen H]. unfold deref.
  destruct (results !! r) as [q|] eqn:E.
  - destruct (H r q E) as [l Hl]. exists l.
    by rewrite (list_lookup_total_correct _ _ _ E), (list_lookup_total_correct _ _ _ Hl).
  - exists []. apply lookup_ge_None in E.
    rewrite !list_lookup_total_alt.
    rewrite (proj2 (lookup_ge_None results r)) by done.
    rewrite (proj2 (lookup_ge_None heap r)) by lia.
    reflexivity.
Qed.

Lemma found_same_but_local results heap packages dep :
  same_but_local results heap → found heap packages dep = found results packages dep.
Proof.
  intros H. unfold found. f_equal.
  induction (Dict.values packages) as [|r l IH]; cbn [existsb]; [done|].
  rewrite IH. f_equal.
  destruct (same_but_local_deref results heap r H) as [l' ->]. done.
Qed.

Lemma remove_unfound_ext (f g : string → bool) ds : ∀ l,
  (∀ d, f d = g d) →
  fold_left (fun local dep => if f dep then local else list_remove dep local) ds l
  = fold_left (fun local dep => if g dep then local else list_remove dep local) ds l.
Proof.
  induction ds as [|d ds IH]; intros l H; simpl; [done|]. rewrite H. by apply IH.
Qed.

Lemma filter_local_depends_step results packages heap i :
  same_but_local results heap →
  filter_local_depends packages heap i
  = <[i := set_local_depends (deref results i)
             (resolvable_depends results packages (deref results i))]> heap.
Proof.
  intros H. unfold filter_local_depends, resolvable_depends.
  destruct (same_but_local_deref results heap i H) as [l Hl]. rewrite Hl.
  rewrite set_local_depends_twice. cbn [depends set_local_depends]. f_equal. f_equal.
  rewrite <- (remove_unfound (found results packages) (depends (deref results i)));
    [|done].
  apply remove_unfound_ext. intros d. by apply found_same_but_local.
Qed.

Lemma same_but_local_refl results : same_but_local results results.
Proof.
  split; [done|]. intros j q Hj. exists (local_depends q). by rewrite set_local_depends_same.
Qed.

Lemma same_but_local_insert results heap i l :
  same_but_local results heap →
  same_but_local results (<[i := set_local_depends (deref results i) l]> heap).
Proof.
  intros [Hlen H]. split; [by rewrite length_insert|].
  intros j q Hj. destruct (decide (i = j)) as [->|Hne].
  - exists l. unfold deref. rewrite (list_lookup_total_correct _ _ _ Hj).
    apply list_lookup_insert_eq. apply lookup_lt_Some in Hj. lia.
  - rewrite list_lookup_insert_ne by done. by apply H.
Qed.

(** The loop over [packages.values()]: the recipes it comes to get
    their [local_depends], the others stay as parsed. *)
Lemma local_depends_pass results packages refs : ∀ heap seen,
  same_but_local results heap →
  (∀ j q, results !! j = Some q →
     heap !! j = Some (if bool_decide (j ∈ seen)
                       then set_local_depends q (resolvable_depends results packages q)
                       else q)) →
  ∀ j q, results !! j = Some q →
    fold_left (filter_local_depends packages) refs heap !! j
    = Some (if bool_decide (j ∈ seen ++ refs)
            then set_local_depends q (resolvable_depends results packages q)
            else q).
Proof.
  induction refs as [|r refs IH]; intros heap seen Hsame Hinv j q Hj.
  - simpl. rewrite app_nil_r. by apply Hinv.
  - simpl. rewrite (filter_local_depends_step results packages heap r Hsame).
    rewrite (bool_decide_ext (j ∈ seen ++ r :: refs) (j ∈ (seen ++ [r]) ++ refs))
      by (by rewrite <- app_assoc).
    apply IH; [by apply same_but_local_insert| |done].
    clear j q Hj. intros j q Hj.
    destruct (decide (r = j)) as [->|Hne].
    + rewrite list_lookup_insert_eq
        by (destruct Hsame as [-> _]; by apply lookup_lt_Some in Hj).
      unfold deref. rewrite (list_lookup_total_correct _ _ _ Hj).
      rewrite bool_decide_eq_true_2; [done|]. apply elem_of_app. right. left.
    + rewrite list_lookup_insert_ne by done. rewrite (Hinv j q Hj).
      rewrite (bool_decide_ext (j ∈ seen ++ [r]) (j ∈ seen)); [done|].
      rewrite elem_of_app, list_elem_of_singleton.
      split; [|tauto]. intros [?|?]; [done|congruence].
Qed.

End LocalDependsFacts.

Module LocalDependsTheorems.
Import PyStr Packages RegistrySpec DictFacts DiscoverFacts RegistryFacts LocalDependsSpec
  LocalDependsFacts Recipes.

(** X8: after [discover_packages], the [local_depends] of a recipe that
    the registry holds are its [depends], in their order, without those
    that are neither a key of the registry nor a name of a recipe in it;
    nothing else of the recipe changes, and a recipe that lost all its
    keys stays as parsed. *)
Theorem local_depends_are_the_resolvable_depends results i p :
  results !! i = Some p →
  heap_of results !! i
  = Some (if bool_decide (i ∈ Dict.values (registry_of results))
          then set_local_depends p (resolvable_depends results (registry_of results) p)
          else p).
Proof.
  intros Hi. unfold heap_of, registry_of, discover_packages.
  destruct (build_dictionary results) as [packages log]. simpl.
  apply (local_depends_pass results packages (Dict.values packages) results []
           (same_but_local_refl results)); [|done].
  intros j q Hj. by rewrite bool_decide_eq_false_2 by (apply not_elem_of_nil).
Qed.

Lemma local_depends_are_the_resolvable_depends_witness :
  heap_of [recipe "a" ["b"; "libc"; "b"] [] []; recipe "b" [] [] []] !! 0
  = Some (set_local_depends (recipe "a" ["b"; "libc"; "b"] [] []) ["b"; "b"]).
Proof.
  apply (local_depends_are_the_resolvable_depends
           [recipe "a" ["b"; "libc"; "b"] [] []; recipe "b" [] [] []] 0).
  reflexivity.
Defined.

End LocalDependsTheorems.

(** * Further facts about publishing *)

Module PublishFacts.
Import PyStr Packages Recipes PublishSpec PlanningFacts WorldFacts PublishClaims.

Lemma NoDup_flat_map_outer_inj_on {A B C} (g : A → B → C) (archs : list A) (arts : list B)
    a a' f :
  NoDup (flat_map (fun a => g a <$> arts) archs) →
  a ∈ archs → a' ∈ archs → f ∈ arts → g a f = g a' f → a = a'.
Proof.
  induction archs as [|b archs IH]; intros Hnd Ha Ha' Hf Hg;
    [by apply elem_of_nil in Ha|].
  simpl in Hnd. apply NoDup_app in Hnd as (Hseg & Hdisj & Hrest).
  assert (∀ a0, a0 ∈ archs → g a0 f ∈ flat_map (fun a => g a <$> arts) archs) as Hin.
  { intros a0 Ha0. apply list_elem_of_In, in_flat_map. exists a0.
    split; [by apply list_elem_of_In|]. apply list_elem_of_In. by apply list_elem_of_fmap_2. }
  assert (g b f ∈ g b <$> arts) as Hb by (by apply list_elem_of_fmap_2).
  apply elem_of_cons in Ha as [->|Ha]; apply elem_of_cons in Ha' as [->|Ha']; try done.
  - exfalso. apply (Hdisj (g b f) Hb). rewrite Hg. by apply Hin.
  - exfalso. apply (Hdisj (g b f) Hb). rewrite <- Hg. by apply Hin.
  - by apply IH.
Qed.

(** What [add_package_to_repo] returns: the place in the repo of the
    build arch of every artifact entry, in the order of the listing. *)
Lemma publish_loop_listed env package arch pkgbuild_dir todo : ∀ listed w listed' w',
  for_each todo (publish_file env package arch pkgbuild_dir) listed w = Ok (listed', w') →
  listed' = listed ++ (repo_path env (repo package) arch <$> List.filter is_artifact todo).
Proof.
  induction todo as [|f rest IH]; intros listed w listed' w' Hrun.
  - apply ret_Ok_inv in Hrun. simplify_eq. by rewrite app_nil_r.
  - simpl in Hrun. apply bind_Ok_inv in Hrun as (listed1 & w1 & Hbody & Hrest).
    apply IH in Hrest. subst listed'. simpl.
    unfold publish_file in Hbody. fold (is_artifact f) in Hbody.
    destruct (is_artifact f); cbn [negb] in Hbody.
    + apply bind_Ok_inv in Hbody as ([] & w2 & _ & Hbody).
      apply bind_Ok_inv in Hbody as ([] & w3 & _ & Hbody).
      apply ret_Ok_inv in Hbody. simplify_eq. by rewrite <- app_assoc.
    + apply ret_Ok_inv in Hbody. by simplify_eq.
Qed.

(** [add_file_to_repo] moves: once it is through, the file is no longer
    where it was. *)
Lemma add_file_to_repo_source_gone env file_path repo_name a (protected : list string) w u w' :
  add_file_to_repo env file_path repo_name a w = Ok (u, w') →
  (∀ files p, p ∈ protected →
     (subprocess_run env None
        (repo_add_cmd (join (config_get_package_dir env a) [repo_name]) repo_name
           (join (join (config_get_package_dir env a) [repo_name]) [basename file_path]))
        files).2 !! p = files !! p) →
  cache_path env a (basename file_path) ∉ protected →
  (∀ p, p ∈ db_paths env repo_name a → p ∉ protected) →
  file_path ∈ protected →
  file_path ≠ join (join (config_get_package_dir env a) [repo_name]) [basename file_path] →
  files w' !! file_path = None.
Proof.
  unfold add_file_to_repo.
  set (repo_dir := join (config_get_package_dir env a) [repo_name]).
  set (target := join repo_dir [basename file_path]).
  intros H Hrun Hcache Hdb Hprot Hne.
  apply bind_Ok_inv in H as ([] & w1 & H1 & H).
  apply bind_Ok_inv in H as (cached & w1' & [-> ->]%exists_Ok_inv & H).
  apply bind_Ok_inv in H as ([] & w2 & H2 & H).
  apply bind_Ok_inv in H as (rc & w3 & (Hf3 & Hrc & Hc3 & Hb3)%run_Ok_inv & H).
  destruct (negb (rc =? 0)%Z); [done|].
  apply db_fixups_quiet in H as (Hf4 & Hc4 & Hb4).
  assert (files w1 !! file_path = None) as Hgone.
  { apply String.eqb_neq in Hne. rewrite Hne in H1.
    apply bind_Ok_inv in H1 as ([] & w0 & Hcopy & Hunlink).
    apply unlink_Ok_inv in Hunlink as (Hf1 & _). rewrite Hf1. apply lookup_delete_eq. }
  assert (quiet [cache_path env a (basename file_path)] w1 w2) as (Hf2 & Hc2 & Hb2).
  { destruct (bool_decide _).
    - by eapply unlink_quiet.
    - apply ret_Ok_inv in H2. simplify_eq. apply quiet_refl. }
  rewrite Hf4 by (intros Hin; by apply (Hdb file_path)).
  rewrite Hf3, Hrun by done. rewrite Hf2; [done|].
  intros Hin. apply list_elem_of_singleton in Hin. apply Hcache. by rewrite <- Hin.
Qed.

Section More.

Variable env : Env.
Variable package : Pkgbuild.
Variable arch : Arch.
Variable pkgbuild_dir : string.
Variable arts : list string.

Local Abbreviation archs := (remove_dups (arch :: ARCHES env)).
Local Abbreviation protected := (artifact_paths env (repo package) pkgbuild_dir archs arts).
Local Abbreviation src file := (join pkgbuild_dir [file]).
Local Abbreviation rpath a file := (repo_path env (repo package) a file).

Hypothesis Hnd : NoDup protected.
Hypothesis Hscratch :
  Forall (fun p => p ∉ protected) (scratch_paths env (repo package) archs arts).
Hypothesis Hbsrc : Forall (fun file => basename (src file) = file) arts.
Hypothesis Hbrepo :
  Forall (fun a => Forall (fun file => basename (rpath a file) = file) arts) archs.
Hypothesis Hkeep : repo_add_keeps env (repo package) archs protected.

Lemma repo_arch_inj f a a' : f ∈ arts → a ∈ archs → a' ∈ archs → rpath a f = rpath a' f → a = a'.
Proof.
  intros Hf Ha Ha' Heq. pose proof Hnd as Hnd'. unfold artifact_paths in Hnd'.
  apply NoDup_app in Hnd' as (_ & _ & Hrepo).
  by eapply (NoDup_flat_map_outer_inj_on (repo_path env (repo package)) archs arts a a' f).
Qed.

(** An artifact is gone from the recipe's directory once it is published,
    and an artifact of one arch touches the repo of that arch only. *)
Lemma publish_artifact_moves file listed w listed' w' :
  file ∈ arts → is_artifact file = true →
  publish_file env package arch pkgbuild_dir listed file w = Ok (listed', w') →
  files w' !! src file = None ∧
  (is_any_arch file = false →
   ∀ p, p ∈ protected → p ≠ src file → p ≠ rpath arch file → files w' !! p = files w !! p).
Proof.
  intros Hf Hart Hrun. unfold publish_file in Hrun.
  fold (is_artifact file) in Hrun. rewrite Hart in Hrun. cbn [negb] in Hrun.
  apply bind_Ok_inv in Hrun as ([] & w1 & Hadd & Hrun).
  apply bind_Ok_inv in Hrun as ([] & w2 & Hfan & Hrun).
  apply ret_Ok_inv in Hrun. simplify_eq.
  assert (arch ∈ archs) as Harch by (apply (archs_spec env arch); by left).
  pose proof (basename_src_ok pkgbuild_dir arts Hbsrc file Hf) as Hbase.
  assert (join (join (config_get_package_dir env arch) [repo package]) [basename (src file)]
          = rpath arch file) as Htarget.
  { rewrite Hbase. unfold repo_path. by rewrite join_two. }
  pose proof (db_apart env package arch pkgbuild_dir arts Hscratch) as Hdb.
  pose proof (cache_apart env package arch pkgbuild_dir arts Hscratch file) as Hcache.
  pose proof (src_protected env package arch pkgbuild_dir arts file Hf) as Hsrcp.
  pose proof (repo_protected env package arch pkgbuild_dir arts file) as Hrepop.
  pose proof (src_repo_ne env package arch pkgbuild_dir arts Hnd file file arch Hf Hf Harch)
    as Hsr.
  assert (files w1 !! src file = None) as Hgone.
  { apply (add_file_to_repo_source_gone env _ (repo package) arch protected w _ w1 Hadd).
    - intros fs p Hp. by apply Hkeep.
    - rewrite Hbase. by apply Hcache.
    - intros p Hp. by apply (Hdb arch).
    - done.
    - by rewrite Htarget. }
  destruct (add_file_to_repo_spec env _ (repo package) arch protected w _ w1 Hadd)
    as (Ht1 & Hf1 & Hc1 & Hb1).
  { intros fs p Hp. by apply Hkeep. }
  { rewrite Hbase. by apply Hcache. }
  { intros p Hp. by apply (Hdb arch). }
  { rewrite Htarget. by apply Hrepop. }
  rewrite Htarget in Ht1, Hf1, Hc1.
  fold (is_any_arch file) in Hfan.
  destruct (is_any_arch file) eqn:Hany.
  - split; [|done]. unfold copy_to_other_arches in Hfan.
    destruct (fanout_loop env (repo package) arch protected archs (archs_spec env arch) Hkeep Hdb
                file (fun a => Hcache a Hf)
                (fun a => basename_repo_ok env package arch arts Hbrepo file a Hf)
                (fun a => Hrepop a Hf) (ARCHES env) w1 _ w2 (fun _ H => H) Hfan)
      as (_ & _ & HB & _ & _).
    rewrite HB; [done|done|].
    unfold fanout_targets. intros Hin.
    apply list_elem_of_fmap in Hin as (ra & Heq & Hin).
    apply list_elem_of_filter in Hin as [_ Hin].
    apply (src_repo_ne env package arch pkgbuild_dir arts Hnd file file ra Hf Hf); [|done].
    apply (archs_spec env arch). by right.
  - apply ret_Ok_inv in Hfan. simplify_eq. split; [done|].
    intros _ p Hp Hps Hpr. by apply Hf1.
Qed.

Lemma publish_loop_moves todo : ∀ listed w listed' w',
  NoDup todo →
  (∀ f, f ∈ todo → is_artifact f = true → f ∈ arts) →
  for_each todo (publish_file env package arch pkgbuild_dir) listed w = Ok (listed', w') →
  ∀ f, f ∈ todo → is_artifact f = true →
    files w' !! src f = None ∧
    (is_any_arch f = false →
     ∀ ra, ra ∈ archs → ra ≠ arch → files w' !! rpath ra f = files w !! rpath ra f).
Proof.
  induction todo as [|f0 rest IH]; intros listed w listed' w' Hnd' Hsub Hrun f Hf Hart;
    [by apply elem_of_nil in Hf|].
  simpl in Hrun. apply bind_Ok_inv in Hrun as (listed1 & w1 & Hbody & Hrest).
  apply NoDup_cons in Hnd' as [Hnotin Hnd'].
  assert (∀ f', f' ∈ rest → is_artifact f' = true → f' ∈ arts) as Hsub'.
  { intros f' Hf'. apply Hsub. by right. }
  assert (f ∈ arts) as Hfa by (by apply Hsub).
  assert (arch ∈ archs) as Harch by (apply (archs_spec env arch); by left).
  destruct (publish_loop env package arch pkgbuild_dir arts Hnd Hscratch Hbsrc Hbrepo Hkeep
              rest listed1 w1 listed' w' Hnd' Hsub' Hrest) as (_ & Hframe & _).
  apply elem_of_cons in Hf as [->|Hf].
  - (* the entry itself, then the entries after it *)
    destruct (publish_artifact_moves f0 listed w listed1 w1 Hfa Hart Hbody) as [Hgone Hspec].
    assert (∀ p, p ∈ protected → (p = src f0 ∨ ∃ a, a ∈ archs ∧ p = rpath a f0) →
                 files w' !! p = files w1 !! p) as Hlater.
    { intros p Hp Hcase. apply Hframe; [done|]. intros f' Hf' Hart'.
      assert (f' ∈ arts) as Hfa' by (by apply Hsub').
      assert (f0 ≠ f') as Hne by (intros ->; done).
      destruct Hcase as [->|(a & Ha & ->)].
      - split.
        + intros Heq. by apply (src_inj env package arch pkgbuild_dir arts Hnd f0 f') in Heq.
        + intros a Ha. by apply (src_repo_ne env package arch pkgbuild_dir arts Hnd).
      - split.
        + intros Heq. symmetry in Heq.
          by apply (src_repo_ne env package arch pkgbuild_dir arts Hnd f' f0 a) in Heq.
        + intros a' Ha' Heq.
          by apply (repo_inj env package arch pkgbuild_dir arts Hnd f0 f' a a') in Heq. }
    split.
    + rewrite Hlater; [done| |by left].
      by apply (src_protected env package arch pkgbuild_dir arts).
    + intros Hany ra Hra Hne.
      assert (rpath ra f0 ∈ protected) as Hp
        by (by apply (repo_protected env package arch pkgbuild_dir arts)).
      rewrite Hlater; [|done|right; eauto].
      apply Hspec; [done|done| |].
      * intros Heq. symmetry in Heq.
        by apply (src_repo_ne env package arch pkgbuild_dir arts Hnd f0 f0 ra) in Heq.
      * intros Heq. by apply repo_arch_inj in Heq.
  - (* an entry further on: what comes before it leaves its places alone *)
    destruct (IH _ _ _ _ Hnd' Hsub' Hrest f Hf Hart) as [Hgone Hspec].
    split; [done|]. intros Hany ra Hra Hne. rewrite (Hspec Hany ra Hra Hne).
    assert (f0 ≠ f) as Hne0 by (intros ->; done).
    destruct (is_artifact f0) eqn:Hart0.
    + assert (f0 ∈ arts) as Hfa0 by (apply Hsub; [left|done]).
      destruct (publish_artifact env package arch pkgbuild_dir arts Hnd Hscratch Hbsrc Hbrepo
                  Hkeep f0 listed w listed1 w1 Hfa0 Hart0 Hbody) as (_ & _ & _ & Hfr & _).
      apply Hfr.
      * by apply (repo_protected env package arch pkgbuild_dir arts).
      * intros Heq. symmetry in Heq.
        by apply (src_repo_ne env package arch pkgbuild_dir arts Hnd f0 f ra) in Heq.
      * intros a Ha Heq.
        by apply (repo_inj env package arch pkgbuild_dir arts Hnd f f0 ra a) in Heq.
    + apply (publish_other env package arch pkgbuild_dir) in Hbody; [|done].
      by subst w1.
Qed.

End More.

End PublishFacts.

Module PublishTheorems.
Import PyStr Packages Recipes MoreExamples PublishSpec PlanningFacts WorldFacts PublishClaims
  PublishFacts.

Lemma libfoo_layout_ok :
  layout_ok example_env "main" (join (config_get_path example_env "pkgbuilds") [path libfoo])
    "x86_64"
    (dir_entries example_env (join (config_get_path example_env "pkgbuilds") [path libfoo])
       built_libfoo_world).
Proof.
  split.
  - vm_compute. apply (bool_decide_unpack _). vm_compute. exact I.
  - vm_compute artifact_paths. vm_compute scratch_paths.
    apply (bool_decide_unpack _). vm_compute. exact I.
  - vm_compute List.filter. apply (bool_decide_unpack _). vm_compute. exact I.
  - vm_compute List.filter. vm_compute remove_dups.
    apply (bool_decide_unpack _). vm_compute. exact I.
Qed.

Lemma libfoo_repo_add_keeps :
  repo_add_keeps example_env "main" (remove_dups ("x86_64" :: ARCHES example_env))
    (artifact_paths example_env "main"
       (join (config_get_path example_env "pkgbuilds") [path libfoo])
       (remove_dups ("x86_64" :: ARCHES example_env))
       (List.filter is_artifact
          (dir_entries example_env
             (join (config_get_path example_env "pkgbuilds") [path libfoo])
             built_libfoo_world))).
Proof.
  intros a target fs p Ha Hp.
  vm_compute remove_dups in Ha. vm_compute artifact_paths in Hp.
  unfold repo_add_cmd.
  cbn [example_env subprocess_run example_subprocess_run config_get_package_dir].
  destruct (fs !! target); [|done]. cbn [snd].
  repeat (apply elem_of_cons in Ha as [->|Ha]); [| |by apply elem_of_nil in Ha];
    (repeat (apply elem_of_cons in Hp as [->|Hp]); [| | |by apply elem_of_nil in Hp]);
    (rewrite !lookup_insert_ne; [done|..]); intros H; vm_compute in H; discriminate.
Qed.





(** X11: an artifact that is not any-arch reaches the repo of the build
    arch only: in the repo of every other arch the file of its name is
    what it was before. *)
Theorem arch_specific_artifact_stays_in_its_arch env package arch w listed w' file repo_arch :
  let pkgbuild_dir := join (config_get_path env "pkgbuilds") [path package] in
  let entries := dir_entries env pkgbuild_dir w in
  let archs := remove_dups (arch :: ARCHES env) in
  listdir_valid env →
  layout_ok env (repo package) pkgbuild_dir arch entries →
  repo_add_keeps env (repo package) archs
    (artifact_paths env (repo package) pkgbuild_dir archs (List.filter is_artifact entries)) →
  add_package_to_repo env package arch w = Ok (listed, w') →
  file ∈ entries → is_artifact file = true → is_any_arch file = false →
  repo_arch ∈ ARCHES env → repo_arch ≠ arch →
  files w' !! repo_path env (repo package) repo_arch file
  = files w !! repo_path env (repo package) repo_arch file.
Proof.
  intros pkgbuild_dir entries archs Hl [Hnd Hscratch Hbsrc Hbrepo] Hkeep Hrun Hin Hart Hany
    Hra Hne.
  unfold add_package_to_repo in Hrun. fold pkgbuild_dir in Hrun.
  apply bind_Ok_inv in Hrun as (entries' & w0 & Hlist & Hrun).
  unfold listdir in Hlist. injection Hlist as <- <-. fold entries in Hrun.
  destruct (publish_loop_moves env package arch pkgbuild_dir (List.filter is_artifact entries)
              Hnd Hscratch Hbsrc Hbrepo Hkeep entries [] w listed w'
              (dir_entries_NoDup _ _ _ Hl) (fun f Hf Ha => elem_of_artifacts f entries Hf Ha)
              Hrun file Hin Hart) as [_ Hspec].
  apply Hspec; [done| |done]. apply (archs_spec env arch). by right.
Qed.

Lemma arch_specific_artifact_stays_in_its_arch_witness :
  files published_libfoo_world
    !! repo_path example_env (repo libfoo) "aarch64" libfoo_artifact
  = files built_libfoo_world
    !! repo_path example_env (repo libfoo) "aarch64" libfoo_artifact.
Proof.
  apply (arch_specific_artifact_stays_in_its_arch example_env libfoo "x86_64"
           built_libfoo_world ["/var/packages/x86_64/main/libfoo-1.0-1-x86_64.pkg.tar.zst"]
           published_libfoo_world libfoo_artifact "aarch64"
           example_listdir_valid libfoo_layout_ok libfoo_repo_add_keeps).
  - vm_compute. reflexivity.
  - vm_compute. left.
  - reflexivity.
  - reflexivity.
  - vm_compute. right. left.
  - discriminate.
Defined.



End PublishTheorems.

(** * Facts about the local repos *)

Module PrebuiltsFacts.
Import PyStr Packages Recipes PublishSpec PlanningFacts WorldFacts PrebuiltsSpec.

Lemma keeps_files_refl w : keeps_files w w.
Proof. done. Qed.

Lemma keeps_files_trans w1 w2 w3 : keeps_files w1 w2 → keeps_files w2 w3 → keeps_files w1 w3.
Proof. intros [H1 Hb1] [H2 Hb2]. split; [auto|congruence]. Qed.

(** A loop whose every turn succeeds, keeps the files and leaves its
    targets in place leaves the targets of all its turns in place. *)
Lemma for_each_ensures {A} (targets : A → list string) (body : unit → A → M unit) l :
  (∀ x w, x ∈ l → ∃ w', body tt x w = Ok (tt, w') ∧ keeps_files w w' ∧
                         ∀ p, p ∈ targets x → is_Some (files w' !! p)) →
  ∀ w, ∃ w', for_each l body tt w = Ok (tt, w') ∧ keeps_files w w' ∧
             ∀ x p, x ∈ l → p ∈ targets x → is_Some (files w' !! p).
Proof.
  induction l as [|x l IH]; intros Hbody w.
  - exists w. split; [done|]. split; [done|]. intros x p Hx. by apply elem_of_nil in Hx.
  - destruct (Hbody x w) as (w1 & Hrun & Hkeep & Htargets); [left|].
    destruct (IH (fun y w Hy => Hbody y w (list_elem_of_further _ _ _ Hy)) w1)
      as (w' & Hrest & Hkeep' & Hall).
    exists w'. split; [simpl; by rewrite bind_run, Hrun|].
    split; [by eapply keeps_files_trans|].
    intros y p Hy Hp. apply elem_of_cons in Hy as [->|Hy]; [|by eapply Hall].
    apply Hkeep'. by apply Htargets.
Qed.

(** A loop whose turns find nothing to do does nothing. *)
Lemma for_each_idle {A} (body : unit → A → M unit) l w :
  (∀ x, x ∈ l → body tt x w = Ok (tt, w)) → for_each l body tt w = Ok (tt, w).
Proof.
  induction l as [|x l IH]; intros Hbody; [done|].
  simpl. rewrite bind_run, Hbody by left. apply IH. intros y Hy. apply Hbody. by right.
Qed.

Section Arch.

Variable env : Env.
Variable arch : Arch.

Lemma ensure_file_present (repo file : string) w :
  is_Some (files w !! join (config_get_package_dir env arch) [repo; file]) →
  (there ← exists_ (join (config_get_package_dir env arch) [repo; file]);
   if there : bool then mret tt
   else
     returncode ← run env (Some (join (config_get_package_dir env arch) [repo]))
                    ["tar"; "-czf"; file; "-T"; "/dev/null"];
     if negb (returncode =? 0)%Z
     then raise (Exception ("Failed to create local repo " +:+ repo))
     else mret tt) w = Ok (tt, w).
Proof.
  intros H. rewrite bind_run. unfold exists_.
  by rewrite bool_decide_eq_true_2.
Qed.

Lemma ensure_file_creates (repo file : string) w :
  tar_works env →
  ∃ w',
    (there ← exists_ (join (config_get_package_dir env arch) [repo; file]);
     if there : bool then mret tt
     else
       returncode ← run env (Some (join (config_get_package_dir env arch) [repo]))
                      ["tar"; "-czf"; file; "-T"; "/dev/null"];
       if negb (returncode =? 0)%Z
       then raise (Exception ("Failed to create local repo " +:+ repo))
       else mret tt) w = Ok (tt, w') ∧
    keeps_files w w' ∧
    is_Some (files w' !! join (config_get_package_dir env arch) [repo; file]).
Proof.
  intros Htar. rewrite bind_run. unfold exists_.
  destruct (bool_decide _) eqn:E.
  - apply bool_decide_eq_true in E. exists w. done.
  - rewrite bind_run. unfold run.
    destruct (Htar (join (config_get_package_dir env arch) [repo]) file (files w))
      as (Hrc & Hnew & Hold).
    unfold tar_cmd in *.
    destruct (subprocess_run env _ _ (files w)) as [rc fs'] eqn:Hrun.
    simpl in *. subst rc. simpl.
    eexists. split; [reflexivity|]. split; [split; [exact Hold|done]|]. exact Hnew.
Qed.

(** With every index file in place, [init_prebuilts] changes nothing
    and starts nothing. *)
Lemma init_prebuilts_idle w :
  (∀ p, p ∈ index_files env arch → is_Some (files w !! p)) →
  init_prebuilts env arch w = Ok (tt, w).
Proof.
  intros Hall. unfold init_prebuilts.
  apply for_each_idle. intros repo Hrepo.
  assert (∀ file, file ∈ index_names repo →
            is_Some (files w !! join (config_get_package_dir env arch) [repo; file])) as Hrepo'.
  { intros file Hfile. apply Hall. unfold index_files.
    apply list_elem_of_In, in_flat_map. exists repo. split; [by apply list_elem_of_In|].
    apply list_elem_of_In.
    by apply (list_elem_of_fmap_2 (fun file => join (config_get_package_dir env arch)
                                                 [repo; file])). }
  apply for_each_idle. intros ext1 Hext1.
  apply for_each_idle. intros ext2 Hext2.
  apply ensure_file_present. apply Hrepo'.
  unfold index_names. apply list_elem_of_In, in_flat_map. exists ext1.
  split; [by apply list_elem_of_In|]. apply list_elem_of_In.
  by apply (list_elem_of_fmap_2 (fun ext2 => repo +:+ "." +:+ ext1 +:+ ext2)).
Qed.

(** When [tar] works, [init_prebuilts] succeeds and every index file of
    every repo is in place afterwards. *)
Lemma init_prebuilts_ensures w :
  tar_works env →
  ∃ w', init_prebuilts env arch w = Ok (tt, w') ∧ keeps_files w w' ∧
        ∀ p, p ∈ index_files env arch → is_Some (files w' !! p).
Proof.
  intros Htar. unfold init_prebuilts.
  destruct (for_each_ensures
              (fun repo => (fun file => join (config_get_package_dir env arch) [repo; file])
                             <$> index_names repo)
              (fun _ repo =>
                 for_each ["db"; "files"]
                   (fun _ ext1 =>
                      for_each [""; ".tar.xz"]
                        (fun _ ext2 =>
                           let file := repo +:+ "." +:+ ext1 +:+ ext2 in
                           there ← exists_ (join (config_get_package_dir env arch) [repo; file]);
                           if there : bool then mret tt
                           else
                             returncode ← run env
                               (Some (join (config_get_package_dir env arch) [repo]))
                               ["tar"; "-czf"; file; "-T"; "/dev/null"];
                             if negb (returncode =? 0)%Z
                             then raise (Exception ("Failed to create local repo " +:+ repo))
                             else mret tt)
                        tt)
                   tt)
              (REPOSITORIES env)) with (w := w) as (w' & Hrun & Hkeep & Hall).
  - intros repo w0 _.
    destruct (for_each_ensures
                (fun ext1 => (fun ext2 => join (config_get_package_dir env arch)
                                            [repo; repo +:+ "." +:+ ext1 +:+ ext2])
                               <$> [""; ".tar.xz"])
                (fun _ ext1 =>
                   for_each [""; ".tar.xz"]
                     (fun _ ext2 =>
                        let file := repo +:+ "." +:+ ext1 +:+ ext2 in
                        there ← exists_ (join (config_get_package_dir env arch) [repo; file]);
                        if there : bool then mret tt
                        else
                          returncode ← run env
                            (Some (join (config_get_package_dir env arch) [repo]))
                            ["tar"; "-czf"; file; "-T"; "/dev/null"];
                          if negb (returncode =? 0)%Z
                          then raise (Exception ("Failed to create local repo " +:+ repo))
                          else mret tt)
                     tt)
                ["db"; "files"]) with (w := w0) as (w1 & Hrun1 & Hkeep1 & Hall1).
    + intros ext1 w2 _.
      destruct (for_each_ensures
                  (fun ext2 => [join (config_get_package_dir env arch)
                                  [repo; repo +:+ "." +:+ ext1 +:+ ext2]])
                  (fun _ ext2 =>
                     let file := repo +:+ "." +:+ ext1 +:+ ext2 in
                     there ← exists_ (join (config_get_package_dir env arch) [repo; file]);
                     if there : bool then mret tt
                     else
                       returncode ← run env
                         (Some (join (config_get_package_dir env arch) [repo]))
                         ["tar"; "-czf"; file; "-T"; "/dev/null"];
                       if negb (returncode =? 0)%Z
                       then raise (Exception ("Failed to create local repo " +:+ repo))
                       else mret tt)
                  [""; ".tar.xz"]) with (w := w2) as (w3 & Hrun3 & Hkeep3 & Hall3).
      * intros ext2 w4 _.
        destruct (ensure_file_creates repo (repo +:+ "." +:+ ext1 +:+ ext2) w4 Htar)
          as (w5 & Hrun5 & Hkeep5 & Hnew5).
        exists w5. split; [exact Hrun5|]. split; [done|].
        intros p Hp. apply list_elem_of_singleton in Hp as ->. done.
      * exists w3. split; [exact Hrun3|]. split; [done|].
        intros p Hp. apply list_elem_of_fmap in Hp as (ext2 & -> & Hext2).
        apply (Hall3 ext2); [done|]. by apply list_elem_of_singleton.
    + exists w1. split; [exact Hrun1|]. split; [done|].
      intros p Hp. apply list_elem_of_fmap in Hp as (file & -> & Hfile).
      unfold index_names in Hfile.
      apply list_elem_of_In, in_flat_map in Hfile as (ext1 & Hext1 & Hfile).
      apply list_elem_of_In in Hext1. apply list_elem_of_In in Hfile.
      apply list_elem_of_fmap in Hfile as (ext2 & -> & Hext2).
      apply (Hall1 ext1); [done|].
      by apply (list_elem_of_fmap_2 (fun ext2 => join (config_get_package_dir env arch)
                                                   [repo; repo +:+ "." +:+ ext1 +:+ ext2])).
  - exists w'. split; [exact Hrun|]. split; [done|].
    intros p Hp. unfold index_files in Hp.
    apply list_elem_of_In, in_flat_map in Hp as (repo & Hrepo & Hp).
    apply list_elem_of_In in Hrepo. apply list_elem_of_In in Hp.
    by apply (Hall repo).
Qed.

End Arch.

End PrebuiltsFacts.

Module PrebuiltsTheorems.
Import PyStr Packages Recipes PublishSpec PlanningFacts WorldFacts PrebuiltsSpec PrebuiltsFacts.

Lemma example_tar_works : tar_works example_env.
Proof.
  intros cwd file fs. simpl. split; [done|]. split.
  - rewrite lookup_insert_eq. eauto.
  - intros p Hp. apply lookup_insert_is_Some'. by right.
Qed.

(** X13: when the four index files of every repo are in place,
    [init_prebuilts] starts no program and changes nothing. *)
Theorem init_prebuilts_leaves_complete_repos_alone env arch w :
  (∀ p, p ∈ index_files env arch → is_Some (files w !! p)) →
  init_prebuilts env arch w = Ok (tt, w).
Proof. apply init_prebuilts_idle. Qed.

Lemma init_prebuilts_leaves_complete_repos_alone_witness :
  init_prebuilts example_env "x86_64" initialised_world = Ok (tt, initialised_world).
Proof.
  apply init_prebuilts_leaves_complete_repos_alone.
  apply Forall_forall. vm_compute index_files.
  repeat (apply Forall_cons; split; [vm_compute; eauto|]). by apply Forall_nil.
Defined.

(** X14: when [tar] does its work, [init_prebuilts] succeeds, every
    index file of every repo of the arch is in place afterwards, no
    file that was there is lost and nothing is built. *)
Theorem init_prebuilts_creates_the_index_files env arch w :
  tar_works env →
  ∃ w', init_prebuilts env arch w = Ok (tt, w') ∧ keeps_files w w' ∧
        ∀ p, p ∈ index_files env arch → is_Some (files w' !! p).
Proof. apply init_prebuilts_ensures. Qed.

Lemma init_prebuilts_creates_the_index_files_witness :
  ∃ w', init_prebuilts example_env "aarch64" built_world = Ok (tt, w') ∧
        keeps_files built_world w' ∧
        ∀ p, p ∈ index_files example_env "aarch64" → is_Some (files w' !! p).
Proof.
  apply init_prebuilts_creates_the_index_files. apply example_tar_works.
Defined.

End PrebuiltsTheorems.

(** * Facts about file names *)

Module NameFacts.
Import PyStr Packages PublishSpec WorldFacts NameSpec.

(** Two ends of one string: one of them is an end of the other. *)
Lemma suffix_cmp (a b p c : string) :
  a +:+ b = p +:+ c → (∃ q, b = q +:+ c) ∨ (∃ q, c = q +:+ b).
Proof.
  revert p. induction a as [|x a IH]; intros p H.
  - left. exists p. exact H.
  - destruct p as [|y p].
    + right. exists (String x a). symmetry. exact H.
    + change (String x (a +:+ b) = String y (p +:+ c)) in H.
      injection H as _ H. by apply IH in H.
Qed.

Lemma endswith_app (a b c : string) :
  endswith b c = false → endswith c b = false → endswith (a +:+ b) c = false.
Proof.
  intros Hbc Hcb. destruct (endswith (a +:+ b) c) eqn:E; [|done].
  apply endswith_iff in E as [p E].
  apply suffix_cmp in E as [[q ->]|[q ->]].
  - rewrite (proj2 (endswith_iff _ _)) in Hbc by eauto. done.
  - rewrite (proj2 (endswith_iff _ _)) in Hcb by eauto. done.
Qed.

Lemma substring_prefix (pre suf : string) :
  String.substring 0 (String.length pre) (pre +:+ suf) = pre.
Proof.
  induction pre as [|c pre IH].
  - by destruct suf.
  - change (String c (String.substring 0 (String.length pre) (pre +:+ suf)) = String c pre).
    by rewrite IH.
Qed.

Lemma length_app_string (a b : string) :
  String.length (a +:+ b) = String.length a + String.length b.
Proof.
  induction a as [|c a IH]; [done|].
  change (S (String.length (a +:+ b)) = S (String.length a + String.length b)).
  by rewrite IH.
Qed.

Lemma drop_last_app (pre suf : string) :
  drop_last (String.length suf) (pre +:+ suf) = pre.
Proof.
  unfold drop_last.
  replace (String.length (pre +:+ suf) - String.length suf) with (String.length pre)
    by (rewrite length_app_string; lia).
  apply substring_prefix.
Qed.

Lemma strip_known (stem ext : string) :
  ext ∈ compression_extensions →
  strip_compression_extension (stem +:+ ".pkg.tar." +:+ ext) = stem +:+ ".pkg.tar".
Proof.
  intros Hext. unfold strip_compression_extension, compression_extensions in *.
  assert (∀ e, endswith (stem +:+ ".pkg.tar." +:+ e) (".pkg.tar." +:+ e) = true) as Hyes.
  { intros e. apply endswith_iff. by exists stem. }
  assert (∀ pre, drop_last 4 (pre +:+ ".pkg.tar.zst") = pre +:+ ".pkg.tar") as Hzst.
  { intros pre. change (pre +:+ ".pkg.tar.zst") with (pre +:+ ".pkg.tar" +:+ ".zst").
    rewrite <- string_app_assoc. apply (drop_last_app _ ".zst"). }
  assert (∀ pre, drop_last 3 (pre +:+ ".pkg.tar.xz") = pre +:+ ".pkg.tar") as Hxz.
  { intros pre. change (pre +:+ ".pkg.tar.xz") with (pre +:+ ".pkg.tar" +:+ ".xz").
    rewrite <- string_app_assoc. apply (drop_last_app _ ".xz"). }
  assert (∀ pre, drop_last 3 (pre +:+ ".pkg.tar.gz") = pre +:+ ".pkg.tar") as Hgz.
  { intros pre. change (pre +:+ ".pkg.tar.gz") with (pre +:+ ".pkg.tar" +:+ ".gz").
    rewrite <- string_app_assoc. apply (drop_last_app _ ".gz"). }
  assert (∀ pre, drop_last 4 (pre +:+ ".pkg.tar.bz2") = pre +:+ ".pkg.tar") as Hbz.
  { intros pre. change (pre +:+ ".pkg.tar.bz2") with (pre +:+ ".pkg.tar" +:+ ".bz2").
    rewrite <- string_app_assoc. apply (drop_last_app _ ".bz2"). }
  repeat (apply elem_of_cons in Hext as [->|Hext]); [| | | |by apply elem_of_nil in Hext];
    cbn [List.find];
    repeat first
      [ rewrite (Hyes _)
      | match goal with
        | |- context [endswith (stem +:+ ?b) ?c] =>
            rewrite (endswith_app stem b c) by (vm_compute; reflexivity)
        end ];
    cbn [String.length Nat.add]; auto.
Qed.

Lemma strip_plain (stem : string) :
  strip_compression_extension (stem +:+ ".pkg.tar") = stem +:+ ".pkg.tar".
Proof.
  unfold strip_compression_extension. cbn [List.find].
  repeat match goal with
         | |- context [endswith (stem +:+ ?b) ?c] =>
             rewrite (endswith_app stem b c) by (vm_compute; reflexivity)
         end.
  done.
Qed.

Lemma strip_cases (f : string) :
  (strip_compression_extension f = f ∧
   ∀ ext, ext ∈ compression_extensions → endswith f (".pkg.tar." +:+ ext) = false) ∨
  ∃ stem ext, ext ∈ compression_extensions ∧ f = stem +:+ ".pkg.tar." +:+ ext.
Proof.
  unfold strip_compression_extension, compression_extensions.
  destruct (List.find _ _) as [ext|] eqn:E.
  - right. apply find_some in E as [Hin Htest].
    apply endswith_iff in Htest as [stem ->]. exists stem, ext.
    split; [by apply list_elem_of_In|done].
  - left. split; [done|]. intros ext Hext.
    apply (find_none _ _ E). by apply list_elem_of_In.
Qed.

End NameFacts.

Module NameTheorems.
Import PyStr Packages PublishSpec WorldFacts NameSpec NameFacts.

(** X15: from a name that ends in [.pkg.tar.] and one of the four known
    compression extensions, [strip_compression_extension] takes that
    extension and its dot, and nothing else. *)
Theorem strip_compression_extension_strips_known stem ext :
  ext ∈ compression_extensions →
  strip_compression_extension (stem +:+ ".pkg.tar." +:+ ext) = stem +:+ ".pkg.tar".
Proof. apply strip_known. Qed.

Lemma strip_compression_extension_strips_known_witness :
  strip_compression_extension ("tool-1.0-1-any" +:+ ".pkg.tar." +:+ "xz")
  = "tool-1.0-1-any" +:+ ".pkg.tar".
Proof.
  apply strip_compression_extension_strips_known. vm_compute. right. left.
Defined.

(** X16: [strip_compression_extension] strips once: applied to its own
    result it changes nothing. *)
Theorem strip_compression_extension_idempotent f :
  strip_compression_extension (strip_compression_extension f)
  = strip_compression_extension f.
Proof.
  destruct (strip_cases f) as [[Heq _]|(stem & ext & Hext & ->)].
  - by rewrite !Heq.
  - rewrite (strip_known stem ext Hext). apply strip_plain.
Qed.

(** X17: the files that publishing and the freshness check take for
    artifacts are those whose name ends in [.pkg.tar], alone or followed
    by one of the four known compression extensions. *)
Theorem artifact_names f :
  is_artifact f = true ↔
  ∃ stem, f = stem +:+ ".pkg.tar" ∨
          ∃ ext, ext ∈ compression_extensions ∧ f = stem +:+ ".pkg.tar." +:+ ext.
Proof.
  unfold is_artifact. split.
  - intros H. destruct (strip_cases f) as [[Heq _]|(stem & ext & Hext & ->)].
    + rewrite Heq in H. apply endswith_iff in H as [stem ->]. exists stem. by left.
    + exists stem. right. eauto.
  - intros (stem & [->|(ext & Hext & ->)]).
    + rewrite strip_plain. apply endswith_iff. by exists stem.
    + rewrite (strip_known stem ext Hext). apply endswith_iff. by exists stem.
Qed.

End NameTheorems.

(** * Further facts about the freshness check *)

Module FreshnessFacts.
Import PyStr Packages Recipes PublishSpec PlanningFacts WorldFacts FreshnessClaims FreshnessSpec.

Lemma for_each_app {A S} (l1 l2 : list A) (body : S → A → M S) s w :
  for_each (l1 ++ l2) body s w
  = match for_each l1 body s w with
    | Ok (s', w') => for_each l2 body s' w'
    | Raise e => Raise e
    | OutOfFuel => OutOfFuel
    end.
Proof.
  revert s w. induction l1 as [|x l1 IH]; intros s w; [done|].
  simpl. rewrite !bind_run. destruct (body s x w) as [[s1 w1]| |]; [apply IH|done|done].
Qed.

Lemma check_line_skipped env package arch try_download missing line w :
  skipped env package arch line →
  check_line env package arch try_download missing line w = Ok (missing, w).
Proof.
  unfold skipped, line_file, is_artifact, check_line. intros [->|H]; [done|].
  destruct (String.eqb line ""); [done|]. by rewrite H.
Qed.

Lemma check_lines_skipped env package arch try_download missing lines w :
  Forall (skipped env package arch) lines →
  for_each lines (check_line env package arch try_download) missing w = Ok (missing, w).
Proof.
  induction 1 as [|line lines Hline _ IH]; [done|].
  simpl. by rewrite bind_run, check_line_skipped.
Qed.

(** A line whose file is in the repo clears [missing]. *)
Lemma check_line_present env package arch try_download missing line w m w' :
  line ≠ "" → is_artifact (line_file env package arch line) = true →
  is_Some (files w !! line_file env package arch line) →
  check_line env package arch try_download missing line w = Ok (m, w') → m = false.
Proof.
  unfold line_file, is_artifact, check_line. intros Hne Hart Hsome H.
  apply String.eqb_neq in Hne. rewrite Hne, Hart in H. cbn [negb] in H.
  apply bind_Ok_inv in H as (there & w1 & [-> ->]%exists_Ok_inv & H).
  rewrite bool_decide_eq_true_2 in H by done.
  apply bind_Ok_inv in H as (got & w2 & Hgot & H).
  apply ret_Ok_inv in Hgot. simplify_eq.
  apply bind_Ok_inv in H as (missing1 & w3 & Hm1 & H).
  assert (missing1 = false) as ->.
  { apply bind_Ok_inv in Hm1 as ([] & w2' & _ & Hm1). apply ret_Ok_inv in Hm1.
    by simplify_eq. }
  destruct (endswith _ "any.pkg.tar"); [|apply ret_Ok_inv in H; by simplify_eq].
  apply bind_Ok_inv in H as (there' & w4 & _ & H).
  apply bind_Ok_inv in H as (missing2 & w5 & Hm2 & H).
  assert (missing2 = false) as ->.
  { destruct there'.
    - apply ret_Ok_inv in Hm2. by simplify_eq.
    - apply bind_Ok_inv in Hm2 as (found & w4' & _ & Hm2). apply ret_Ok_inv in Hm2.
      simplify_eq. by destruct found. }
  apply bind_Ok_inv in H as (there2 & w6 & _ & H).
  apply bind_Ok_inv in H as ([] & w7 & _ & H).
  apply ret_Ok_inv in H. by simplify_eq.
Qed.

(** A line whose file is not in the repo, with downloads tried. *)
Lemma check_line_download env package arch missing line w :
  line ≠ "" → is_artifact (line_file env package arch line) = true →
  files w !! line_file env package arch line = None →
  check_line env package arch true missing line w
  = Raise (TypeError "get_kupfer_https() got an unexpected keyword argument 'scan'").
Proof.
  unfold line_file, is_artifact, check_line. intros Hne Hart Hnone.
  apply String.eqb_neq in Hne. rewrite Hne, Hart. cbn [negb].
  rewrite bind_run. unfold exists_. rewrite Hnone.
  rewrite bool_decide_eq_false_2 by (intros [? ?]; done).
  by rewrite bind_run.
Qed.

Lemma check_Ok_inv env package arch try_download w b w' :
  check_package_version_built env package arch try_download w = Ok (b, w') →
  ∃ files1 stdout missing,
    makepkg_packagelist env package arch (files w) = (files1, 0%Z, stdout) ∧
    for_each (package_lines stdout) (check_line env package arch try_download) true
      {| files := files1; cmds := cmds w; builds := builds w |} = Ok (missing, w') ∧
    b = negb missing.
Proof.
  unfold check_package_version_built, package_lines.
  destruct (makepkg_packagelist env package arch (files w)) as [[files1 rc] stdout].
  destruct (rc =? 0)%Z eqn:Hrc; [|done]. apply Z.eqb_eq in Hrc as ->. cbn [negb].
  rewrite bind_run.
  destruct (for_each _ _ true _) as [[missing w1]| |] eqn:Hloop; [|done|done].
  intros [= <- <-]. by exists files1, stdout, missing.
Qed.

End FreshnessFacts.

Module FreshnessTheorems.
Import PyStr Packages Recipes PublishSpec PlanningFacts WorldFacts FreshnessClaims FreshnessSpec
  FreshnessExamples FreshnessFacts.



(** X19: with downloads tried, the first artifact of the package list
    that is not in the repo ends the check with the [TypeError] of
    [try_download_package], if no artifact comes before it. *)
Theorem download_of_missing_artifact_raises env package arch w files1 stdout before line after :
  makepkg_packagelist env package arch (files w) = (files1, 0%Z, stdout) →
  package_lines stdout = before ++ line :: after →
  Forall (skipped env package arch) before →
  line ≠ "" → is_artifact (line_file env package arch line) = true →
  files1 !! line_file env package arch line = None →
  check_package_version_built env package arch true w
  = Raise (TypeError "get_kupfer_https() got an unexpected keyword argument 'scan'").
Proof.
  intros Hlist Hlines Hskip Hne Hart Hnone.
  unfold check_package_version_built. rewrite Hlist. cbn [Z.eqb negb].
  fold (package_lines stdout). rewrite Hlines, bind_run, for_each_app.
  rewrite check_lines_skipped by done. simpl. rewrite bind_run.
  by rewrite check_line_download.
Qed.

Lemma download_of_missing_artifact_raises_witness :
  check_package_version_built split_env libfoo "x86_64" true empty_world
  = Raise (TypeError "get_kupfer_https() got an unexpected keyword argument 'scan'").
Proof.
  apply (download_of_missing_artifact_raises split_env libfoo "x86_64" empty_world ∅
           "/var/pkgbuilds/main/libfoo/libfoo-1.0-1-x86_64.pkg.tar.zst
/var/pkgbuilds/main/libfoo/libfoo-docs-1.0-1-x86_64.pkg.tar.zst
" [] "/var/pkgbuilds/main/libfoo/libfoo-1.0-1-x86_64.pkg.tar.zst"
           ["/var/pkgbuilds/main/libfoo/libfoo-docs-1.0-1-x86_64.pkg.tar.zst"; ""]).
  - reflexivity.
  - vm_compute. reflexivity.
  - by apply Forall_nil.
  - discriminate.
  - vm_compute. reflexivity.
  - vm_compute. reflexivity.
Defined.

(** X20: if the first artifact of the package list is in the repo, the
    check, when it returns, returns true, whatever the lines after it
    stand for. *)
Theorem first_artifact_present_means_built env package arch try_download w b w'
    files1 stdout before line after :
  makepkg_packagelist env package arch (files w) = (files1, 0%Z, stdout) →
  package_lines stdout = before ++ line :: after →
  Forall (skipped env package arch) before →
  line ≠ "" → is_artifact (line_file env package arch line) = true →
  is_Some (files1 !! line_file env package arch line) →
  check_package_version_built env package arch try_download w = Ok (b, w') →
  check_package_version_built env package arch try_download w = Ok (true, w').
Proof.
  intros Hlist Hlines Hskip Hne Hart Hsome Hrun. rewrite Hrun. do 2 f_equal.
  apply check_Ok_inv in Hrun as (files1' & stdout' & missing & Hlist' & Hrun & ->).
  rewrite Hlist in Hlist'. injection Hlist' as <- <-.
  rewrite Hlines, for_each_app in Hrun.
  rewrite check_lines_skipped in Hrun by done. simpl in Hrun.
  apply bind_Ok_inv in Hrun as (m1 & w1 & Hline & Hrest).
  apply check_line_present in Hline as ->; [|done..].
  by apply found_once_never_missing in Hrest as ->.
Qed.

Lemma first_artifact_present_means_built_witness :
  check_package_version_built split_env libfoo "x86_64" false split_world
  = Ok (true, checked_split_world).
Proof.
  apply (first_artifact_present_means_built split_env libfoo "x86_64" false split_world
           true checked_split_world (files split_world)
           "/var/pkgbuilds/main/libfoo/libfoo-1.0-1-x86_64.pkg.tar.zst
/var/pkgbuilds/main/libfoo/libfoo-docs-1.0-1-x86_64.pkg.tar.zst
" [] "/var/pkgbuilds/main/libfoo/libfoo-1.0-1-x86_64.pkg.tar.zst"
           ["/var/pkgbuilds/main/libfoo/libfoo-docs-1.0-1-x86_64.pkg.tar.zst"; ""]).
  - reflexivity.
  - vm_compute. reflexivity.
  - by apply Forall_nil.
  - discriminate.
  - vm_compute. reflexivity.
  - vm_compute. eauto.
  - vm_compute. reflexivity.
Defined.

End FreshnessTheorems.

(** * Facts about the build log *)

Module BuildFacts.
Import PyStr Packages Recipes PublishSpec PlanningFacts WorldFacts BuildSpec.

Lemma bn_ret {A} (a : A) : builds_nothing (mret a).
Proof. intros w a' w' H. apply ret_Ok_inv in H. by simplify_eq. Qed.

Lemma bn_raise {A} e : builds_nothing (raise (A := A) e).
Proof. by intros w a w' H. Qed.

Lemma bn_lift {A} (r : result A) : builds_nothing (lift r).
Proof. intros w a w' H. unfold lift in H. destruct r; by simplify_eq. Qed.

Lemma bn_bind {A B} (m : M A) (k : A → M B) :
  builds_nothing m → (∀ a, builds_nothing (k a)) → builds_nothing (m ≫= k).
Proof.
  intros Hm Hk w b w' H. apply bind_Ok_inv in H as (a & w1 & H1 & H2).
  rewrite (Hk a _ _ _ H2). by eapply Hm.
Qed.

Lemma bn_for_each {A S} (l : list A) (body : S → A → M S) :
  (∀ s x, builds_nothing (body s x)) → ∀ s, builds_nothing (for_each l body s).
Proof.
  intros Hbody. induction l as [|x l IH]; intros s; simpl; [apply bn_ret|].
  apply bn_bind; [apply Hbody|apply IH].
Qed.

Lemma bn_exists path : builds_nothing (exists_ path).
Proof. intros w a w' H. by apply exists_Ok_inv in H as [-> _]. Qed.

Lemma bn_unlink path : builds_nothing (unlink path).
Proof. intros w a w' H. by apply unlink_Ok_inv in H as (_ & _ & ?). Qed.

Lemma bn_copyfile src dst : builds_nothing (copyfile src dst).
Proof. intros w a w' H. by apply copyfile_Ok_inv in H as (_ & _ & _ & _ & _ & ?). Qed.

Lemma bn_run env cwd cmd : builds_nothing (run env cwd cmd).
Proof. intros w a w' H. by apply run_Ok_inv in H as (_ & _ & _ & ?). Qed.

Lemma bn_listdir env dir : builds_nothing (listdir env dir).
Proof. intros w a w' H. unfold listdir in H. by simplify_eq. Qed.

Create HintDb bn discriminated.
#[local] Hint Resolve bn_ret bn_raise bn_lift bn_exists bn_unlink bn_copyfile bn_run
  bn_listdir : bn.

(** Takes a step apart along its binds, loops and branches. *)
Ltac bn :=
  repeat first
    [ progress eauto with bn
    | apply bn_bind; [|intros ?]
    | apply bn_for_each; intros ? ?
    | match goal with
      | |- builds_nothing (if ?b then _ else _) => destruct b
      | |- builds_nothing (let _ := _ in _) => cbv zeta
      end ].

Lemma bn_db_fixup file : builds_nothing (db_fixup file).
Proof. unfold db_fixup. bn. Qed.
#[local] Hint Resolve bn_db_fixup : bn.

Lemma bn_add_file_to_repo env file_path repo_name arch :
  builds_nothing (add_file_to_repo env file_path repo_name arch).
Proof. unfold add_file_to_repo, copy_into. bn. Qed.
#[local] Hint Resolve bn_add_file_to_repo : bn.

Lemma bn_copy_to_other_arches env repo_name arch repo_file file :
  builds_nothing (copy_to_other_arches env repo_name arch repo_file file).
Proof. unfold copy_to_other_arches. bn. Qed.
#[local] Hint Resolve bn_copy_to_other_arches : bn.

Lemma bn_publish_file env package arch pkgbuild_dir listed file :
  builds_nothing (publish_file env package arch pkgbuild_dir listed file).
Proof. unfold publish_file. bn. Qed.
#[local] Hint Resolve bn_publish_file : bn.

Lemma bn_add_package_to_repo env package arch :
  builds_nothing (add_package_to_repo env package arch).
Proof. unfold add_package_to_repo. bn. Qed.
#[local] Hint Resolve bn_add_package_to_repo : bn.

Lemma bn_try_download_package file package arch :
  builds_nothing (try_download_package file package arch).
Proof. unfold try_download_package. bn. Qed.
#[local] Hint Resolve bn_try_download_package : bn.

Lemma bn_find_in_other_arches env repo_name arch basename target arches :
  builds_nothing (find_in_other_arches env repo_name arch basename target arches).
Proof. induction arches as [|a arches IH]; simpl; bn. Qed.
#[local] Hint Resolve bn_find_in_other_arches : bn.

Lemma bn_copy_to_arches_lacking env repo_name arch basename target :
  builds_nothing (copy_to_arches_lacking env repo_name arch basename target).
Proof. unfold copy_to_arches_lacking. bn. Qed.
#[local] Hint Resolve bn_copy_to_arches_lacking : bn.

Lemma bn_check_line env package arch try_download missing line :
  builds_nothing (check_line env package arch try_download missing line).
Proof. unfold check_line. bn. Qed.
#[local] Hint Resolve bn_check_line : bn.

Lemma bn_check_package_version_built env package arch try_download :
  builds_nothing (check_package_version_built env package arch try_download).
Proof.
  intros w b w' H. unfold check_package_version_built in H.
  destruct (makepkg_packagelist env package arch (files w)) as [[files1 rc] stdout].
  destruct (negb (rc =? 0)%Z); [done|].
  assert (builds_nothing
            (missing ← for_each (split "
" stdout) (check_line env package arch try_download) true; mret (negb missing))) as Hbn by bn.
  by apply Hbn in H.
Qed.
#[local] Hint Resolve bn_check_package_version_built : bn.

Lemma bn_init_prebuilts env arch : builds_nothing (init_prebuilts env arch).
Proof. unfold init_prebuilts. bn. Qed.
#[local] Hint Resolve bn_init_prebuilts : bn.

Lemma bn_get_unbuilt_package_levels env iter heap repo limit fuel packages arch force rd td :
  builds_nothing
    (get_unbuilt_package_levels env iter heap repo limit fuel packages arch force rd td).
Proof. unfold get_unbuilt_package_levels, check_level_package. bn. Qed.

Lemma build_package_builds env heap package arch w u w' :
  build_package env heap package arch w = Ok (u, w') → builds w' = builds w ++ [package].
Proof.
  unfold build_package. destruct (makepkg_build env _ arch (files w)); [|done].
  by intros [= <- <-].
Qed.

Lemma build_level_builds env heap arch l : ∀ listed w listed' w',
  for_each l
    (fun files package =>
       build_package env heap package arch;;
       new ← add_package_to_repo env (deref heap package) arch;
       mret (files ++ new)) listed w = Ok (listed', w') →
  builds w' = builds w ++ l.
Proof.
  induction l as [|p l IH]; intros listed w listed' w' H.
  - apply ret_Ok_inv in H. simplify_eq. by rewrite app_nil_r.
  - simpl in H. apply bind_Ok_inv in H as (listed1 & w1 & Hp & H).
    apply IH in H. rewrite H.
    apply bind_Ok_inv in Hp as ([] & w2 & Hb & Hp).
    apply bind_Ok_inv in Hp as (new & w3 & Ha & Hp).
    apply ret_Ok_inv in Hp. simplify_eq.
    apply build_package_builds in Hb. apply bn_add_package_to_repo in Ha.
    rewrite Ha, Hb, <- app_assoc. done.
Qed.

Lemma build_levels_builds env (iter : gset ref → list ref) heap arch levels :
  ∀ listed w listed' w',
  for_each levels
    (fun files need_build =>
       for_each (iter need_build)
         (fun files package =>
            build_package env heap package arch;;
            new ← add_package_to_repo env (deref heap package) arch;
            mret (files ++ new)) files) listed w = Ok (listed', w') →
  builds w' = builds w ++ flat_map iter levels.
Proof.
  induction levels as [|L levels IH]; intros listed w listed' w' H.
  - apply ret_Ok_inv in H. simplify_eq. by rewrite app_nil_r.
  - simpl in H. apply bind_Ok_inv in H as (listed1 & w1 & HL & H).
    apply IH in H. apply build_level_builds in HL.
    rewrite H, HL, <- app_assoc. done.
Qed.

End BuildFacts.

Module BuildTheorems.
Import PyStr Packages Recipes PublishSpec PlanningFacts WorldFacts BuildSpec BuildFacts.



End BuildTheorems.

(** * Facts about the levels to build *)

Module UnbuiltFacts.
Import PyStr Packages Recipes RegistrySpec DictFacts ChainSpec ChainFacts PublishSpec
  PlanningFacts WorldFacts PlanSpec PlanFacts DependantSpec DependantFacts UnbuiltSpec.

Section Levels.

Variable env : Env.
Variable iter : gset ref → list ref.
Variable heap : Heap.
Hypothesis iter_ok : iter_valid iter.

(** The loop over the recipes of one level of the plan. *)
Lemma level_loop packages dependants arch force rd td l : ∀ acc w level w',
  for_each l (check_level_package env heap packages dependants arch force rd td) acc w
    = Ok (level, w') →
  acc ⊆ level ∧
  (∀ p, p ∈ level → p ∈ acc ∨ p ∈ l) ∧
  (∀ p, p ∈ l → forced packages dependants force rd p = true → p ∈ level).
Proof.
  induction l as [|x l IH]; intros acc w level w' H.
  - apply ret_Ok_inv in H. simplify_eq. split; [done|]. split; [auto|].
    intros p Hp. by apply elem_of_nil in Hp.
  - simpl in H. apply bind_Ok_inv in H as (acc1 & w1 & Hx & H).
    destruct (IH _ _ _ _ H) as (Hsub & Hin & Hforced).
    assert (acc ⊆ acc1 ∧ acc1 ⊆ {[x]} ∪ acc ∧
            (forced packages dependants force rd x = true → x ∈ acc1)) as (H1 & H2 & H3).
    { unfold check_level_package in Hx. fold (forced packages dependants force rd x) in Hx.
      destruct (forced packages dependants force rd x).
      - apply ret_Ok_inv in Hx. simplify_eq. set_solver.
      - apply bind_Ok_inv in Hx as (built & w2 & _ & Hx).
        apply ret_Ok_inv in Hx. simplify_eq. destruct built; set_solver. }
    split; [set_solver|]. split.
    + intros p Hp. destruct (Hin p Hp) as [Hp'|Hp']; [|right; by right].
      apply H2 in Hp'. set_solver.
    + intros p Hp Hf. apply elem_of_cons in Hp as [->|Hp]; [|by apply Hforced].
      apply Hsub. by apply H3.
Qed.

(** The loop over the levels of the plan. *)
Lemma levels_loop packages dependants arch force rd td plan : ∀ acc w levels w',
  for_each plan
    (fun build_levels level_packages =>
       level ← for_each (iter level_packages)
                 (check_level_package env heap packages dependants arch force rd td) ∅;
       mret (if bool_decide (level = ∅) then build_levels else build_levels ++ [level]))
    acc w = Ok (levels, w') →
  (∀ p, p ∈ ⋃ levels → p ∈ ⋃ acc ∨ p ∈ ⋃ plan) ∧
  (∀ p, p ∈ ⋃ acc → p ∈ ⋃ levels) ∧
  (∀ p, p ∈ ⋃ plan → forced packages dependants force rd p = true → p ∈ ⋃ levels).
Proof.
  induction plan as [|L plan IH]; intros acc w levels w' H.
  - apply ret_Ok_inv in H. simplify_eq. split; [auto|]. split; [auto|].
    intros p Hp. simpl in Hp. set_solver.
  - simpl in H. apply bind_Ok_inv in H as (acc1 & w1 & HL & H).
    destruct (IH _ _ _ _ H) as (Hin & Hacc & Hforced).
    apply bind_Ok_inv in HL as (level & w2 & Hlevel & HL).
    apply ret_Ok_inv in HL. simplify_eq.
    destruct (level_loop _ _ _ _ _ _ _ _ _ _ _ Hlevel) as (_ & Hlin & Hlf).
    assert (⋃ (if bool_decide (level = ∅) then acc else acc ++ [level]) = ⋃ acc ∪ level)
      as Hunion.
    { destruct (decide (level = ∅)) as [->|Hne].
      - rewrite bool_decide_eq_true_2 by done. set_solver.
      - rewrite bool_decide_eq_false_2 by done. rewrite union_list_app_L. simpl. set_solver. }
    rewrite Hunion in Hin, Hacc. simpl.
    split.
    + intros p Hp. destruct (Hin p Hp) as [Hp'|Hp']; [|set_solver].
      apply elem_of_union in Hp' as [Hp'|Hp']; [by left|].
      right. destruct (Hlin p Hp') as [?|Hp'']; [set_solver|].
      apply (elem_of_iter iter iter_ok) in Hp''. set_solver.
    + split; [intros p Hp; apply Hacc; set_solver|].
      intros p Hp Hf. apply elem_of_union in Hp as [Hp|Hp]; [|by apply Hforced].
      apply Hacc. apply elem_of_union. right. apply Hlf; [|done].
      by apply (elem_of_iter iter iter_ok).
Qed.

Lemma get_unbuilt_Ok_inv repo limit fuel packages arch force rd td w levels w' :
  get_unbuilt_package_levels env iter heap repo limit fuel packages arch force rd td w
    = Ok (levels, w') →
  ∃ dependants plan,
    (if rd then get_dependants iter heap repo limit packages true else Ok ∅) = Ok dependants ∧
    generate_dependency_chain iter heap repo limit fuel
      (iter (list_to_set packages ∪ dependants)) = Ok plan ∧
    (∀ p, p ∈ ⋃ levels → p ∈ planned plan) ∧
    (∀ p, p ∈ planned plan → forced packages dependants force rd p = true → p ∈ ⋃ levels).
Proof.
  unfold get_unbuilt_package_levels. intros H.
  apply bind_Ok_inv in H as (dependants & w1 & Hdep & H).
  apply bind_Ok_inv in H as (plan & w2 & Hplan & H).
  unfold lift in Hdep, Hplan.
  destruct (if rd then _ else _) as [d| |] eqn:Ed; [|done|done].
  destruct (generate_dependency_chain _ _ _ _ _ _) as [pl| |] eqn:Ep; [|done|done].
  simplify_eq. exists dependants, plan. split; [done|]. split; [done|].
  destruct (levels_loop _ _ _ _ _ _ _ _ _ _ _ H) as (Hin & _ & Hforced).
  split; [|done]. intros p Hp. destruct (Hin p Hp) as [Hp'|Hp']; [|done]. set_solver.
Qed.

(** No level of the result is empty. *)
Lemma levels_loop_nonempty packages dependants arch force rd td plan : ∀ acc w levels w',
  for_each plan
    (fun build_levels level_packages =>
       level ← for_each (iter level_packages)
                 (check_level_package env heap packages dependants arch force rd td) ∅;
       mret (if bool_decide (level = ∅) then build_levels else build_levels ++ [level]))
    acc w = Ok (levels, w') →
  Forall (λ L, L ≠ ∅) acc → Forall (λ L, L ≠ ∅) levels.
Proof.
  induction plan as [|L plan IH]; intros acc w levels w' H Hacc.
  - apply ret_Ok_inv in H. by simplify_eq.
  - simpl in H. apply bind_Ok_inv in H as (acc1 & w1 & HL & H).
    apply (IH _ _ _ _ H).
    apply bind_Ok_inv in HL as (level & w2 & _ & HL).
    apply ret_Ok_inv in HL. simplify_eq.
    destruct (decide (level = ∅)) as [->|Hne].
    + by rewrite bool_decide_eq_true_2.
    + rewrite bool_decide_eq_false_2 by done. apply Forall_app. split; [done|].
      apply Forall_cons. split; [done|]. by apply Forall_nil.
Qed.

Lemma get_unbuilt_nonempty repo limit fuel packages arch force rd td w levels w' :
  get_unbuilt_package_levels env iter heap repo limit fuel packages arch force rd td w
    = Ok (levels, w') →
  Forall (λ L, L ≠ ∅) levels.
Proof.
  unfold get_unbuilt_package_levels. intros H.
  apply bind_Ok_inv in H as (dependants & w1 & _ & H).
  apply bind_Ok_inv in H as (plan & w2 & _ & H).
  apply (levels_loop_nonempty _ _ _ _ _ _ _ _ _ _ _ H). by apply Forall_nil.
Qed.

(** A plan holds every recipe it was asked for. *)
Lemma chain_holds_request repo limit fuel to_build plan :
  registry_keys_named heap repo →
  generate_dependency_chain iter heap repo limit fuel to_build = Ok plan →
  ∀ p, p ∈ to_build → p ∈ planned plan.
Proof.
  intros Hkeys Hrun.
  destruct (chain_planned iter heap repo limit fuel to_build plan iter_ok Hkeys Hrun)
    as (st & A & Hinit & Hshape & ->).
  destruct (init_levels_cover heap repo limit to_build st Hinit)
    as (A' & Hshape' & HS & _).
  rewrite Hshape in Hshape'. injection Hshape' as <-.
  intros p Hp. apply HS. by apply elem_of_list_to_set.
Qed.

Lemma get_unbuilt_forced repo limit fuel packages arch force rd td w levels w' :
  registry_keys_named heap repo →
  get_unbuilt_package_levels env iter heap repo limit fuel packages arch force rd td w
    = Ok (levels, w') →
  (force = true → ∀ p, p ∈ packages → p ∈ ⋃ levels) ∧
  (rd = true → ∀ dependants,
     get_dependants iter heap repo limit packages true = Ok dependants →
     dependants ⊆ ⋃ levels).
Proof.
  intros Hkeys H.
  apply get_unbuilt_Ok_inv in H as (dependants & plan & Hdep & Hplan & _ & Hforced).
  pose proof (chain_holds_request _ _ _ _ _ Hkeys Hplan) as Hreq.
  split.
  - intros -> p Hp. apply Hforced.
    + apply Hreq. apply (elem_of_iter iter iter_ok). set_solver.
    + unfold forced. by rewrite bool_decide_eq_true_2.
  - intros -> d Hd p Hp. rewrite Hd in Hdep. simplify_eq. apply Hforced.
    + apply Hreq. apply (elem_of_iter iter iter_ok). set_solver.
    + unfold forced. rewrite (bool_decide_eq_true_2 (p ∈ dependants)) by done.
      simpl. by rewrite orb_true_r.
Qed.

End Levels.

End UnbuiltFacts.

Module UnbuiltTheorems.
Import PyStr Packages Recipes RegistrySpec ChainSpec ChainFacts PlanSpec SolverClaims PlanningFacts
  UnbuiltSpec UnbuiltFacts.

Lemma forced_levels_example :
  get_unbuilt_package_levels example_env elements (heap_of chain_recipes)
    (registry_of chain_recipes) 1000 1000 [2] "x86_64" true true false empty_world
  = Ok (chain_levels, empty_world).
Proof. vm_compute. reflexivity. Qed.

(** X22: the levels that [get_unbuilt_package_levels] returns are taken
    from the plan of [generate_dependency_chain] for the requested recipes
    and, with [rebuild_dependants], their dependants: every recipe of a
    level is a recipe of that plan, and no level is empty. *)
Theorem unbuilt_levels_come_from_the_plan env iter heap repo limit fuel packages arch force
    rebuild_dependants try_download w levels w' :
  iter_valid iter →
  get_unbuilt_package_levels env iter heap repo limit fuel packages arch force
    rebuild_dependants try_download w = Ok (levels, w') →
  ∃ dependants plan,
    (if rebuild_dependants then get_dependants iter heap repo limit packages true else Ok ∅)
      = Ok dependants ∧
    generate_dependency_chain iter heap repo limit fuel
      (iter (list_to_set packages ∪ dependants)) = Ok plan ∧
    (∀ p, p ∈ ⋃ levels → p ∈ planned plan) ∧
    (∀ L, L ∈ levels → L ≠ ∅).
Proof.
  intros Hiter Hrun.
  destruct (get_unbuilt_Ok_inv env iter heap Hiter _ _ _ _ _ _ _ _ _ _ _ Hrun)
    as (dependants & plan & Hdep & Hplan & Hin & _).
  exists dependants, plan. repeat split; try done.
  apply Forall_forall. by apply (get_unbuilt_nonempty env iter heap _ _ _ _ _ _ _ _ _ _ _ Hrun).
Qed.

Lemma unbuilt_levels_come_from_the_plan_witness :
  ∃ dependants plan,
    get_dependants elements (heap_of chain_recipes) (registry_of chain_recipes) 1000 [2] true
      = Ok dependants ∧
    generate_dependency_chain elements (heap_of chain_recipes) (registry_of chain_recipes)
      1000 1000 (elements (list_to_set [2] ∪ dependants)) = Ok plan ∧
    (∀ p, p ∈ ⋃ chain_levels → p ∈ planned plan) ∧
    (∀ L, L ∈ chain_levels → L ≠ ∅).
Proof.
  apply (unbuilt_levels_come_from_the_plan example_env elements (heap_of chain_recipes)
           (registry_of chain_recipes) 1000 1000 [2] "x86_64" true true false empty_world
           chain_levels empty_world).
  - apply iter_valid_elements.
  - apply forced_levels_example.
Defined.

(** X23: with [force], every requested recipe is in a level that
    [get_unbuilt_package_levels] returns, and with [rebuild_dependants]
    so is every dependant that [get_dependants] finds; neither is asked
    whether it is built already. *)
Theorem forced_recipes_are_rebuilt env iter heap repo limit fuel packages arch force
    rebuild_dependants try_download w levels w' :
  iter_valid iter → registry_keys_named heap repo →
  get_unbuilt_package_levels env iter heap repo limit fuel packages arch force
    rebuild_dependants try_download w = Ok (levels, w') →
  (force = true → ∀ p, p ∈ packages → p ∈ ⋃ levels) ∧
  (rebuild_dependants = true → ∀ dependants,
     get_dependants iter heap repo limit packages true = Ok dependants →
     dependants ⊆ ⋃ levels).
Proof.
  intros Hiter Hkeys Hrun.
  exact (get_unbuilt_forced env iter heap Hiter _ _ _ _ _ _ _ _ _ _ _ Hkeys Hrun).
Qed.

Lemma forced_recipes_are_rebuilt_witness :
  (true = true → ∀ p, p ∈ [2] → p ∈ ⋃ chain_levels) ∧
  (true = true → ∀ dependants,
     get_dependants elements (heap_of chain_recipes) (registry_of chain_recipes) 1000 [2] true
       = Ok dependants →
     dependants ⊆ ⋃ chain_levels).
Proof.
  apply (forced_recipes_are_rebuilt example_env elements (heap_of chain_recipes)
           (registry_of chain_recipes) 1000 1000 [2] "x86_64" true true false empty_world
           chain_levels empty_world).
  - apply iter_valid_elements.
  - apply registry_of_keys_named.
  - apply forced_levels_example.
Defined.

End UnbuiltTheorems.

(** * Facts about desc files *)

Module DescFacts.
Import PyStr Distro DistroSpec DistroFacts DescSpec.

Lemma app_String c (s t : string) : String c s +:+ t = String c (s +:+ t).
Proof. reflexivity. Qed.

Lemma app_assoc_string (a b c : string) : (a +:+ b) +:+ c = a +:+ (b +:+ c).
Proof. induction a as [|x a IH]; [reflexivity|]. rewrite !app_String. by rewrite IH. Qed.

Lemma app_empty_r (a : string) : a +:+ "" = a.
Proof. induction a as [|x a IH]; [reflexivity|]. rewrite app_String. by rewrite IH. Qed.

Lemma contains_String c s sub :
  contains (String c s) sub = startswith (String c s) sub || contains s sub.
Proof. reflexivity. Qed.

Lemma startswith_nil s : startswith s "" = true.
Proof. by destruct s. Qed.

Lemma split_go_nonempty sep k s : split_go sep k s ≠ [].
Proof.
  revert k. induction s as [|c s IH]; intros k; [done|]. cbn [split_go].
  destruct k; [|apply IH].
  destruct (startswith (String c s) sep); [done|].
  by destruct (split_go sep 0 s).
Qed.

(** A piece without a percent sign is joined to the first piece of what
    follows it. *)
Lemma split_pct_app a s :
  contains a "%" = false →
  split "%" (a +:+ s) = match split "%" s with
                        | piece :: rest => (a +:+ piece) :: rest
                        | [] => []
                        end.
Proof.
  unfold split. induction a as [|c a IH]; intros Ha.
  - change ("" +:+ s) with s. destruct (split_go "%" 0 s); reflexivity.
  - rewrite contains_String in Ha. apply orb_false_iff in Ha as [Hc Ha].
    rewrite app_String. cbn [split_go].
    assert (startswith (String c (a +:+ s)) "%" = false) as ->.
    { cbn [startswith] in Hc |- *. by rewrite startswith_nil in Hc |- *. }
    rewrite (IH Ha). pose proof (split_go_nonempty "%" 0 s).
    destruct (split_go "%" 0 s); [done|reflexivity].
Qed.

Lemma split_pct_cut s : split "%" ("%" +:+ s) = "" :: split "%" s.
Proof.
  unfold split. change ("%" +:+ s) with (String "%" s). cbn [split_go startswith].
  rewrite startswith_nil. reflexivity.
Qed.

Lemma contains_pct_app a b :
  contains (a +:+ b) "%" = contains a "%" || contains b "%".
Proof.
  induction a as [|c a IH].
  - change ("" +:+ b) with b. reflexivity.
  - rewrite app_String, !contains_String, IH. cbn [startswith].
    rewrite !startswith_nil. by rewrite orb_assoc.
Qed.

Lemma split_desc_file fields :
  Forall (fun field => clean field.1 ∧ clean field.2) fields →
  split "%" (desc_file fields)
  = "" :: flat_map (fun field => [field.1; newline +:+ field.2 +:+ newline +:+ newline]) fields.
Proof.
  induction 1 as [|[k v] fields [(_ & _ & Hk) (_ & _ & Hv)] _ IH]; [done|].
  simpl in Hk, Hv.
  cbn [desc_file foldr flat_map]. fold (desc_file fields). unfold desc_field. simpl fst. simpl snd.
  rewrite !app_assoc_string. rewrite split_pct_cut. f_equal.
  rewrite (split_pct_app k _ Hk). rewrite split_pct_cut.
  rewrite app_empty_r. cbn [app]. f_equal.
  rewrite <- !app_assoc_string.
  rewrite (split_pct_app (((newline +:+ v) +:+ newline) +:+ newline)).
  - rewrite IH. by rewrite app_empty_r.
  - rewrite !contains_pct_app, Hv. reflexivity.
Qed.

Lemma length_lstrip s : String.length (lstrip s) ≤ String.length s.
Proof.
  induction s as [|c s IH]; [done|]. cbn [lstrip].
  destruct (isspace c); simpl; lia.
Qed.

Lemma length_rstrip s : String.length (rstrip s) ≤ String.length s.
Proof.
  induction s as [|c s IH]; [done|]. cbn [rstrip].
  destruct (rstrip s); [destruct (isspace c)|]; simpl in *; lia.
Qed.

(** A stripped string that is not empty starts with a character that is
    no white space, and stripping on either side leaves it as it is. *)
Lemma clean_head s :
  s ≠ "" → strip s = s →
  ∃ c s', s = String c s' ∧ isspace c = false ∧ rstrip s = s.
Proof.
  intros Hne Hs. destruct s as [|c s']; [done|]. exists c, s'. split; [done|].
  unfold strip in Hs. cbn [lstrip] in Hs.
  destruct (isspace c) eqn:Hc; [|done].
  exfalso. apply (f_equal String.length) in Hs.
  pose proof (length_rstrip (lstrip s')). pose proof (length_lstrip s'). simpl in Hs. lia.
Qed.

Lemma rstrip_app_blank s t : rstrip t = "" → rstrip (s +:+ t) = rstrip s.
Proof.
  intros Ht. induction s as [|c s IH]; [done|].
  rewrite app_String. cbn [rstrip]. by rewrite IH.
Qed.

Lemma strip_value v :
  v ≠ "" → strip v = v → strip (newline +:+ v +:+ newline +:+ newline) = v.
Proof.
  intros Hne Hs. destruct (clean_head v Hne Hs) as (c & v' & -> & Hc & Hr).
  unfold strip.
  change (newline +:+ String c v' +:+ newline +:+ newline)
    with (String "010" (String c (v' +:+ newline +:+ newline))).
  cbn [lstrip]. change (isspace "010") with true. cbv iota. rewrite Hc.
  change (String c (v' +:+ newline +:+ newline)) with (String c v' +:+ (newline +:+ newline)).
  by rewrite rstrip_app_blank.
Qed.

Lemma pruned_lines_desc_file fields :
  Forall (fun field => clean field.1 ∧ clean field.2) fields →
  pruned_lines (desc_file fields) = flat_map (fun field => [field.1; field.2]) fields.
Proof.
  intros Hclean. unfold pruned_lines. rewrite (split_desc_file fields Hclean).
  rewrite filter_cons_False by (intros H; by apply H).
  induction Hclean as [|[k v] fields [(Hk & Hks & _) (Hv & Hvs & _)] _ IH]; [done|].
  simpl in Hk, Hks, Hv, Hvs. cbn [flat_map app fst snd].
  rewrite filter_cons_True by (by rewrite Hks).
  rewrite filter_cons_True by (by rewrite strip_value).
  rewrite !fmap_cons. rewrite Hks, strip_value by done. by rewrite IH.
Qed.

Lemma evens_pairs {A} (l : list (A * A)) :
  evens (flat_map (fun p => [p.1; p.2]) l) = l.*1.
Proof. induction l as [|[a b] l IH]; [done|]. simpl. f_equal. exact IH. Qed.

Lemma odds_pairs {A} (l : list (A * A)) :
  odds (flat_map (fun p => [p.1; p.2]) l) = l.*2.
Proof.
  induction l as [|[a b] l IH]; [done|]. simpl. f_equal.
  etransitivity; [|exact IH]. by destruct (flat_map _ l).
Qed.

Lemma zip_pairs {A B} (l : list (A * B)) : zip l.*1 l.*2 = l.
Proof. induction l as [|[a b] l IH]; [done|]. simpl. f_equal. exact IH. Qed.

(** The loop that fills [desc], for clean fields. *)
Lemma desc_fold_other fields : ∀ (m : gmap string string) key,
  key ∉ (strip <$> fields.*1) →
  fold_left (fun desc '(key, value) => <[strip key := strip value]> desc) fields m !! key
  = m !! key.
Proof.
  induction fields as [|[k v] fields IH]; intros m key Hkey; [done|].
  simpl in Hkey |- *. apply not_elem_of_cons in Hkey as [Hne Hkey].
  rewrite (IH _ _ Hkey). by rewrite lookup_insert_ne.
Qed.

Lemma desc_fold_lookup fields : ∀ (m : gmap string string) key value,
  Forall (fun field => clean field.1 ∧ clean field.2) fields →
  NoDup fields.*1 →
  (key, value) ∈ fields →
  fold_left (fun desc '(key, value) => <[strip key := strip value]> desc) fields m !! key
  = Some value.
Proof.
  induction fields as [|[k v] fields IH]; intros m key value Hclean Hnd Hin.
  - by apply elem_of_nil in Hin.
  - apply Forall_cons in Hclean as [[(_ & Hk & _) (_ & Hv & _)] Hclean].
    simpl in Hnd. apply NoDup_cons in Hnd as [Hfresh Hnd].
    simpl in Hk, Hv. cbn [fold_left]. rewrite Hk, Hv.
    apply elem_of_cons in Hin as [[= -> ->]|Hin]; [|by apply IH].
    rewrite desc_fold_other; [by rewrite lookup_insert_eq|].
    intros Hin. apply Hfresh.
    apply list_elem_of_fmap in Hin as (k' & -> & Hin).
    apply list_elem_of_fmap in Hin as ([k2 v2] & -> & Hin).
    apply (proj1 (Forall_forall _ _) Hclean) in Hin as Hc. destruct Hc as [(_ & -> & _) _].
    apply list_elem_of_fmap. by exists (k2, v2).
Qed.

Lemma desc_dict_lookup fields key value :
  Forall (fun field => clean field.1 ∧ clean field.2) fields →
  NoDup fields.*1 →
  (key, value) ∈ fields →
  desc_dict (pruned_lines (desc_file fields)) !! key = Some value.
Proof.
  intros Hclean Hnd Hin. rewrite (pruned_lines_desc_file fields Hclean).
  unfold desc_dict. rewrite evens_pairs, odds_pairs, zip_pairs.
  by apply desc_fold_lookup.
Qed.

End DescFacts.

Module DescTheorems.
Import PyStr Distro DistroSpec DistroFacts DescSpec DescFacts.



End DescTheorems.

(** * Facts about scanning a repository index *)

Module ScanFacts.
Import PyStr Distro Examples DistroSpec DistroFacts ScanSpec.

(** A scan that ends well has parsed a list of packages that does not
    depend on the packages the repository held, and has entered them one
    after the other. *)
Lemma scan_members_entries url index : ∀ packages packages',
  scan_members url index packages = Ok packages' →
  ∃ pkgs, ∀ held, scan_members url index held = Ok (fold_left put pkgs held).
Proof.
  induction index as [|node index IH]; intros packages packages' H.
  - by exists [].
  - simpl in H. destruct (String.eqb (basename (member_name node)) "desc") eqn:Hdesc.
    + destruct (parse_desc (member_data node) (Some url)) as [pkg| |] eqn:Hpkg; [|done|done].
      simpl in H. destruct (IH _ _ H) as [pkgs Hpkgs].
      exists (pkg :: pkgs). intros held. simpl. rewrite Hdesc, Hpkg. simpl. apply Hpkgs.
    + destruct (IH _ _ H) as [pkgs Hpkgs]. exists pkgs. intros held. simpl.
      rewrite Hdesc. apply Hpkgs.
Qed.

Lemma put_keeps pkgs : ∀ held key,
  is_Some (held !! key) → is_Some (fold_left put pkgs held !! key).
Proof.
  induction pkgs as [|pkg pkgs IH]; intros held key Hkey; [done|].
  simpl. apply IH. unfold put.
  destruct (decide (pi_name pkg = key)) as [->|Hne].
  - rewrite lookup_insert_eq. by eexists.
  - by rewrite lookup_insert_ne.
Qed.

Lemma put_other pkgs : ∀ held key,
  key ∉ pi_name <$> pkgs → fold_left put pkgs held !! key = held !! key.
Proof.
  induction pkgs as [|pkg pkgs IH]; intros held key Hkey; [done|].
  simpl in Hkey |- *. apply not_elem_of_cons in Hkey as [Hne Hkey].
  rewrite (IH _ _ Hkey). unfold put. by rewrite lookup_insert_ne.
Qed.

(** What is found under a name that was entered does not depend on the
    packages held before. *)
Lemma put_entered pkgs : ∀ held held' key,
  key ∈ pi_name <$> pkgs →
  fold_left put pkgs held !! key = fold_left put pkgs held' !! key.
Proof.
  induction pkgs as [|pkg pkgs IH]; intros held held' key Hkey.
  - by apply elem_of_nil in Hkey.
  - simpl in Hkey |- *.
    destruct (decide (key ∈ pi_name <$> pkgs)) as [Hin|Hout]; [by apply IH|].
    rewrite !put_other by done.
    apply elem_of_cons in Hkey as [->|Hkey]; [|done].
    unfold put. by rewrite !lookup_insert_eq.
Qed.

Lemma put_twice pkgs held :
  fold_left put pkgs (fold_left put pkgs held) = fold_left put pkgs held.
Proof.
  apply map_eq. intros key.
  destruct (decide (key ∈ pi_name <$> pkgs)) as [Hin|Hout].
  - by apply put_entered.
  - by rewrite put_other.
Qed.

Lemma scan_members_again url index packages packages' :
  scan_members url index packages = Ok packages' →
  scan_members url index packages' = Ok packages'.
Proof.
  intros H. destruct (scan_members_entries url index _ _ H) as [pkgs Hpkgs].
  rewrite Hpkgs in H. injection H as <-. rewrite Hpkgs. by rewrite put_twice.
Qed.

Lemma scan_members_keeps url index packages packages' key :
  scan_members url index packages = Ok packages' →
  is_Some (packages !! key) → is_Some (packages' !! key).
Proof.
  intros H. destruct (scan_members_entries url index _ _ H) as [pkgs Hpkgs].
  rewrite Hpkgs in H. injection H as <-. apply put_keeps.
Qed.

Lemma scan_Ok_inv host index self r :
  scan host index self = Ok r →
  ∃ pkgs,
    scan_members (resolve_url host (repo_url_template self) (name self) (arch self))
      index (packages self) = Ok pkgs ∧
    r = {| name := name self; repo_url_template := repo_url_template self;
           arch := arch self; options := options self; packages := pkgs;
           resolved_url :=
             Some (resolve_url host (repo_url_template self) (name self) (arch self));
           remote :=
             Some (negb (startswith
                           (resolve_url host (repo_url_template self) (name self) (arch self))
                           "file://"));
           scanned := true |}.
Proof.
  unfold scan. cbv zeta.
  destruct (scan_members _ index (packages self)) as [pkgs| |]; [|done|done].
  simpl. intros [= <-]. by exists pkgs.
Qed.

End ScanFacts.

Module ScanTheorems.
Import PyStr Distro Examples DistroSpec DistroFacts ScanSpec ScanFacts.

(** X25: scanning a repository again with the same index changes
    nothing: the second [scan] returns the repository the first one
    returned. *)
Theorem scan_again_changes_nothing host index self r :
  scan host index self = Ok r → scan host index r = Ok r.
Proof.
  intros H. apply scan_Ok_inv in H as (pkgs & Hpkgs & ->).
  unfold scan. cbn [name repo_url_template arch packages options]. cbv zeta.
  by rewrite (scan_members_again _ _ _ _ Hpkgs).
Qed.

Lemma scan_again_changes_nothing_witness :
  scan "x86_64" zlib_index scanned_zlib = Ok scanned_zlib.
Proof.
  apply (scan_again_changes_nothing "x86_64" zlib_index main_repo scanned_zlib).
  vm_compute. reflexivity.
Defined.

(** X26: [scan] never forgets a package: a name the repository held
    before the scan is still held after it, also when the index no longer
    lists it. *)
Theorem scan_never_forgets host index self r key :
  scan host index self = Ok r →
  is_Some (packages self !! key) → is_Some (packages r !! key).
Proof.
  intros H. apply scan_Ok_inv in H as (pkgs & Hpkgs & ->).
  cbn [packages]. by apply (scan_members_keeps _ _ _ _ _ Hpkgs).
Qed.

Lemma scan_never_forgets_witness : is_Some (packages scanned_zlib_bash !! "zlib").
Proof.
  apply (scan_never_forgets "x86_64" bash_index scanned_zlib scanned_zlib_bash "zlib").
  - vm_compute. reflexivity.
  - vm_compute. eexists. reflexivity.
Defined.

End ScanTheorems.

(** * Facts about the construction of distros *)

Module KupferFacts.
Import PyStr Distro Examples DistroSpec DistroFacts DictFacts.

Lemma get_is_Some {V} (d : Dict.dict V) k : is_Some (Dict.get d k) ↔ k ∈ Dict.keys d.
Proof.
  pose proof (get_None d k) as H. destruct (Dict.get d k) as [v|].
  - split; [|by eexists]. intros _. destruct (decide (k ∈ Dict.keys d)) as [|Hn]; [done|].
    by apply H in Hn.
  - split; [by intros [? ?]|]. intros Hk. exfalso. by apply (proj1 H).
Qed.

Lemma elem_of_set {V} (d : Dict.dict V) k v k' v' :
  (k', v') ∈ Dict.set d k v → (k', v') = (k, v) ∨ (k', v') ∈ d.
Proof.
  induction d as [|[k0 v0] d IH]; simpl.
  - intros H. apply list_elem_of_singleton in H. by left.
  - destruct (String.eqb k k0).
    + intros H. apply elem_of_cons in H as [H|H]; [by left|]. right. by right.
    + intros H. apply elem_of_cons in H as [H|H]; [right; rewrite H; left|].
      destruct (IH H) as [?|?]; [by left|]. right. by right.
Qed.

Lemma elem_of_keys_set {V} (d : Dict.dict V) k v k' :
  k' ∈ Dict.keys (Dict.set d k v) ↔ k' = k ∨ k' ∈ Dict.keys d.
Proof.
  rewrite <- !get_is_Some. rewrite get_set. destruct (String.eqb k' k) eqn:E.
  - apply String.eqb_eq in E as ->. split; [by left|]. intros _. by eexists.
  - split; [by right|]. intros [->|H]; [|done]. by rewrite String.eqb_refl in E.
Qed.

Lemma dict_update_twice (d o : gmap string string) :
  dict_update (dict_update d o) o = dict_update d o.
Proof. unfold dict_update. by rewrite (assoc_L (∪)), (idemp_L (∪)). Qed.

(** The loop of the dict comprehension: the class attribute takes the
    options with the first [RepoInfo]; the instances hold none. *)
Lemma repo_infos_fold options entries : ∀ infos cls infos' cls',
  fold_left
    (fun '(infos, cls) '(repo_name, url) =>
       let '(info, cls') := RepoInfo_init url options cls in
       (Dict.set infos repo_name info, cls'))
    entries (infos, cls) = (infos', cls') →
  cls' = (if entries is [] then cls
          else {| RepoInfo_options := dict_update (RepoInfo_options cls) options |}) ∧
  (∀ n, n ∈ Dict.keys infos' ↔ n ∈ entries.*1 ∨ n ∈ Dict.keys infos) ∧
  (∀ n info, (n, info) ∈ infos' →
     (∃ url, (n, url) ∈ entries ∧ info = {| url_template := url; own_options := None |})
     ∨ (n, info) ∈ infos).
Proof.
  induction entries as [|[n0 url0] entries IH]; intros infos cls infos' cls' H.
  - simpl in H. injection H as <- <-. split; [done|]. split; [|by right].
    intros n. split; [by right|].
    intros [H|H]; [by apply elem_of_nil in H|done].
  - cbn [fold_left] in H.
    destruct (IH (Dict.set infos n0 {| url_template := url0; own_options := None |})
                {| RepoInfo_options := dict_update (RepoInfo_options cls) options |}
                infos' cls' H)
      as (Hcls & Hkeys & Hin).
    split; [|split].
    + rewrite Hcls. destruct entries; [done|]. cbn [RepoInfo_options].
      by rewrite dict_update_twice.
    + intros n. rewrite Hkeys, elem_of_keys_set. rewrite fmap_cons, elem_of_cons. simpl. tauto.
    + intros n info H'. destruct (Hin n info H') as [(url & Hurl & ->)|H''].
      * left. exists url. split; [by right|done].
      * apply elem_of_set in H'' as [[= -> ->]|H'']; [|by right].
        left. exists url0. split; [left|done].
Qed.

(** The loop of [Distro.__init__]. *)
Lemma Distro_init_fold arch cls l : ∀ repos0,
  let repos' := fold_left
                  (fun repos '(repo_name, repo_info) =>
                     Dict.set repos repo_name
                       (Repo_init repo_name (url_template repo_info) arch
                          (get_options cls repo_info)))
                  l repos0 in
  (∀ n, n ∈ Dict.keys repos' ↔ n ∈ l.*1 ∨ n ∈ Dict.keys repos0) ∧
  (∀ n r, (n, r) ∈ repos' →
     (∃ info, (n, info) ∈ l ∧
              r = Repo_init n (url_template info) arch (get_options cls info))
     ∨ (n, r) ∈ repos0).
Proof.
  induction l as [|[n0 info0] l IH]; intros repos0; cbv zeta.
  - simpl. split; [|by right]. intros n. split; [by right|].
    intros [H|H]; [by apply elem_of_nil in H|done].
  - cbn [fold_left].
    destruct (IH (Dict.set repos0 n0
                    (Repo_init n0 (url_template info0) arch (get_options cls info0))))
      as (Hkeys & Hin).
    cbv zeta in Hkeys, Hin. split.
    + intros n. rewrite Hkeys, elem_of_keys_set. rewrite fmap_cons, elem_of_cons. simpl. tauto.
    + intros n r H. destruct (Hin n r H) as [(info & Hinfo & ->)|H'].
      * left. exists info. split; [by right|done].
      * apply elem_of_set in H' as [[= -> ->]|H']; [|by right].
        left. exists info0. split; [left|done].
Qed.

Lemma get_elem_of {V} (d : Dict.dict V) k v : Dict.get d k = Some v → (k, v) ∈ d.
Proof.
  induction d as [|[k0 v0] d IH]; simpl; [done|].
  destruct (String.eqb k k0) eqn:E.
  - apply String.eqb_eq in E as ->. intros [= ->]. left.
  - intros H. right. by apply IH.
Qed.

Lemma get_kupfer_spec arches repositories arch url cls distro :
  (get_kupfer arches repositories arch url cls).1 = Ok distro →
  arch ∈ arches ∧ distro_arch distro = arch ∧
  (∀ n, is_Some (Dict.get (repos distro) n) ↔ n ∈ repositories) ∧
  (∀ n r, Dict.get (repos distro) n = Some r →
     r = Repo_init n url arch
           (dict_update (RepoInfo_options cls) {["SigLevel" := "Never"]})).
Proof.
  unfold get_kupfer, repo_infos.
  match goal with
  | |- context [fold_left ?f ?l ?a] => destruct (fold_left f l a) as [infos cls'] eqn:H1
  end.
  apply repo_infos_fold in H1 as (Hcls & Hkeys1 & Hin1).
  cbn [fst]. unfold Distro_init.
  destruct (decide (arch ∈ arches)) as [Harch|Harch];
    [rewrite bool_decide_eq_true_2 by done|by rewrite bool_decide_eq_false_2].
  intros [= <-]. cbn [distro_arch repos].
  destruct (Distro_init_fold arch cls' infos []) as (Hkeys2 & Hin2). cbv zeta in Hkeys2, Hin2.
  split; [done|]. split; [done|]. split.
  - intros n. rewrite get_is_Some, Hkeys2, Hkeys1.
    rewrite <- list_fmap_compose.
    assert ((fst ∘ (fun repo_name : string => (repo_name, url))) <$> repositories
            = repositories) as ->.
    { clear. induction repositories as [|x l IH]; [done|]. simpl. f_equal. exact IH. }
    split; [|by left; left]. intros [[H|H]|H]; [done| |]; by apply elem_of_nil in H.
  - intros n r Hr. apply get_elem_of in Hr.
    destruct (Hin2 n r Hr) as [(info & Hinfo & ->)|H]; [|by apply elem_of_nil in H].
    destruct (Hin1 n info Hinfo) as [(url' & Hurl & ->)|H]; [|by apply elem_of_nil in H].
    apply list_elem_of_fmap in Hurl as (n' & [= -> ->] & Hn').
    unfold get_options. cbn [own_options url_template]. f_equal.
    rewrite Hcls. by destruct repositories; [apply elem_of_nil in Hn'|].
Qed.

End KupferFacts.

Module KupferTheorems.
Import PyStr Distro KupferSpec KupferFacts.

(** X27: a distro that [get_kupfer] returns is for an architecture of
    ARCHES and has one repository per name in REPOSITORIES, each as
    [Repo.__init__] makes it (unscanned, without packages) with the given
    URL template and architecture; its options are [SigLevel = Never]
    laid over what the class attribute [RepoInfo.options] held. *)
Theorem get_kupfer_repos arches repositories arch url cls distro :
  (get_kupfer arches repositories arch url cls).1 = Ok distro →
  arch ∈ arches ∧ distro_arch distro = arch ∧
  (∀ n, is_Some (Dict.get (repos distro) n) ↔ n ∈ repositories) ∧
  (∀ n r, Dict.get (repos distro) n = Some r →
     r = Repo_init n url arch (dict_update (RepoInfo_options cls) {["SigLevel" := "Never"]})
     ∧ options r !! "SigLevel" = Some "Never").
Proof.
  intros H. apply get_kupfer_spec in H as (Harch & Hdistro & Hkeys & Hrepos).
  split; [done|]. split; [done|]. split; [done|].
  intros n r Hr. split; [by apply Hrepos|].
  rewrite (Hrepos n r Hr). cbn [options Repo_init]. unfold dict_update.
  apply lookup_union_Some_l. apply lookup_singleton_eq.
Qed.

Lemma get_kupfer_repos_witness :
  "aarch64" ∈ ["x86_64"; "aarch64"] ∧ distro_arch kupfer_main = "aarch64" ∧
  (∀ n, is_Some (Dict.get (repos kupfer_main) n) ↔ n ∈ ["main"]) ∧
  (∀ n r, Dict.get (repos kupfer_main) n = Some r →
     r = Repo_init n kupfer_url "aarch64"
           (dict_update (RepoInfo_options {| RepoInfo_options := ∅ |})
              {["SigLevel" := "Never"]})
     ∧ options r !! "SigLevel" = Some "Never").
Proof.
  apply (get_kupfer_repos ["x86_64"; "aarch64"] ["main"] "aarch64" kupfer_url
           {| RepoInfo_options := ∅ |} kupfer_main).
  reflexivity.
Defined.

End KupferTheorems.

(** * Facts about URL templates *)

Module TemplateFacts.
Import PyStr Distro DescFacts TemplateSpec.

Lemma contains_dollar_app a b :
  contains (a +:+ b) "$" = contains a "$" || contains b "$".
Proof.
  induction a as [|c a IH].
  - change ("" +:+ b) with b. reflexivity.
  - rewrite app_String, !contains_String, IH. cbn [startswith].
    rewrite !startswith_nil. by rewrite orb_assoc.
Qed.

(** Text without a dollar sign passes through the replacement of a
    placeholder. *)
Lemma replace_go_text var new a s :
  dollar_free a →
  replace_go (String "$" var) new 0 (a +:+ s) = a +:+ replace_go (String "$" var) new 0 s.
Proof.
  unfold dollar_free. induction a as [|c a IH]; intros Ha; [reflexivity|].
  rewrite contains_String in Ha. apply orb_false_iff in Ha as [Hc Ha].
  cbn [startswith] in Hc. rewrite startswith_nil, andb_true_r in Hc.
  rewrite !app_String. cbn [replace_go startswith]. rewrite Hc. cbn [andb].
  by rewrite (IH Ha).
Qed.

Lemma replace_go_skip old new a : ∀ s,
  replace_go old new (String.length a) (a +:+ s) = replace_go old new 0 s.
Proof.
  induction a as [|c a IH]; intros s; [reflexivity|].
  rewrite app_String. cbn [String.length replace_go]. apply IH.
Qed.

Lemma startswith_app a s : startswith (a +:+ s) a = true.
Proof.
  induction a as [|c a IH]; [apply startswith_nil|].
  rewrite app_String. cbn [startswith]. by rewrite Ascii.eqb_refl, IH.
Qed.

Lemma replace_repo_repo new s :
  replace_go "$repo" new 0 ("$repo" +:+ s) = new +:+ replace_go "$repo" new 0 s.
Proof.
  change ("$repo" +:+ s) with (String "$" ("repo" +:+ s)).
  cbn [replace_go startswith Ascii.eqb Bool.eqb andb]. rewrite startswith_app.
  change (String.length "$repo" - 1) with (String.length "repo").
  by rewrite replace_go_skip.
Qed.

Lemma replace_repo_arch new s :
  replace_go "$repo" new 0 ("$arch" +:+ s) = "$arch" +:+ replace_go "$repo" new 0 s.
Proof.
  change ("$arch" +:+ s) with (String "$" ("arch" +:+ s)).
  cbn [replace_go startswith Ascii.eqb Bool.eqb andb].
  rewrite (replace_go_text "repo" new "arch" s) by reflexivity. reflexivity.
Qed.

Lemma replace_arch_arch new s :
  replace_go "$arch" new 0 ("$arch" +:+ s) = new +:+ replace_go "$arch" new 0 s.
Proof.
  change ("$arch" +:+ s) with (String "$" ("arch" +:+ s)).
  cbn [replace_go startswith Ascii.eqb Bool.eqb andb]. rewrite startswith_app.
  change (String.length "$arch" - 1) with (String.length "arch").
  by rewrite replace_go_skip.
Qed.

(** The first replacement fills in the repository name and leaves the
    other placeholder. *)
Lemma replace_repo_template repo_name pieces :
  Forall plain pieces →
  replace "$repo" repo_name (template_of pieces)
  = template_of ((fun p => match p with RepoVar => Text repo_name | _ => p end) <$> pieces).
Proof.
  unfold replace. induction 1 as [|p pieces Hp _ IH]; [reflexivity|].
  rewrite fmap_cons. cbn [template_of foldr].
  fold (template_of pieces).
  fold (template_of ((fun p => match p with RepoVar => Text repo_name | _ => p end)
                       <$> pieces)).
  destruct p as [s| |].
  - rewrite (replace_go_text "repo" repo_name s _ Hp). by rewrite IH.
  - rewrite replace_repo_repo. by rewrite IH.
  - rewrite replace_repo_arch. by rewrite IH.
Qed.

Lemma replace_arch_template arch pieces :
  Forall plain pieces → Forall (fun p => p ≠ RepoVar) pieces →
  replace "$arch" arch (template_of pieces) = filled "" arch pieces.
Proof.
  unfold replace. intros Hplain. induction Hplain as [|p pieces Hp _ IH]; [reflexivity|].
  intros Hno. apply Forall_cons in Hno as [Hp' Hno].
  cbn [template_of filled foldr]. fold (template_of pieces). fold (filled "" arch pieces).
  destruct p as [s| |]; [|done|].
  - rewrite (replace_go_text "arch" arch s _ Hp). by rewrite IH.
  - rewrite replace_arch_arch. by rewrite IH.
Qed.

Lemma filled_repo repo_name arch pieces :
  filled "" arch ((fun p => match p with RepoVar => Text repo_name | _ => p end) <$> pieces)
  = filled repo_name arch pieces.
Proof.
  induction pieces as [|p pieces IH]; [reflexivity|].
  rewrite fmap_cons. cbn [filled foldr].
  fold (filled repo_name arch pieces).
  fold (filled "" arch ((fun p => match p with RepoVar => Text repo_name | _ => p end)
                          <$> pieces)).
  rewrite IH. by destruct p.
Qed.

Lemma resolve_url_filled host repo_name arch pieces :
  Forall plain pieces → dollar_free repo_name →
  resolve_url host (template_of pieces) repo_name arch = filled repo_name host pieces.
Proof.
  intros Hplain Hname. unfold resolve_url. cbn [fold_left].
  rewrite (replace_repo_template repo_name pieces Hplain).
  rewrite replace_arch_template.
  - apply filled_repo.
  - apply Forall_fmap. eapply Forall_impl; [exact Hplain|]. intros [s| |]; simpl; done.
  - apply Forall_fmap. apply Forall_forall. intros [s| |] _; simpl; done.
Qed.

End TemplateFacts.

Module TemplateTheorems.
Import PyStr Distro TemplateSpec TemplateFacts.

(** X28: for a URL template made of text without dollar signs and the
    placeholders [$repo] and [$arch], in any number and order, and a
    repository name without a dollar sign, [resolve_url] returns the
    template with the repository name in the place of every [$repo] and
    the architecture of the running host in the place of every [$arch]. *)
Theorem resolve_url_fills_the_placeholders host repo_name arch pieces :
  Forall plain pieces → dollar_free repo_name →
  resolve_url host (template_of pieces) repo_name arch = filled repo_name host pieces.
Proof. exact (resolve_url_filled host repo_name arch pieces). Qed.

Lemma resolve_url_fills_the_placeholders_witness :
  resolve_url "x86_64" (template_of local_template) "main" "aarch64"
  = filled "main" "x86_64" local_template.
Proof.
  apply (resolve_url_fills_the_placeholders "x86_64" "main" "aarch64" local_template).
  - repeat (apply Forall_cons; split; [by vm_compute|]). by apply Forall_nil.
  - reflexivity.
Defined.

End TemplateTheorems.

(** * Facts about building by paths *)

Module ByPathsFacts.
Import PyStr Packages Recipes PlanningFacts WorldFacts.

Lemma in_paths_false paths s : s ∉ paths → in_paths paths s = false.
Proof.
  unfold in_paths. induction paths as [|x paths IH]; [done|].
  intros H. apply not_elem_of_cons in H as [Hne H]. simpl. rewrite (IH H).
  destruct (String.eqb s x) eqn:E; [|done]. by apply String.eqb_eq in E.
Qed.

Lemma filter_packages_no_match heap repo paths use_paths use_names :
  "all" ∉ paths →
  (∀ p, p ∈ Dict.values repo →
        ¬ (path (deref heap p) ∈ paths ∨ name (deref heap p) ∈ paths)) →
  filter_packages heap repo paths false use_paths use_names
  = Raise (Exception "No packages matched by paths").
Proof.
  intros Hall Hnone. unfold filter_packages. rewrite (in_paths_false _ _ Hall).
  assert (List.filter (fun pkg => matches use_paths use_names paths (deref heap pkg))
            (Dict.values repo) = []) as ->; [|reflexivity].
  induction (Dict.values repo) as [|p l IH]; [done|].
  simpl. assert ((path (deref heap p) ∉ paths) ∧ (name (deref heap p) ∉ paths)) as [Hp Hn].
  { assert (p ∈ p :: l) as Hin by left. apply Hnone in Hin. tauto. }
  unfold matches at 1. rewrite (in_paths_false _ _ Hp), (in_paths_false _ _ Hn).
  rewrite !andb_false_r. simpl. apply IH. intros q Hq. apply Hnone. by right.
Qed.

Lemma build_packages_by_paths_no_match env iter heap repo limit fuel paths arch force rd td w :
  "all" ∉ paths →
  (∀ p, p ∈ Dict.values repo →
        ¬ (path (deref heap p) ∈ paths ∨ name (deref heap p) ∈ paths)) →
  ∀ r w', build_packages_by_paths env iter heap repo limit fuel paths arch force rd td w
          ≠ Ok (r, w').
Proof.
  intros Hall Hnone r w' H. unfold build_packages_by_paths in H.
  apply bind_Ok_inv in H as (u & w1 & _ & H).
  apply bind_Ok_inv in H as (packages & w2 & Hfilter & _).
  rewrite (filter_packages_no_match heap repo paths true true Hall Hnone) in Hfilter.
  done.
Qed.

End ByPathsFacts.

Module ByPathsTheorems.
Import PyStr Packages Recipes PlanningFacts WorldFacts ByPathsFacts.

(** X29: when no path is [all] and no recipe of the registry has its
    path or its name among the paths, [build_packages_by_paths] does not
    return: [filter_packages] raises an exception before anything is
    planned or built. *)
Theorem build_packages_by_paths_needs_a_match env iter heap repo limit fuel paths arch
    force rebuild_dependants try_download w :
  "all" ∉ paths →
  (∀ p, p ∈ Dict.values repo →
        ¬ (path (deref heap p) ∈ paths ∨ name (deref heap p) ∈ paths)) →
  (∃ message, filter_packages heap repo paths false true true
                = Raise (Exception message)) ∧
  ∀ r w', build_packages_by_paths env iter heap repo limit fuel paths arch force
            rebuild_dependants try_download w ≠ Ok (r, w').
Proof.
  intros Hall Hnone. split.
  - eexists. by apply filter_packages_no_match.
  - by apply build_packages_by_paths_no_match.
Qed.

Lemma build_packages_by_paths_needs_a_match_witness :
  (∃ message, filter_packages (heap_of alias_recipes) (registry_of alias_recipes) ["zlib"]
                false true true = Raise (Exception message)) ∧
  ∀ r w', build_packages_by_paths example_env elements (heap_of alias_recipes)
            (registry_of alias_recipes) 1000 1000 ["zlib"] "x86_64" false false false
            empty_world ≠ Ok (r, w').
Proof.
  apply (build_packages_by_paths_needs_a_match example_env elements (heap_of alias_recipes)
           (registry_of alias_recipes) 1000 1000 ["zlib"] "x86_64" false false false
           empty_world).
  - intros H. apply list_elem_of_singleton in H. discriminate.
  - apply Forall_forall.
    set (l := Dict.values (registry_of alias_recipes)). vm_compute in l. subst l.
    repeat (apply Forall_cons; split;
            [intros [H|H]; apply list_elem_of_singleton in H; vm_compute in H; discriminate|]).
    by apply Forall_nil.
Defined.

End ByPathsTheorems.
